(** * Beam-tilt estimation in RELION: [TiltEstimator] over [ObservationModel]

    A shallow embedding of [TiltEstimator::read], [init], [processMicrograph],
    [parametricFit] and [isFinished] (tilt_estimator.cpp, printed after
    src/jaz/obs_model.h), together with the parts of [ObservationModel],
    [MetaDataTable], [Image] and the file system they go through.

    Conventions.
    - [double] is the kernel's binary64 [float]; [RFLOAT], which RELION fixes
      at build time (float or double), is a type class [RFloat].
    - The arithmetic of [double] is that of [float], which the kernel
      specifies by [SpecFloat]; the bound on the rounding of a sum is
      derived from that specification.
    - [int] values that the code only uses as sizes or loop counters are
      [nat]; optics-group numbers and the entries of [groupToIndex], which
      may be negative, are [Z].  32-bit overflow is out of reach for the
      image sizes at hand and is not modelled.
    - [REPORT_ERROR] is the outcome [ReportError]; indexing a [std::vector]
      outside its bounds, which C++ leaves undefined, is the outcome
      [Undefined].
    - The OpenMP loop of [processMicrograph] is run along a schedule: the
      list of (particle, thread number) pairs in the order in which the
      iterations take effect.

    The module [ConvertToTiff] further down embeds the movie converter of
    src/unnamed/part_000 with conventions of its own. *)

From Stdlib Require Import ZArith String Ascii DecimalString DecimalZ DecimalPos DecimalFacts
  PrimFloat Uint63 Floats Lia Permutation.
From stdpp Require Import base list gmap strings.

Local Open Scope string_scope.
Local Open Scope Z_scope.

(** ** Outcomes of a call *)

Inductive result (A : Type) : Type :=
| Ok (a : A)
| ReportError (msg : string)
| Undefined.
Arguments Ok {A} a.
Arguments ReportError {A} msg.
Arguments Undefined {A}.

Definition bind {A B : Type} (r : result A) (k : A -> result B) : result B :=
  match r with
  | Ok a => k a
  | ReportError msg => ReportError msg
  | Undefined => Undefined
  end.

Notation "'let*' x ':=' r 'in' k" := (bind r (fun x => k))
  (at level 10, x name, r at level 200, k at level 200, only parsing).

(** [v[i]] and [v[i] = a] on a [std::vector], the index an [int]. *)
Definition vec_get {A : Type} (v : list A) (i : Z) : result A :=
  if i <? 0 then Undefined
  else match v !! Z.to_nat i with
       | Some a => Ok a
       | None => Undefined
       end.

Definition vec_set {A : Type} (v : list A) (i : Z) (a : A) : result (list A) :=
  if i <? 0 then Undefined
  else if (Z.to_nat i <? length v)%nat then Ok (<[Z.to_nat i := a]> v)
       else Undefined.

(** ** Numbers *)

(** [RFLOAT]: the operations the estimator applies to it. [rf_gt a b] is the
    C++ test [a > b]. *)
Class RFloat (R : Type) : Type := {
  rf_zero : R;
  rf_one : R;
  rf_add : R -> R -> R;
  rf_mul : R -> R -> R;
  rf_div : R -> R -> R;
  rf_gt : R -> R -> bool
}.

(** The default build: [RFLOAT] is [double]. *)
#[export] Instance double_RFloat : RFloat float := {
  rf_zero := 0%float;
  rf_one := 1%float;
  rf_add := PrimFloat.add;
  rf_mul := PrimFloat.mul;
  rf_div := PrimFloat.div;
  rf_gt := fun a b => PrimFloat.ltb b a
}.

(** The conversion of an [int] to [double]. *)
Definition double_of_int (z : Z) : float :=
  if z <? 0 then PrimFloat.opp (PrimFloat.of_uint63 (Uint63.of_Z (- z)))
  else PrimFloat.of_uint63 (Uint63.of_Z z).

(** [sts << n] for an [int] [n]: its decimal digits, with a minus sign in
    front of a negative number. *)
Definition string_of_int (n : Z) : string :=
  NilZero.string_of_int (Z.to_int n).

(** Modelled from the spec: [Complex] (src/complex.h) is not under src/. A
    complex number is its real and imaginary part; sum, product with a real
    and quotient by a real go by component. *)
Record Complex (R : Type) : Type := mkComplex { real : R; imag : R }.
Arguments mkComplex {R} real imag.
Arguments real {R} c.
Arguments imag {R} c.

(** What an accumulator image holds: values that can be summed and scaled
    by a real factor. *)
Class Elem (R T : Type) : Type := {
  e_zero : T;
  e_add : T -> T -> T;
  e_scale : R -> T -> T
}.

#[export] Instance RFloat_Elem {R} `{RFloat R} : Elem R R := {
  e_zero := rf_zero;
  e_add := rf_add;
  e_scale := rf_mul
}.

#[export] Instance Complex_Elem {R} `{RFloat R} : Elem R (Complex R) := {
  e_zero := mkComplex rf_zero rf_zero;
  e_add := fun a b => mkComplex (rf_add (real a) (real b)) (rf_add (imag a) (imag b));
  e_scale := fun r a => mkComplex (rf_mul r (real a)) (rf_mul r (imag a))
}.

(** [c / w] for a [Complex] [c] and an [RFLOAT] [w]. *)
Definition complex_div {R} `{RFloat R} (c : Complex R) (w : R) : Complex R :=
  mkComplex (rf_div (real c) w) (rf_div (imag c) w).

(** ** Images *)

(** Modelled from the spec: [Image] and [MultidimArray] (src/image.h,
    src/multidim_array.h) are not under src/. A 2-D image is its width
    [xdim], its height [ydim] and its pixels in row-major order, the layout
    the spec calls the half-spectrum when the width is [sh] and the height
    [s]. *)
Record Image (T : Type) : Type := mkImage {
  xdim : nat;
  ydim : nat;
  data : list T
}.
Arguments mkImage {T} xdim ydim data.
Arguments xdim {T} i.
Arguments ydim {T} i.
Arguments data {T} i.

(** [Image<T>(Xdim, Ydim)]: a new image, zero-filled. *)
Definition Image_new {R T} `{Elem R T} (Xdim Ydim : nat) : Image T :=
  mkImage Xdim Ydim (replicate (Ydim * Xdim) e_zero).

(** [img.data.initZeros()]. *)
Definition initZeros {R T} `{Elem R T} (img : Image T) : Image T :=
  mkImage (xdim img) (ydim img) (replicate (length (data img)) e_zero).

(** The place of pixel (y, x) in the row-major data. *)
Definition pixelIndex {T} (img : Image T) (y x : nat) : nat :=
  (y * xdim img + x)%nat.

(** [img(y,x)] read. Every read of the estimator is at y < ydim and
    x < xdim; outside the data (undefined in C++) the model reads zero. *)
Definition A2D_ELEM {R T} `{Elem R T} (img : Image T) (y x : nat) : T :=
  default e_zero (data img !! pixelIndex img y x).

(** [img(y,x) = v]. Outside the data the model writes nothing. *)
Definition A2D_SET {T} (img : Image T) (y x : nat) (v : T) : Image T :=
  mkImage (xdim img) (ydim img) (<[pixelIndex img y x := v]> (data img)).

(** [a += b] on images: the pixels of [b] are added to those of [a]. *)
Definition img_add {R T} `{Elem R T} (a b : Image T) : Image T :=
  mkImage (xdim a) (ydim a) (zip_with e_add (data a) (data b)).

(** Modelled from the spec: [ImageOp::linearCombination] (src/jaz/img_proc/
    image_op.h) is not under src/. [linearCombination(src0, src1, a, b, dest)]
    stores a * src0 + b * src1, pixel by pixel, in dest. *)
Definition linearCombination {R T} `{Elem R T} (src0 src1 : Image T) (a b : R) : Image T :=
  mkImage (xdim src0) (ydim src0)
    (zip_with (fun p q => e_add (e_scale a p) (e_scale b q)) (data src0) (data src1)).

(** [for (int y = 0; y < s; y++) for (int x = 0; x < sh; x++) body]. *)
Definition forPixels {A : Type} (s sh : nat) (body : nat -> nat -> A -> A) (a : A) : A :=
  foldl (fun a y => foldl (fun a x => body y x a) a (seq 0 sh)) a (seq 0 s).

(** [for] over a list with a body that may fail. *)
Fixpoint foldM {A B : Type} (f : A -> B -> result A) (a : A) (l : list B) : result A :=
  match l with
  | [] => Ok a
  | b :: l' => let* a' := f a b in foldM f a' l'
  end.

(** ** Metadata tables *)

(** The columns the estimator reads or writes, and any other column. *)
Inductive EMDLabel : Type :=
| EMDL_IMAGE_OPTICS_GROUP
| EMDL_IMAGE_BEAMTILT_X
| EMDL_IMAGE_BEAMTILT_Y
| EMDL_IMAGE_ODD_ZERNIKE_COEFFS
| EMDL_OTHER (name : string).

#[export] Instance EMDLabel_eq_dec : EqDecision EMDLabel.
Proof. solve_decision. Defined.

#[export] Instance EMDLabel_countable : Countable EMDLabel.
Proof.
  refine (inj_countable'
    (fun l => match l with
              | EMDL_IMAGE_OPTICS_GROUP => inl 0%nat
              | EMDL_IMAGE_BEAMTILT_X => inl 1%nat
              | EMDL_IMAGE_BEAMTILT_Y => inl 2%nat
              | EMDL_IMAGE_ODD_ZERNIKE_COEFFS => inl 3%nat
              | EMDL_OTHER name => inr name
              end)
    (fun e => match e with
              | inl 0%nat => EMDL_IMAGE_OPTICS_GROUP
              | inl 1%nat => EMDL_IMAGE_BEAMTILT_X
              | inl 2%nat => EMDL_IMAGE_BEAMTILT_Y
              | inl _ => EMDL_IMAGE_ODD_ZERNIKE_COEFFS
              | inr name => EMDL_OTHER name
              end) _).
  intros []; reflexivity.
Defined.

Inductive MetaDataValue : Type :=
| MDInt (z : Z)
| MDDouble (d : float)
| MDDoubleVector (v : list float)
| MDString (str : string).

(** Modelled from the spec: [MetaDataTable] (src/metadata_table.h) is not
    under src/. A table is the list of its objects (rows), an object the
    finite map from the labels it holds to their values. *)
Abbreviation MetaDataTable := (list (gmap EMDLabel MetaDataValue)).

Definition numberOfObjects (mdt : MetaDataTable) : nat := length mdt.

Definition getValue (label : EMDLabel) (objectID : nat) (mdt : MetaDataTable)
  : option MetaDataValue :=
  row ← mdt !! objectID; row !! label.

(** [mdt.setValue(label, value, objectID)] overwrites one value of one
    object; an object that is not in the table is an error. *)
Definition setValue (label : EMDLabel) (value : MetaDataValue) (objectID : nat)
    (mdt : MetaDataTable) : result MetaDataTable :=
  match mdt !! objectID with
  | Some row => Ok (<[objectID := <[label := value]> row]> mdt)
  | None => ReportError "MetaDataTable::setValue: objectID is out of range"
  end.

(** [mdt.getValue(EMDL_IMAGE_OPTICS_GROUP, og, p)]. *)
Definition optGroupOfObject (row : gmap EMDLabel MetaDataValue) : option Z :=
  match row !! EMDL_IMAGE_OPTICS_GROUP with
  | Some (MDInt og) => Some og
  | _ => None
  end.

Definition getOpticsGroup (mdt : MetaDataTable) (p : nat) : option Z :=
  row ← mdt !! p; optGroupOfObject row.

(** ** The observation model (src/jaz/obs_model.h) *)

(** The members the estimator reads; the vectors are indexed by optics
    group, counted from 0. The member [angpix] is [om_angpix] here, next to
    the estimator's own [angpix]. *)
Record ObservationModel : Type := mkObservationModel {
  opticsMdt : MetaDataTable;
  om_angpix : list float;
  lambda : list float;
  Cs : list float
}.

(** Modelled from the spec: the member functions below are declared in
    obs_model.h and defined in obs_model.cpp, which is not under src/; each
    follows the comment at its declaration. *)
Definition numberOfOpticsGroups (om : ObservationModel) : nat :=
  numberOfObjects (opticsMdt om).

Definition getPixelSize (om : ObservationModel) (opticsGroup : nat) : float :=
  default 0%float (om_angpix om !! opticsGroup).

(** The groups appear in the correct order: group g is object g-1 of
    [opticsMdt]. *)
Definition opticsGroupsSorted (om : ObservationModel) : bool :=
  bool_decide (Forall (fun ir => optGroupOfObject ir.2 = Some (Z.of_nat ir.1 + 1))
                 (zip (seq 0 (numberOfOpticsGroups om)) (opticsMdt om))).

(** The set of optics groups present in [partMdt]. *)
Definition getOptGroupsPresent (om : ObservationModel) (partMdt : MetaDataTable) : list Z :=
  remove_dups (omap optGroupOfObject partMdt).

Definition optGroupDefined (om : ObservationModel) (og : Z) : bool :=
  bool_decide (og ∈ omap optGroupOfObject (opticsMdt om)).

(** All optics groups used in [partMdt] that are not defined in [opticsMdt]. *)
Definition findUndefinedOptGroups (om : ObservationModel) (partMdt : MetaDataTable) : list Z :=
  List.filter (fun og => negb (optGroupDefined om og)) (getOptGroupsPresent om partMdt).

(** Modelled from the spec: [ReferenceMap] (src/jaz/reference_map.h) is not
    under src/. The estimator calls one member of it, the hollow weight
    image for an inner radius in pixels. *)
Record ReferenceMap (R : Type) : Type := mkReferenceMap {
  getHollowWeight : float -> Image R
}.
Arguments getHollowWeight {R} r kmin_px.

(** Modelled from the spec: [IOParser] and the text conversions (src/args.h)
    are not under src/. An option is looked up by its name and comes back
    converted; the default of the call applies when it is not given. *)
Record IOParser : Type := mkIOParser {
  optionDouble : string -> option float;
  optionInteger : string -> option Z
}.

(** ** The estimator *)

Record TiltEstimator (R : Type) : Type := mkTiltEstimator {
  kmin : float;
  aberr_n_max : Z;
  xring0 : float;
  xring1 : float;
  verb : Z;
  s : nat;
  sh : nat;
  nr_omp_threads : nat;
  debug : bool;
  diag : bool;
  outPath : string;
  reference : ReferenceMap R;
  obsModel : ObservationModel;
  angpix : float;
  ready : bool
}.
Arguments mkTiltEstimator {R}.
Arguments kmin {R} t.
Arguments aberr_n_max {R} t.
Arguments xring0 {R} t.
Arguments xring1 {R} t.
Arguments verb {R} t.
Arguments s {R} t.
Arguments sh {R} t.
Arguments nr_omp_threads {R} t.
Arguments debug {R} t.
Arguments diag {R} t.
Arguments outPath {R} t.
Arguments reference {R} t.
Arguments obsModel {R} t.
Arguments angpix {R} t.
Arguments ready {R} t.

(** [TiltEstimator::TiltEstimator()]: [ready] is false. The constructor
    leaves the other members as they are; the model zero-fills them and
    takes the two pointers as given. *)
Definition TiltEstimator_new {R} (reference : ReferenceMap R) (obsModel : ObservationModel)
  : TiltEstimator R :=
  mkTiltEstimator 0%float 0 0%float 0%float 0 0 0 0 false false ""
    reference obsModel 0%float false.

(** [TiltEstimator::read]. *)
Definition read {R} (est : TiltEstimator R) (parser : IOParser) : TiltEstimator R :=
  mkTiltEstimator
    (default 20.0%float (optionDouble parser "--kmin_tilt"))
    (default 0 (optionInteger parser "--odd_aberr_max_n"))
    (default (-1)%float (optionDouble parser "--xr0"))
    (default (-1)%float (optionDouble parser "--xr1"))
    (verb est) (s est) (sh est) (nr_omp_threads est) (debug est) (diag est)
    (outPath est) (reference est) (obsModel est) (angpix est) (ready est).

(** [TiltEstimator::init]. *)
Definition init {R} (est : TiltEstimator R)
    (verb' : Z) (s' : nat) (nr_omp_threads' : nat) (debug' diag' : bool)
    (outPath' : string) (reference' : ReferenceMap R) (obsModel' : ObservationModel)
  : TiltEstimator R :=
  mkTiltEstimator
    (kmin est) (aberr_n_max est) (xring0 est) (xring1 est)
    verb' s' (s' / 2 + 1)%nat nr_omp_threads' debug' diag'
    outPath' reference' obsModel' (getPixelSize obsModel' 0) true.

(** ** The file system *)

(** An .mrc file holds one real image; the file system maps the names of
    the files that exist to their contents. *)
Abbreviation FileSystem R := (gmap string (Image R)).

Definition exists_ {R} (fs : FileSystem R) (fn : string) : bool :=
  bool_decide (is_Some (fs !! fn)).

(** [img.read(fn)] of a file that exists. *)
Definition Image_read {R} (fs : FileSystem R) (fn : string) : Image R :=
  default (mkImage 0 0 []) (fs !! fn).

(** [img.write(fn)]. *)
Definition Image_write {R} (fs : FileSystem R) (fn : string) (img : Image R) : FileSystem R :=
  <[fn := img]> fs.

Definition realPart {R} (img : Image (Complex R)) : Image R :=
  mkImage (xdim img) (ydim img) (real <$> data img).

Definition imagPart {R} (img : Image (Complex R)) : Image R :=
  mkImage (xdim img) (ydim img) (imag <$> data img).

(** Modelled from the spec: [ComplexIO] (src/jaz/complex_io.h) is not under
    src/. A complex image is stored as two real images, its real and its
    imaginary part, in the files fnBase_real fnSuffix and fnBase_imag
    fnSuffix, the names [parametricFit] and [isFinished] test. The two
    files are written one after the other. *)
Definition ComplexIO_writes {R} (img : Image (Complex R)) (fnBase fnSuffix : string)
  : list (string * Image R) :=
  [ ((fnBase +:+ "_real") +:+ fnSuffix, realPart img);
    ((fnBase +:+ "_imag") +:+ fnSuffix, imagPart img) ].

Definition ComplexIO_read {R} (fs : FileSystem R) (fnBase fnSuffix : string)
  : Image (Complex R) :=
  let re := Image_read fs ((fnBase +:+ "_real") +:+ fnSuffix) in
  let im := Image_read fs ((fnBase +:+ "_imag") +:+ fnSuffix) in
  mkImage (xdim re) (ydim re) (zip_with mkComplex (data re) (data im)).

(** The file writes of a call, in program order, and the file systems a
    reader can find while they are carried out: one after each write. *)
Definition applyWrites {R} (fs : FileSystem R) (ops : list (string * Image R)) : FileSystem R :=
  foldl (fun fs op => Image_write fs op.1 op.2) fs ops.

Definition observableStates {R} (fs : FileSystem R) (ops : list (string * Image R))
  : list (FileSystem R) :=
  (fun n => applyWrites fs (take n ops)) <$> seq 0 (S (length ops)).

(** The three files of the checkpoint pair of one batch and one group. *)
Definition xyAccRealName (outRoot ogs : string) : string :=
  ((outRoot +:+ "_xyAcc_optics-class_") +:+ ogs) +:+ "_real.mrc".
Definition xyAccImagName (outRoot ogs : string) : string :=
  ((outRoot +:+ "_xyAcc_optics-class_") +:+ ogs) +:+ "_imag.mrc".
Definition wAccName (outRoot ogs : string) : string :=
  ((outRoot +:+ "_wAcc_optics-class_") +:+ ogs) +:+ ".mrc".

(** The test [parametricFit] and [isFinished] both make. *)
Definition checkpointExists {R} (fs : FileSystem R) (outRoot ogs : string) : bool :=
  exists_ fs (xyAccRealName outRoot ogs)
  && exists_ fs (xyAccImagName outRoot ogs)
  && exists_ fs (wAccName outRoot ogs).

(** ** Collaborators *)

(** What the estimator calls and src/ does not hold, taken as an interface:
    - [CTF] and [CTF::readByGroup] (src/ctf.h);
    - [CtfRefiner::getOutputFilenameRoot] (ctf_refiner.h);
    - [ObservationModel::angToPix], declared in obs_model.h;
    - [FilterHelper::getPhase] and [FilterHelper::multiply]
      (src/jaz/img_proc/filter_helper.h);
    - [contribution]: what [TiltHelper::updateTiltShift] computes from the
      predicted image, the observed image, the CTF and the pixel size
      before it adds it to the two accumulator images;
    - the fits of tilt_helper.h. Each returns what the call passes by
      address, the fitted image apart, which only goes to the image log.
      [extractTilt] is handed the coefficient vector and both tilts by
      name; the model lets it write all three. *)
Class Collaborators (R : Type) : Type := {
  CTF : Type;
  readByGroup : MetaDataTable -> ObservationModel -> nat -> CTF;
  getOutputFilenameRoot : MetaDataTable -> string -> string;
  angToPix : ObservationModel -> float -> nat -> nat -> float;
  getPhase : Image (Complex R) -> Image R;
  multiply : Image R -> Image R -> Image R;
  contribution :
    Image (Complex R) -> Image (Complex R) -> CTF -> float ->
    Image (Complex R) * Image R;
  fitTiltShift :
    Image R -> Image R -> float -> float -> float ->
    float * float * float * float;
  optimizeTilt :
    Image (Complex R) -> Image R -> float -> float -> float -> bool ->
    float -> float -> float -> float ->
    float * float * float * float;
  fitOddZernike :
    Image (Complex R) -> Image R -> float -> Z -> list float;
  optimiseOddZernike :
    Image (Complex R) -> Image R -> float -> Z -> list float -> list float;
  extractTilt :
    list float -> float -> float -> float -> float ->
    list float * float * float
}.

Section Estimator.

Context {R : Type} `{RFloat R} `{Collaborators R}.

(** Modelled from the spec: [TiltHelper::updateTiltShift] (tilt_helper.h)
    is not under src/. It adds the particle's contribution into the two
    accumulator images it is handed. *)
Definition updateTiltShift (pred obs : Image (Complex R)) (ctf : CTF) (angpix : float)
    (xyDest : Image (Complex R)) (wDest : Image R)
  : Image (Complex R) * Image R :=
  let c := contribution pred obs ctf angpix in
  (img_add xyDest c.1, img_add wDest c.2).

(** *** [TiltEstimator::processMicrograph] *)

(** [for (int i = 0; i < cc; i++) groupToIndex[optGroups[i]] = i;] *)
Fixpoint fillGroupToIndex (i : nat) (optGroups : list Z) (groupToIndex : list Z)
  : result (list Z) :=
  match optGroups with
  | [] => Ok groupToIndex
  | og :: rest =>
      let* groupToIndex' := vec_set groupToIndex og (Z.of_nat i) in
      fillGroupToIndex (S i) rest groupToIndex'
  end.

(** The two vectors of per-thread, per-group accumulators. *)
Definition Accumulators : Type := list (Image (Complex R)) * list (Image R).

Definition newAccumulators (est : TiltEstimator R) (cc : nat) : Accumulators :=
  (replicate (nr_omp_threads est * cc) (initZeros (Image_new (sh est) (s est))),
   replicate (nr_omp_threads est * cc) (initZeros (Image_new (sh est) (s est)))).

(** One iteration of the parallel loop: particle [p] on thread
    [threadnum]. *)
Definition particleStep (est : TiltEstimator R) (mdt : MetaDataTable)
    (obs pred : list (Image (Complex R))) (groupToIndex : list Z) (cc : nat)
    (acc : Accumulators) (pt : nat * nat) : result Accumulators :=
  let p := pt.1 in
  let threadnum := pt.2 in
  let ctf := readByGroup mdt (obsModel est) p in
  let* og := match getOpticsGroup mdt p with
             | Some og => Ok og
             | None => Undefined
             end in
  let* ci := vec_get groupToIndex og in
  let* predp := vec_get pred (Z.of_nat p) in
  let* obsp := vec_get obs (Z.of_nat p) in
  let idx := Z.of_nat cc * Z.of_nat threadnum + ci in
  let* xy := vec_get acc.1 idx in
  let* w := vec_get acc.2 idx in
  let upd := updateTiltShift predp obsp ctf (angpix est) xy w in
  let* xyAcc' := vec_set acc.1 idx upd.1 in
  let* wAcc' := vec_set acc.2 idx upd.2 in
  Ok (xyAcc', wAcc').

(** The sum over the threads of the accumulators of group index [ci]. *)
Definition sumThreads (est : TiltEstimator R) (cc ci : nat) (acc : Accumulators)
  : result (Image (Complex R) * Image R) :=
  foldM (fun (sums : Image (Complex R) * Image R) threadnum =>
           let idx := Z.of_nat cc * Z.of_nat threadnum + Z.of_nat ci in
           let* xy := vec_get acc.1 idx in
           let* w := vec_get acc.2 idx in
           Ok (linearCombination sums.1 xy rf_one rf_one,
               linearCombination sums.2 w rf_one rf_one))
        (Image_new (sh est) (s est), Image_new (sh est) (s est))
        (seq 0 (nr_omp_threads est)).

(** The three files written for group index [ci]. *)
Definition groupWrites (est : TiltEstimator R) (mdt : MetaDataTable)
    (optGroups : list Z) (cc : nat) (acc : Accumulators) (ci : nat)
  : result (list (string * Image R)) :=
  let* sums := sumThreads est cc ci acc in
  let outRoot := getOutputFilenameRoot mdt (outPath est) in
  let* og := vec_get optGroups (Z.of_nat ci) in
  let sts := string_of_int og in
  Ok (app (ComplexIO_writes sums.1 ((outRoot +:+ "_xyAcc_optics-class_") +:+ sts) ".mrc")
          [ (((outRoot +:+ "_wAcc_optics-class_") +:+ sts) +:+ ".mrc", sums.2) ]).

(** The state of the accumulators after the parallel loop has run along
    the schedule [sched]. *)
Definition accumulate (est : TiltEstimator R) (sched : list (nat * nat))
    (mdt : MetaDataTable) (obs pred : list (Image (Complex R)))
  : result Accumulators :=
  let optGroups := getOptGroupsPresent (obsModel est) mdt in
  let cc := length optGroups in
  let* groupToIndex :=
    fillGroupToIndex 0 optGroups
      (replicate (numberOfOpticsGroups (obsModel est) + 1) (-1)) in
  foldM (particleStep est mdt obs pred groupToIndex cc) (newAccumulators est cc) sched.

(** All file writes of one call, in program order. *)
Definition checkpointWrites (est : TiltEstimator R) (sched : list (nat * nat))
    (mdt : MetaDataTable) (obs pred : list (Image (Complex R)))
  : result (list (string * Image R)) :=
  let optGroups := getOptGroupsPresent (obsModel est) mdt in
  let cc := length optGroups in
  let* acc := accumulate est sched mdt obs pred in
  foldM (fun ops ci =>
           let* w := groupWrites est mdt optGroups cc acc ci in
           Ok (app ops w))
        [] (seq 0 cc).

Definition processMicrograph (est : TiltEstimator R) (sched : list (nat * nat))
    (g : Z) (mdt : MetaDataTable) (obs pred : list (Image (Complex R)))
    (fs : FileSystem R) : result (FileSystem R) :=
  if negb (ready est) then
    ReportError "ERROR: TiltEstimator::processMicrograph: TiltEstimator not initialized."
  else
    let* ops := checkpointWrites est sched mdt obs pred in
    Ok (applyWrites fs ops).

(** *** [TiltEstimator::parametricFit] *)

(** One round of the loop over the batches [mdts] for the group whose
    number is printed as [cns]: the checkpoint pair of batch [mdt] is
    added to the sums when its three files exist. *)
Definition mergeStep (est : TiltEstimator R) (fs : FileSystem R) (cns : string)
    (sums : Image (Complex R) * Image R * bool) (mdt : MetaDataTable)
  : Image (Complex R) * Image R * bool :=
  let outRoot := getOutputFilenameRoot mdt (outPath est) in
  if exists_ fs (((outRoot +:+ "_xyAcc_optics-class_") +:+ cns) +:+ "_real.mrc")
     && exists_ fs (((outRoot +:+ "_xyAcc_optics-class_") +:+ cns) +:+ "_imag.mrc")
     && exists_ fs (((outRoot +:+ "_wAcc_optics-class_") +:+ cns) +:+ ".mrc")
  then
    let wAcc := Image_read fs (((outRoot +:+ "_wAcc_optics-class_") +:+ cns) +:+ ".mrc") in
    let xyAcc := ComplexIO_read fs ((outRoot +:+ "_xyAcc_optics-class_") +:+ cns) ".mrc" in
    (img_add sums.1.1 xyAcc, img_add sums.1.2 wAcc, true)
  else sums.

(** [xyAccSum], [wAccSum] and [groupUsed[og]] after the loop over the
    batches. *)
Definition mergeCheckpoints (est : TiltEstimator R) (fs : FileSystem R) (cns : string)
    (mdts : list MetaDataTable) : Image (Complex R) * Image R * bool :=
  foldl (mergeStep est fs cns)
    (initZeros (Image_new (sh est) (s est)), initZeros (Image_new (sh est) (s est)), false)
    mdts.

(** The pixel radius [rp] and the distance [ra] of the exclusion-ring
    test at pixel (y, x). *)
Definition ringRadius (est : TiltEstimator R) (y x : nat) : float :=
  let xx := double_of_int (Z.of_nat x) in
  let yy := double_of_int (if (y <=? sh est)%nat
                           then Z.of_nat y
                           else Z.of_nat y - Z.of_nat (s est)) in
  PrimFloat.sqrt (PrimFloat.add (PrimFloat.mul xx xx) (PrimFloat.mul yy yy)).

Definition ringDistance (est : TiltEstimator R) (y x : nat) : float :=
  let rp := ringRadius est y x in
  PrimFloat.div (PrimFloat.mul (double_of_int (Z.of_nat (s est))) (angpix est)) rp.

(** [ra > xring0 && ra <= xring1]. *)
Definition inRing (est : TiltEstimator R) (ra : float) : bool :=
  PrimFloat.ltb (xring0 est) ra && PrimFloat.leb ra (xring1 est).

(** The exclusion-ring block, [if (xring1 > 0.0) { ... }]. *)
Definition exclusionRing (est : TiltEstimator R) (wgh : Image R) : Image R :=
  if PrimFloat.ltb 0%float (xring1 est) then
    forPixels (s est) (sh est)
      (fun y x wgh =>
         let ra := ringDistance est y x in
         if inRing est ra then A2D_SET wgh y x rf_zero else wgh)
      wgh
  else wgh.

(** The loop that fills [xyNrm]. *)
Definition normalise (est : TiltEstimator R)
    (xyAccSum : Image (Complex R)) (wAccSum : Image R) : Image (Complex R) :=
  forPixels (s est) (sh est)
    (fun y x xyNrm =>
       A2D_SET xyNrm y x
         (if rf_gt (A2D_ELEM wAccSum y x) rf_zero
          then complex_div (A2D_ELEM xyAccSum y x) (A2D_ELEM wAccSum y x)
          else mkComplex rf_zero rf_zero))
    (Image_new (sh est) (s est)).

(** What the fit of one group computes from the merged accumulators. *)
Definition fitMask (est : TiltEstimator R) (og : nat) (wAccSum : Image R) : Image R :=
  let kmin_px := angToPix (obsModel est) (kmin est) (s est) og in
  let wgh0 := getHollowWeight (reference est) kmin_px in
  exclusionRing est (multiply wAccSum wgh0).

(** The planar fit, taken when [aberr_n_max < 3]: the tilt that
    [optimizeTilt] returns when started from the result of
    [fitTiltShift]. *)
Definition planarFit (est : TiltEstimator R) (Cs lambda : float)
    (phase wgh : Image R) (xyNrm : Image (Complex R)) : float * float :=
  let '(shift_x, shift_y, tilt_x, tilt_y) :=
    fitTiltShift phase wgh Cs lambda (angpix est) in
  let '(shift_x, shift_y, tilt_x, tilt_y) :=
    optimizeTilt xyNrm wgh Cs lambda (angpix est) false
      shift_x shift_y tilt_x tilt_y in
  (tilt_x, tilt_y).

(** The polynomial fit, taken otherwise: the coefficients that
    [optimiseOddZernike] returns when started from the result of
    [fitOddZernike], and the tilt [extractTilt] reads off them. *)
Definition zernikeFit (est : TiltEstimator R) (Cs lambda : float)
    (wgh : Image R) (xyNrm : Image (Complex R)) : list float * float * float :=
  let Zernike_coeffs := fitOddZernike xyNrm wgh (angpix est) (aberr_n_max est) in
  let Zernike_coeffs_opt :=
    optimiseOddZernike xyNrm wgh (angpix est) (aberr_n_max est) Zernike_coeffs in
  extractTilt Zernike_coeffs_opt 0%float 0%float Cs lambda.

(** One round of the loop over the optics groups, [og] counted from 0.
    The images written to the image log are side outputs and left out. *)
Definition fitGroup (est : TiltEstimator R) (fs : FileSystem R)
    (mdts : list MetaDataTable) (optOut : MetaDataTable) (og : nat)
  : result MetaDataTable :=
  let* Cs := vec_get (Cs (obsModel est)) (Z.of_nat og) in
  let* lambda := vec_get (lambda (obsModel est)) (Z.of_nat og) in
  let cns := string_of_int (Z.of_nat og + 1) in
  let '(xyAccSum, wAccSum, groupUsed) := mergeCheckpoints est fs cns mdts in
  if negb groupUsed then Ok optOut
  else
    let phase := getPhase xyAccSum in
    let wgh := fitMask est og wAccSum in
    let xyNrm := normalise est xyAccSum wAccSum in
    if aberr_n_max est <? 3 then
      let '(tilt_x, tilt_y) := planarFit est Cs lambda phase wgh xyNrm in
      let* optOut := setValue EMDL_IMAGE_BEAMTILT_X (MDDouble tilt_x) og optOut in
      setValue EMDL_IMAGE_BEAMTILT_Y (MDDouble tilt_y) og optOut
    else
      let '(Zernike_coeffs_opt, tilt_x, tilt_y) := zernikeFit est Cs lambda wgh xyNrm in
      let* optOut := setValue EMDL_IMAGE_BEAMTILT_X (MDDouble tilt_x) og optOut in
      let* optOut := setValue EMDL_IMAGE_BEAMTILT_Y (MDDouble tilt_y) og optOut in
      setValue EMDL_IMAGE_ODD_ZERNIKE_COEFFS (MDDoubleVector Zernike_coeffs_opt) og optOut.

Definition parametricFit (est : TiltEstimator R) (fs : FileSystem R)
    (mdts : list MetaDataTable) (optOut : MetaDataTable) : result MetaDataTable :=
  if negb (ready est) then
    ReportError "ERROR: TiltEstimator::parametricFit: TiltEstimator not initialized."
  else
    foldM (fitGroup est fs mdts) optOut (seq 0 (numberOfOpticsGroups (obsModel est))).

(** *** [TiltEstimator::isFinished] *)

(** The loop over the groups present, left at the first group with a
    file missing. *)
Fixpoint allGroupsDone (fs : FileSystem R) (outRoot : string) (ogp : list Z) : bool :=
  match ogp with
  | [] => true
  | og :: rest =>
      let ogs := string_of_int og in
      if negb (exists_ fs (((outRoot +:+ "_xyAcc_optics-class_") +:+ ogs) +:+ "_real.mrc"))
         || negb (exists_ fs (((outRoot +:+ "_xyAcc_optics-class_") +:+ ogs) +:+ "_imag.mrc"))
         || negb (exists_ fs (((outRoot +:+ "_wAcc_optics-class_") +:+ ogs) +:+ ".mrc"))
      then false
      else allGroupsDone fs outRoot rest
  end.

Definition isFinished (est : TiltEstimator R) (fs : FileSystem R) (mdt : MetaDataTable)
  : result bool :=
  if negb (ready est) then
    ReportError "ERROR: TiltEstimator::isFinished: TiltEstimator not initialized."
  else
    let outRoot := getOutputFilenameRoot mdt (outPath est) in
    Ok (allGroupsDone fs outRoot (getOptGroupsPresent (obsModel est) mdt)).

End Estimator.

(** ** Notions the statements use *)

#[export] Instance Image_inhabited {T} : Inhabited (Image T) := populate (mkImage 0 0 []).

(** The pixels of an s x sh image in the order the two loops visit them. *)
Definition pixelsInOrder (s sh : nat) : list (nat * nat) :=
  y ← seq 0 s; (fun x => (y, x)) <$> seq 0 sh.

(** A loop body that stores [v y x] at the pixels where [c y x] holds and
    leaves the others alone. *)
Definition storeWhere {T} (c : nat -> nat -> bool) (v : nat -> nat -> T)
    (y x : nat) (img : Image T) : Image T :=
  if c y x then A2D_SET img y x (v y x) else img.

(** An outcome that is not a reported error. *)
Definition noReport {A} (r : result A) : Prop := forall msg, r ≠ ReportError msg.

(** The estimator with another number of threads. *)
Definition withThreads {R} (est : TiltEstimator R) (n : nat) : TiltEstimator R :=
  mkTiltEstimator (kmin est) (aberr_n_max est) (xring0 est) (xring1 est)
    (verb est) (s est) (sh est) n (debug est) (diag est)
    (outPath est) (reference est) (obsModel est) (angpix est) (ready est).

(** The three numbers a pixel of a checkpoint pair holds. *)
Inductive Channel : Type := ChReal | ChImag | ChWeight.

Section Notions.

Context {R : Type} `{RFloat R} `{Collaborators R}.

(** Batch [mdt] has a complete checkpoint pair for the group printed as
  [cns]: the test of [mergeStep]. *)
Definition batchHasPair (est : TiltEstimator R) (fs : FileSystem R) (cns : string)
  (mdt : MetaDataTable) : bool :=
checkpointExists fs (getOutputFilenameRoot mdt (outPath est)) cns.

(** [groupUsed[og]] after the loop over the batches. *)
Definition groupUsed (est : TiltEstimator R) (fs : FileSystem R)
  (mdts : list MetaDataTable) (og : nat) : bool :=
existsb (batchHasPair est fs (string_of_int (Z.of_nat og + 1))) mdts.

(** The values [parametricFit] stores in the row of a group, in the order
  of the [setValue] calls. *)
Definition fittedValues (est : TiltEstimator R) (og : nat) (Cs lambda : float)
  (xyAccSum : Image (Complex R)) (wAccSum : Image R)
: list (EMDLabel * MetaDataValue) :=
let phase := getPhase xyAccSum in
let wgh := fitMask est og wAccSum in
let xyNrm := normalise est xyAccSum wAccSum in
if aberr_n_max est <? 3 then
  let tilt := planarFit est Cs lambda phase wgh xyNrm in
  [ (EMDL_IMAGE_BEAMTILT_X, MDDouble tilt.1);
    (EMDL_IMAGE_BEAMTILT_Y, MDDouble tilt.2) ]
else
  let fit := zernikeFit est Cs lambda wgh xyNrm in
  [ (EMDL_IMAGE_BEAMTILT_X, MDDouble fit.1.2);
    (EMDL_IMAGE_BEAMTILT_Y, MDDouble fit.2);
    (EMDL_IMAGE_ODD_ZERNIKE_COEFFS, MDDoubleVector fit.1.1) ].

(** The columns [parametricFit] writes. *)
Definition fittedLabel (est : TiltEstimator R) (label : EMDLabel) : bool :=
match label with
| EMDL_IMAGE_BEAMTILT_X | EMDL_IMAGE_BEAMTILT_Y => true
| EMDL_IMAGE_ODD_ZERNIKE_COEFFS => 3 <=? aberr_n_max est
| _ => false
end.

Definition storeValues (og : nat) (values : list (EMDLabel * MetaDataValue))
  (optOut : MetaDataTable) : result MetaDataTable :=
foldM (fun optOut lv => setValue lv.1 lv.2 og optOut) optOut values.

(** The observation model holds one value of [Cs] and of [lambda] per
  optics group, and the output table has a row for every group. *)
Definition opticsComplete (est : TiltEstimator R) (optOut : MetaDataTable) : Prop :=
length (Cs (obsModel est)) = numberOfOpticsGroups (obsModel est)
/\ length (lambda (obsModel est)) = numberOfOpticsGroups (obsModel est)
/\ (numberOfOpticsGroups (obsModel est) <= length optOut)%nat.

(** The pair of images particle [p] of the batch contributes. *)
Definition particleContribution (est : TiltEstimator R) (mdt : MetaDataTable)
  (obs pred : list (Image (Complex R))) (p : nat) : Image (Complex R) * Image R :=
contribution (pred !!! p) (obs !!! p) (readByGroup mdt (obsModel est) p) (angpix est).

Definition addContribution (sums c : Image (Complex R) * Image R)
: Image (Complex R) * Image R :=
(img_add sums.1 c.1, img_add sums.2 c.2).

(** The contributions of the particles of group [og], in the order of
  the table. *)
Definition contributionsOf (est : TiltEstimator R) (mdt : MetaDataTable)
  (obs pred : list (Image (Complex R))) (og : Z) : list (Image (Complex R) * Image R) :=
particleContribution est mdt obs pred
  <$> filter (fun p => getOpticsGroup mdt p = Some og) (seq 0 (numberOfObjects mdt)).

(** The pairs the merge loop of [parametricFit] reads for the group
  printed as [cns]: those of the batches that have one, in the order
  of the batches. *)
Definition pairsRead (est : TiltEstimator R) (fs : FileSystem R) (cns : string)
  (mdts : list MetaDataTable) : list (Image (Complex R) * Image R) :=
(fun mdt =>
   let outRoot := getOutputFilenameRoot mdt (outPath est) in
   (ComplexIO_read fs ((outRoot +:+ "_xyAcc_optics-class_") +:+ cns) ".mrc",
    Image_read fs (wAccName outRoot cns)))
  <$> List.filter (batchHasPair est fs cns) mdts.

(** *** Sums up to order and brackets *)

(** Number [i] of a pair in one of its channels, if the pair has a pixel
  [i]. *)
Definition pixel (ch : Channel) (c : Image (Complex R) * Image R) (i : nat) : option R :=
match ch with
| ChReal => real <$> data c.1 !! i
| ChImag => imag <$> data c.1 !! i
| ChWeight => data c.2 !! i
end.

(** A sum of pairs written out: which pairs are added, in which order and
  with which brackets. [SLin a b] is [1.0 * a + 1.0 * b], the step of
  the sum over the threads. *)
Inductive SumExpr : Type :=
| SZero
| STerm (c : Image (Complex R) * Image R)
| SAdd (a b : SumExpr)
| SLin (a b : SumExpr).

Fixpoint terms (e : SumExpr) : list (Image (Complex R) * Image R) :=
match e with
| SZero => []
| STerm c => [c]
| SAdd a b | SLin a b => terms a ++ terms b
end.

(** Number [i] of the sum, computed from the numbers of the terms with
  the addition and the multiplication of [RFLOAT] alone; [n] is the
  number of pixels of the zero image. There is no value where a term
  or the zero image has no pixel [i]. *)
Fixpoint valueAt (n : nat) (ch : Channel) (i : nat) (e : SumExpr) : option R :=
match e with
| SZero => if decide (i < n)%nat then Some rf_zero else None
| STerm c => pixel ch c i
| SAdd a b =>
    match valueAt n ch i a, valueAt n ch i b with
    | Some x, Some y => Some (rf_add x y)
    | _, _ => None
    end
| SLin a b =>
    match valueAt n ch i a, valueAt n ch i b with
    | Some x, Some y => Some (rf_add (rf_mul rf_one x) (rf_mul rf_one y))
    | _, _ => None
    end
end.

(** The pair [sums] is the sum [e], number by number, in two images of
  the size of the accumulators. *)
Definition evaluates (est : TiltEstimator R) (e : SumExpr)
  (sums : Image (Complex R) * Image R) : Prop :=
xdim sums.1 = sh est /\ ydim sums.1 = s est
/\ xdim sums.2 = sh est /\ ydim sums.2 = s est
/\ forall ch i, pixel ch sums i = valueAt (s est * sh est) ch i e.

(** The number of additions of a sum. *)
Fixpoint additions (e : SumExpr) : nat :=
match e with
| SZero | STerm _ => 0
| SAdd a b | SLin a b => S (additions a + additions b)
end.

(** [sums] is a sum of the pairs [cs], each taken once, in some order
  and with some brackets, formed with [k] additions. *)
Definition sumUpToOrder (est : TiltEstimator R) (k : nat)
  (cs : list (Image (Complex R) * Image R)) (sums : Image (Complex R) * Image R) : Prop :=
exists e, terms e ≡ₚ cs /\ additions e = k /\ evaluates est e sums.

(** Numbers on which sums do not round: [v] takes the integers up to [B]
  in absolute value to values of [RFLOAT] that are added without
  rounding and that the factor 1.0 leaves alone. *)
Definition exactUpTo (v : Z -> R) (B : Z) : Prop :=
v 0 = rf_zero
/\ (forall a b, Z.abs a <= B -> Z.abs b <= B -> Z.abs (a + b) <= B ->
      rf_add (v a) (v b) = v (a + b))
/\ (forall a, Z.abs a <= B -> rf_mul rf_one (v a) = v a).

(** The three files of a checkpoint pair, in the order they are written. *)
Definition checkpointFiles (outRoot : string) (og : Z)
  (sums : Image (Complex R) * Image R) : list (string * Image R) :=
[ (xyAccRealName outRoot (string_of_int og), realPart sums.1);
  (xyAccImagName outRoot (string_of_int og), imagPart sums.1);
  (wAccName outRoot (string_of_int og), sums.2) ].

(** A batch the loops of [processMicrograph] can index: every particle has
  an optics group, an observed and a predicted image, and the groups
  present are numbers from 0 to the number of optics groups. *)
Definition batchIndexable (est : TiltEstimator R) (mdt : MetaDataTable)
  (obs pred : list (Image (Complex R))) : Prop :=
(forall p, (p < numberOfObjects mdt)%nat -> is_Some (getOpticsGroup mdt p))
/\ (numberOfObjects mdt <= length obs)%nat
/\ (numberOfObjects mdt <= length pred)%nat
/\ Forall (fun og => 0 <= og <= Z.of_nat (numberOfOpticsGroups (obsModel est)))
     (getOptGroupsPresent (obsModel est) mdt).

(** A schedule of the parallel loop: every particle of the batch is
  processed once, by one of the [nr_omp_threads] threads. *)
Definition validSchedule (est : TiltEstimator R) (mdt : MetaDataTable)
  (sched : list (nat * nat)) : Prop :=
sched.*1 ≡ₚ seq 0 (numberOfObjects mdt)
/\ Forall (fun pt => (pt.2 < nr_omp_threads est)%nat) sched.

(** An iteration (particle, thread) whose accesses are within bounds. *)
Definition runnable (est : TiltEstimator R) (mdt : MetaDataTable)
  (obs pred : list (Image (Complex R))) (pt : nat * nat) : Prop :=
(pt.2 < nr_omp_threads est)%nat
/\ (pt.1 < length pred)%nat /\ (pt.1 < length obs)%nat
/\ is_Some (getOpticsGroup mdt pt.1).

(** [groupToIndex] maps every group present to its position among the
  groups present. *)
Definition indexed (est : TiltEstimator R) (mdt : MetaDataTable)
  (groupToIndex : list Z) : Prop :=
forall ci og, getOptGroupsPresent (obsModel est) mdt !! ci = Some og ->
  0 <= og /\ groupToIndex !! Z.to_nat og = Some (Z.of_nat ci).

(** The pair of accumulator images at one place of the two vectors. *)
Definition slot (acc : @Accumulators R) (idx : nat) : Image (Complex R) * Image R :=
(acc.1 !!! idx, acc.2 !!! idx).

(** The entries of a schedule that thread [t] runs for group [og]. *)
Definition slotEntries (mdt : MetaDataTable) (t : nat) (og : Z)
  (sched : list (nat * nat)) : list (nat * nat) :=
filter (fun pt => pt.2 = t /\ getOpticsGroup mdt pt.1 = Some og) sched.

(** The sums over the threads, read off the accumulators. *)
Definition mergedSums (est : TiltEstimator R) (cc ci : nat) (acc : @Accumulators R)
: Image (Complex R) * Image R :=
foldl (fun sums threadnum =>
         (linearCombination sums.1 (slot acc (cc * threadnum + ci)).1 rf_one rf_one,
          linearCombination sums.2 (slot acc (cc * threadnum + ci)).2 rf_one rf_one))
  (Image_new (sh est) (s est), Image_new (sh est) (s est))
  (seq 0 (nr_omp_threads est)).

End Notions.

(** ** Notions of the further statements *)

(** The characters a printed [int] is made of. *)
Definition decimalChars : list ascii := list_ascii_of_string "-0123456789".

(** The file systems a reader can find while the files [ops] are written
    one after the other under their final names: the state after each
    write and, during each write, the state in which the file being
    written is there with a content [part] that is not yet its own. *)
Definition statesInPlace {R} (fs : FileSystem R) (ops : list (string * Image R))
    (st : FileSystem R) : Prop :=
  st ∈ observableStates fs ops
  \/ exists n fn img part,
       ops !! n = Some (fn, img) /\ st = <[fn := part]> (applyWrites fs (take n ops)).

(** ** [double] in numbers *)

(** A finite [double] in units of 2^-1074, the smallest positive one:
    the integer [k] stands for k * 2^-1074. Infinities and NaN have no
    such number. *)
Definition ulps (x : SpecFloat.spec_float) : option Z :=
  match x with
  | SpecFloat.S754_zero _ => Some 0
  | SpecFloat.S754_finite s m e => Some (SpecFloat.cond_Zopp s (Z.pos m * 2 ^ (e + 1074)))
  | _ => None
  end.

Definition ulpsOf (x : float) : option Z := ulps (Prim2SF x).

(** The second half of [SpecFloat.binary_round_aux]: what becomes of
    the rounded mantissa. *)
Definition finish (s : bool) (q : Z) (e : Z) : SpecFloat.spec_float :=
  let '(mrs, e') := SpecFloat.shr_fexp prec emax q e SpecFloat.loc_Exact in
  match SpecFloat.shr_m mrs with
  | Z0 => SpecFloat.S754_zero s
  | Zpos m => if e' <=? emax - prec then SpecFloat.S754_finite s m e'
              else SpecFloat.S754_infinity s
  | Zneg _ => SpecFloat.S754_nan
  end.

(** ** A small run *)

(** Two optics groups, a batch of three particles on a 4 x 4 box (so the
    half-spectrum is 3 wide and 4 high), two threads. The collaborators
    are simple stand-ins that depend on their arguments. *)

Definition exampleCollaborators {R} `{RFloat R} (tilt : R -> float) : Collaborators R := {|
  CTF := unit;
  readByGroup := fun _ _ _ => tt;
  getOutputFilenameRoot := fun mdt outPath =>
    outPath +:+ match getValue (EMDL_OTHER "rlnMicrographName") 0 mdt with
                | Some (MDString name) => name
                | _ => ""
                end;
  angToPix := fun om a s og =>
    PrimFloat.div (PrimFloat.mul (double_of_int (Z.of_nat s)) (getPixelSize om og)) a;
  getPhase := realPart;
  multiply := fun a b => mkImage (xdim a) (ydim a) (zip_with rf_mul (data a) (data b));
  contribution := fun pred obs _ _ => (obs, realPart pred);
  fitTiltShift := fun phase wgh Cs lambda angpix =>
    (0%float, 0%float, tilt (A2D_ELEM phase 0 1), tilt (A2D_ELEM wgh 1 0));
  optimizeTilt := fun xyNrm wgh Cs lambda angpix _ sx sy tx ty =>
    (sx, sy, PrimFloat.add tx 1, PrimFloat.add ty (tilt (real (A2D_ELEM xyNrm 1 1))));
  fitOddZernike := fun _ wgh _ n => [1%float; 2%float; tilt (A2D_ELEM wgh 0 1)];
  optimiseOddZernike := fun _ _ _ _ c => (fun v => PrimFloat.mul v 2) <$> c;
  extractTilt := fun c tx ty Cs lambda => (c, default tx (c !! 0%nat), default ty (c !! 1%nat))
|}.

#[export] Instance doubleCollaborators : Collaborators float :=
  exampleCollaborators (fun v => v).

Definition opticsRow (og : Z) : gmap EMDLabel MetaDataValue :=
  {[ EMDL_IMAGE_OPTICS_GROUP := MDInt og;
     EMDL_OTHER "rlnVoltage" := MDDouble 300%float ]}.

Definition particleRow (og : Z) : gmap EMDLabel MetaDataValue :=
  {[ EMDL_IMAGE_OPTICS_GROUP := MDInt og;
     EMDL_OTHER "rlnMicrographName" := MDString "mic1" ]}.

Definition exampleOptics : ObservationModel :=
  mkObservationModel [opticsRow 1; opticsRow 2]
    [1.5%float; 1.5%float] [0.5%float; 0.5%float] [2.5%float; 2.5%float].

Definition exampleReference {R} `{RFloat R} : ReferenceMap R :=
  mkReferenceMap R (fun _ => mkImage 3 4 (replicate 12 rf_one)).

Definition noOptions : IOParser := mkIOParser (fun _ => None) (fun _ => None).

Definition ringOptions : IOParser :=
  mkIOParser (fun name => if String.eqb name "--xr0" then Some 3.5%float
                          else if String.eqb name "--xr1" then Some 5%float
                          else None)
             (fun _ => None).

Definition zernikeOptions : IOParser :=
  mkIOParser (fun _ => None)
             (fun name => if String.eqb name "--odd_aberr_max_n" then Some 3 else None).

Definition exampleEstimatorWith {R} `{RFloat R} (parser : IOParser) : TiltEstimator R :=
  init (read (TiltEstimator_new exampleReference exampleOptics) parser)
    1 4 2 false false "out/" exampleReference exampleOptics.

Definition exampleEstimator : TiltEstimator float := exampleEstimatorWith noOptions.
Definition ringEstimator : TiltEstimator float := exampleEstimatorWith ringOptions.
Definition zernikeEstimator : TiltEstimator float := exampleEstimatorWith zernikeOptions.

Definition exampleBatch : MetaDataTable := [particleRow 2; particleRow 1; particleRow 2].

(** A batch with a particle of group 0, and one with a particle of group
    7: neither group is defined in [exampleOptics]. *)
Definition batchOfGroup0 : MetaDataTable := [particleRow 0].
Definition batchOfGroup7 : MetaDataTable := [particleRow 7].

(** The image whose pixel number k holds [of_int (k + n)] + i. *)
Definition rampImage {R} `{RFloat R} (of_int : Z -> R) (n : Z) : Image (Complex R) :=
  mkImage 3 4 ((fun k => mkComplex (of_int (Z.of_nat k + n)) rf_one) <$> seq 0 12).

Definition exampleObs : list (Image (Complex float)) :=
  [rampImage double_of_int 1; rampImage double_of_int 2; rampImage double_of_int 3].
Definition examplePred : list (Image (Complex float)) :=
  [rampImage double_of_int 2; rampImage double_of_int 4; rampImage double_of_int 2].

(** Particle 2 first, on thread 1; then particle 0 on thread 0 and
    particle 1 on thread 1. *)
Definition exampleSchedule : list (nat * nat) := [(2, 1); (0, 0); (1, 1)]%nat.

Definition exampleWrites : list (string * Image float) :=
  Eval vm_compute in
  match checkpointWrites exampleEstimator exampleSchedule exampleBatch exampleObs examplePred with
  | Ok ops => ops
  | _ => []
  end.

Definition exampleFiles : FileSystem float :=
  Eval vm_compute in applyWrites ∅ exampleWrites.

Definition exampleFitted : MetaDataTable :=
  Eval vm_compute in
  match parametricFit exampleEstimator exampleFiles [exampleBatch] (opticsMdt exampleOptics) with
  | Ok optOut => optOut
  | _ => []
  end.

Definition zernikeFitted : MetaDataTable :=
  Eval vm_compute in
  match parametricFit zernikeEstimator exampleFiles [exampleBatch] (opticsMdt exampleOptics) with
  | Ok optOut => optOut
  | _ => []
  end.

(** A weight image with zeros in its first row. *)
Definition exampleWeight : Image float :=
  mkImage 3 4 [0; 0; 0; 2; 2; 2; 4; 4; 4; 8; 8; 8]%float.

Definition group0Files : FileSystem float :=
  Eval vm_compute in
  match processMicrograph exampleEstimator [(0, 0)]%nat 0 batchOfGroup0
          exampleObs examplePred ∅ with
  | Ok fs => fs
  | _ => ∅
  end.

(** The estimator with a ring whose end radius is infinite. *)
Definition openRingEstimator : TiltEstimator float :=
  exampleEstimatorWith
    (mkIOParser (fun name => if String.eqb name "--xr1" then Some infinity else None)
                (fun _ => None)).

(** A weight image without zeros. *)
Definition positiveWeight : Image float :=
  mkImage 3 4 ((fun k => double_of_int (Z.of_nat k + 1)) <$> seq 0 12).

(** Three batches with a pair of group 1 each, whose weights are 1, 1e16
    and -1e16 in every pixel. *)
Definition namedBatch (name : string) : MetaDataTable :=
  [ {[ EMDL_IMAGE_OPTICS_GROUP := MDInt 1;
       EMDL_OTHER "rlnMicrographName" := MDString name ]} ].

Definition constantPair (x : float) : Image (Complex float) * Image float :=
  (mkImage 3 4 (replicate 12 (mkComplex x x)), mkImage 3 4 (replicate 12 x)).

Definition roundingFiles : FileSystem float :=
  Eval vm_compute in
  applyWrites ∅
    (checkpointFiles "out/a" 1 (constantPair 1)
       ++ checkpointFiles "out/b" 1 (constantPair 1e16)
       ++ checkpointFiles "out/c" 1 (constantPair (-1e16)))%list.

(** The files of the small run after a second batch, the one with a
    particle of group 0, has been processed as well. *)
Definition exampleFilesAfter : FileSystem float :=
  Eval vm_compute in
  match processMicrograph exampleEstimator [(0, 0)]%nat 1 batchOfGroup0
          exampleObs examplePred exampleFiles with
  | Ok fs => fs
  | _ => ∅
  end.

(** * Conversion of movies to TIFF: [convert_to_tiff] (src/unnamed/part_000)

    A shallow embedding of the class [convert_to_tiff]: [read],
    [write_tiff_one_page], [estimate], [decide_filter], [unnormalise],
    [only_compress], [checkMRCtype], the part of [initialise] that sets up
    the gain, and [processOneMovie].

    Conventions, besides those above.
    - [float] is IEEE binary32: a [spec_float] with the operations of
      precision 24 and exponent bound 128. A [float] that is compared with a
      [double] constant is first widened to binary64 (53, 1024).
    - [short] and [int] values are [Z]; [defects()++] on a [short] wraps at
      16 bits, and the conversion of a [float] to [int] is [Undefined] when
      the value is no number or outside the 32 bits.
    - A template is embedded at the types the program instantiates it at:
      [unnormalise] at [float], [only_compress] at [short] and [char],
      [write_tiff_one_page] at the three.
    - What the program reads from files goes through an interface, [Env];
      what it writes is a list of file operations in program order. *)

Module ConvertToTiff.

Import SpecFloat.

(** ** Numbers *)

Definition f32_prec : Z := 24.
Definition f32_emax : Z := 128.

Definition f32_of_int (z : Z) : spec_float := binary_normalize f32_prec f32_emax z 0 false.
Definition f32_mul (a b : spec_float) : spec_float := SFmul f32_prec f32_emax a b.
Definition f32_div (a b : spec_float) : spec_float := SFdiv f32_prec f32_emax a b.
Definition f32_sub (a b : spec_float) : spec_float := SFsub f32_prec f32_emax a b.

Definition f32_zero : spec_float := S754_zero false.

(** A [double] rounded to [float], and a [float] widened to [double]. *)
Definition f32_of_double (d : spec_float) : spec_float :=
  match d with
  | S754_finite s m e => binary_round f32_prec f32_emax s m e
  | _ => d
  end.

Definition double_of_f32 (x : spec_float) : spec_float :=
  match x with
  | S754_finite s m e => binary_round 53 1024 s m e
  | _ => x
  end.

(** The [double] constants [0.0001], [999.9] and [1.0]. *)
Definition double_0_0001 : spec_float := S754_finite false 7378697629483821 (-66).
Definition double_999_9 : spec_float := S754_finite false 8795213412905779 (-43).
Definition double_1_0 : spec_float := S754_finite false 4503599627370496 (-52).

(** [round(x)]: the nearest integer, halves away from zero. *)
Definition round_half_away (x : spec_float) : option Z :=
  match x with
  | S754_zero _ => Some 0
  | S754_finite s m e =>
      let mag := if 0 <=? e then Z.pos m * 2 ^ e
                 else (2 * Z.pos m + 2 ^ (- e)) / (2 * 2 ^ (- e)) in
      Some (if s then - mag else mag)
  | _ => None
  end.

Definition INT_MIN : Z := - 2 ^ 31.
Definition INT_MAX : Z := 2 ^ 31 - 1.

(** [(int)round(x)]. *)
Definition int_of_round (x : spec_float) : result Z :=
  match round_half_away x with
  | Some z => if (INT_MIN <=? z) && (z <=? INT_MAX) then Ok z else Undefined
  | None => Undefined
  end.

(** A [short] after an arithmetic step. *)
Definition wrap16 (z : Z) : Z := (z + 32768) mod 65536 - 32768.

(** [fabs(expected - val) > 0.0001]. *)
Definition mismatch (expected val : spec_float) : bool :=
  SFltb double_0_0001 (double_of_f32 (SFabs (f32_sub expected val))).

(** ** TIFF pages *)

(** The types of the pixels of a page. *)
Inductive PixelType : Type := T_float | T_short | T_char.

Inductive Pixel : Type :=
| PixelFloat (f : spec_float)
| PixelInt (z : Z).

Inductive SampleFormat : Type := SAMPLEFORMAT_UINT | SAMPLEFORMAT_IEEEFP.

Inductive Compression : Type := COMPRESSION_NONE | COMPRESSION_LZW | COMPRESSION_DEFLATE.

#[export] Instance Compression_eq_dec : EqDecision Compression.
Proof. solve_decision. Defined.

(** libtiff (tiffio.h) is outside the repository. A page (a TIFF
    directory) is modelled as the fields the program sets that are not
    the same for all pages, and its scanlines from row 0 on. *)
Record Page : Type := mkPage {
  p_imageWidth : nat;
  p_imageLength : nat;
  p_rowsPerStrip : nat;
  p_bitsPerSample : Z;
  p_sampleFormat : SampleFormat;
  p_compression : Compression;
  p_zipQuality : option Z;
  p_scanlines : list (list Pixel)
}.

(** ** The object *)

Record convert_to_tiff : Type := mkApp {
  fn_in : string;
  fn_out : string;
  fn_gain : string;
  fn_compression : string;
  do_estimate : bool;
  dont_die_on_error : bool;
  line_by_line : bool;
  only_do_unfinished : bool;
  deflate_level : Z;
  thresh_reliable : Z;
  nr_threads : Z;
  MD : MetaDataTable;
  defects : Image Z;
  gain : Image spec_float;
  nn : Z;
  ny : Z;
  nx : Z;
  mrc_mode : Z
}.

Definition with_gain (app : convert_to_tiff) (gain' : Image spec_float) (defects' : Image Z)
  : convert_to_tiff :=
  mkApp (fn_in app) (fn_out app) (fn_gain app) (fn_compression app)
    (do_estimate app) (dont_die_on_error app) (line_by_line app) (only_do_unfinished app)
    (deflate_level app) (thresh_reliable app) (nr_threads app) (MD app)
    defects' gain' (nn app) (ny app) (nx app) (mrc_mode app).

Definition with_head (app : convert_to_tiff) (nn' ny' nx' mrc_mode' : Z) : convert_to_tiff :=
  mkApp (fn_in app) (fn_out app) (fn_gain app) (fn_compression app)
    (do_estimate app) (dont_die_on_error app) (line_by_line app) (only_do_unfinished app)
    (deflate_level app) (thresh_reliable app) (nr_threads app) (MD app)
    (defects app) (gain app) nn' ny' nx' mrc_mode'.

(** [IOParser] and [textToInteger] (src/args.h) are not under src/ and
    are taken as parameters. An option is looked up by its name and is
    there or not, a flag is there or not; an option without a default
    that is not given makes [checkForErrors] true. [textToInteger]
    converts a text or reports an error. *)
Record Parser : Type := mkParser {
  getOption : string -> option string;
  checkOption : string -> bool;
  textToInteger : string -> result Z
}.

(** [convert_to_tiff::read]. The numbers are converted where the options
    are read, before [checkForErrors] looks for a missing ["--i"]. *)
Definition read (app : convert_to_tiff) (parser : Parser) : result convert_to_tiff :=
  let fn_in' := getOption parser "--i" in
  let fn_out' := default "" (getOption parser "--o") in
  let fn_gain' := default "" (getOption parser "--gain") in
  let* nr_threads' := textToInteger parser (default "1" (getOption parser "--j")) in
  let only_do_unfinished' := checkOption parser "--only_do_unfinished" in
  let* thresh_reliable' := textToInteger parser (default "20" (getOption parser "--thresh")) in
  let do_estimate' := checkOption parser "--estimate_gain" in
  let fn_compression' := default "auto" (getOption parser "--compression") in
  let* deflate_level' :=
    textToInteger parser (default "6" (getOption parser "--deflate_level")) in
  let dont_die_on_error' := checkOption parser "--ignore_error" in
  let line_by_line' := checkOption parser "--line_by_line" in
  match fn_in' with
  | None => ReportError "Errors encountered on the command line (see above), exiting..."
  | Some fn_in' =>
      Ok (mkApp fn_in' fn_out' fn_gain' fn_compression' do_estimate' dont_die_on_error'
            line_by_line' only_do_unfinished' deflate_level' thresh_reliable' nr_threads'
            (MD app) (defects app) (gain app) (nn app) (ny app) (nx app) (mrc_mode app))
  end.

(** ** What is read from files *)

(** [Image::read], [MetaDataTable::read] and [FileName] (src/image.h,
    src/metadata_table.h, src/filename.h) are not under src/; the C
    library calls of [checkMRCtype] and libtiff's [TIFFOpen] read or touch
    files. They are taken as parameters:
    - [readFrameFloat fn iframe]: [Image<float>::read(fn, true, iframe,
      false, true)], one frame of a movie with its pixels as [float];
    - [readFrameInt T fn iframe]: the same for [Image<short>] and
      [Image<char>];
    - [readHead fn]: the header of a movie, (NSIZE, YSIZE, XSIZE);
    - [mrcHeader fn]: the first 24 [int]s of the file as far as it holds
      them, or nothing when it cannot be opened;
    - [readGain], [readDefects]: the two images of a gain reference;
    - [tiffWritable fn]: [TIFFOpen(fn, "w")] succeeds;
    - [withoutExtension], [getExtension]: the members of [FileName]. *)
Record Env : Type := mkEnv {
  readFrameFloat : string -> Z -> result (Image spec_float);
  readFrameInt : PixelType -> string -> Z -> result (Image Z);
  readHead : string -> result (Z * Z * Z);
  mrcHeader : string -> option (list Z);
  readGain : string -> result (Image spec_float);
  readDefects : string -> result (Image Z);
  tiffWritable : string -> bool;
  withoutExtension : string -> string;
  getExtension : string -> string
}.

(** [checkMRCtype]: word 3 of the header. *)
Definition checkMRCtype (env : Env) (fn_movie : string) : result Z :=
  match mrcHeader env fn_movie with
  | Some headers => vec_get headers 3
  | None => Undefined
  end.

(** ** What is written to files *)

Inductive FileContent : Type :=
| TiffFile (pages : list Page)
| FloatImageFile (img : Image spec_float)
| ShortImageFile (img : Image Z)
| OtherFile.

Abbreviation Files := (gmap string FileContent).

Inductive FileOp : Type :=
| OpTIFFOpen (fn : string)
| OpTIFFWriteDirectory (fn : string) (page : Page)
| OpTIFFClose (fn : string)
| OpRename (from to : string)
| OpWriteFloatImage (fn : string) (img : Image spec_float)
| OpWriteShortImage (fn : string) (img : Image Z).

(** The effect of a file operation, after the documentation of libtiff
    and of the C library. [TIFFOpen] for writing creates the file or
    empties it; [TIFFWriteDirectory] adds a page to it; [std::rename]
    moves a file over its target and does nothing when there is no such
    file; [Image::write] creates the file or replaces it. *)
Definition applyOp (fs : Files) (op : FileOp) : Files :=
  match op with
  | OpTIFFOpen fn => <[fn := TiffFile []]> fs
  | OpTIFFWriteDirectory fn page =>
      match fs !! fn with
      | Some (TiffFile pages) => <[fn := TiffFile (pages ++ [page])%list]> fs
      | _ => fs
      end
  | OpTIFFClose fn => fs
  | OpRename from to =>
      match fs !! from with
      | Some content => <[to := content]> (delete from fs)
      | None => fs
      end
  | OpWriteFloatImage fn img => <[fn := FloatImageFile img]> fs
  | OpWriteShortImage fn img => <[fn := ShortImageFile img]> fs
  end.

Definition applyOps (fs : Files) (ops : list FileOp) : Files := foldl applyOp fs ops.

(** A computation that reads the file system and carries out file
    operations: the operations it got to, and how it ended. *)
Definition IO (A : Type) : Type := Files -> list FileOp * result A.

Definition io_ret {A} (a : A) : IO A := fun _ => ([], Ok a).

Definition io_lift {A} (r : result A) : IO A := fun _ => ([], r).

Definition io_op (op : FileOp) : IO unit := fun _ => ([op], Ok tt).

Definition io_exists (fn : string) : IO bool :=
  fun fs => ([], Ok (bool_decide (is_Some (fs !! fn)))).

Definition io_bind {A B} (m : IO A) (k : A -> IO B) : IO B :=
  fun fs =>
    let r := m fs in
    match r.2 with
    | Ok a => let r' := k a (applyOps fs r.1) in ((r.1 ++ r'.1)%list, r'.2)
    | ReportError msg => (r.1, ReportError msg)
    | Undefined => (r.1, Undefined)
    end.

Notation "'let!' x ':=' m 'in' k" := (io_bind m (fun x => k))
  (at level 10, x name, m at level 200, k at level 200, only parsing).

Fixpoint io_foldM {A B} (f : A -> B -> IO A) (a : A) (l : list B) : IO A :=
  match l with
  | [] => io_ret a
  | b :: l' => let! a' := f a b in io_foldM f a' l'
  end.

(** [TIFFOpen(fn, "w")] and the test that follows it. *)
Definition TIFFOpen (env : Env) (fn : string) : IO unit :=
  if tiffWritable env fn then io_op (OpTIFFOpen fn)
  else io_lift (ReportError "Failed to open the output TIFF file.").

(** The frames [for (int iframe = 0; iframe < nn; iframe++)] visits. *)
Definition frameNumbers (app : convert_to_tiff) : list Z :=
  Z.of_nat <$> seq 0 (Z.to_nat (nn app)).

(** ** [write_tiff_one_page] *)

(** The [XSIZE(buf)] pixels at [buf.data + k * XSIZE(buf)]. *)
Definition rowAt {T} (buf : Image T) (k : Z) : result (list T) :=
  let offset := k * Z.of_nat (xdim buf) in
  if (offset <? 0) || (Z.of_nat (length (data buf)) <? offset + Z.of_nat (xdim buf))
  then Undefined
  else Ok (take (xdim buf) (drop (Z.to_nat offset) (data buf))).

Definition sampleLayout (T : PixelType) : Z * SampleFormat :=
  match T with
  | T_float => (32, SAMPLEFORMAT_IEEEFP)
  | T_short => (16, SAMPLEFORMAT_UINT)
  | T_char => (8, SAMPLEFORMAT_UINT)
  end.

(** The fields the function sets and the scanlines it hands over, up to
    the call of [TIFFWriteDirectory]. *)
Definition tiffPage (app : convert_to_tiff) (T : PixelType) (buf : Image Pixel)
    (filter : Compression) (level : Z) : result Page :=
  let layout := sampleLayout T in
  let* quality :=
    if decide (filter = COMPRESSION_DEFLATE) then
      if (level <=? 0) || (9 <? level)
      then ReportError "Deflate level must be 1, 2, ..., 9"
      else Ok (Some level)
    else Ok None in
  let* scanlines :=
    foldM (fun lines iy =>
             let* line := rowAt buf (ny app - 1 - Z.of_nat iy) in
             Ok (lines ++ [line])%list)
          [] (seq 0 (ydim buf)) in
  Ok (mkPage (xdim buf) (ydim buf)
        (if line_by_line app then 1%nat else ydim buf)
        layout.1 layout.2 filter quality scanlines).

Definition write_tiff_one_page (app : convert_to_tiff) (T : PixelType) (tif : string)
    (buf : Image Pixel) (filter : Compression) (level : Z) : IO unit :=
  let! page := io_lift (tiffPage app T buf filter level) in
  io_op (OpTIFFWriteDirectory tif page).

(** ** [decide_filter] *)

Definition decide_filter (app : convert_to_tiff) (nx : Z) : result Compression :=
  if String.eqb (fn_compression app) "none" then Ok COMPRESSION_NONE
  else if String.eqb (fn_compression app) "lzw" then Ok COMPRESSION_LZW
  else if String.eqb (fn_compression app) "deflate" || String.eqb (fn_compression app) "zip"
  then Ok COMPRESSION_DEFLATE
  else if String.eqb (fn_compression app) "auto" then
    if nx =? 4096 then Ok COMPRESSION_DEFLATE else Ok COMPRESSION_LZW
  else ReportError "Compression type must be one of none, auto, deflate (= zip) or lzw.".

(** ** [estimate] *)

(** The counters of one frame. *)
Record Counters : Type := mkCounters {
  c_error : Z;
  c_changed : Z;
  c_negative : Z
}.

(** The line printed for a frame: the frame, #Changed, #Mismatch,
    #Negative, #Unreliable and the number of pixels. *)
Record FrameReport : Type := mkFrameReport {
  r_frame : Z;
  r_changed : Z;
  r_mismatch : Z;
  r_negative : Z;
  r_unreliable : Z;
  r_pixels : Z
}.

(** The body of the first loop over the pixels of a frame. *)
Definition estimatePixel (frame : Image spec_float)
    (st : list spec_float * list Z * Counters) (n : nat)
  : result (list spec_float * list Z * Counters) :=
  let '(gain, defects, c) := st in
  let* val := vec_get (data frame) (Z.of_nat n) in
  let* gain_here := vec_get gain (Z.of_nat n) in
  if SFeqb val f32_zero then Ok st
  else if SFltb val f32_zero then
    let* defects' := vec_set defects (Z.of_nat n) (-1) in
    Ok (gain, defects', mkCounters (c_error c) (c_changed c) (c_negative c + 1))
  else if SFltb val gain_here then
    let* gain' := vec_set gain (Z.of_nat n) val in
    let* defects' := vec_set defects (Z.of_nat n) 0 in
    Ok (gain', defects', mkCounters (c_error c) (c_changed c + 1) (c_negative c))
  else
    let* ival := int_of_round (f32_div val gain_here) in
    let expected := f32_mul gain_here (f32_of_int ival) in
    if mismatch expected val then
      let* defects' := vec_set defects (Z.of_nat n) (-1) in
      Ok (gain, defects', mkCounters (c_error c + 1) (c_changed c) (c_negative c))
    else
      let* d := vec_get defects (Z.of_nat n) in
      if 0 <=? d then
        let* defects' := vec_set defects (Z.of_nat n) (wrap16 (d + 1)) in
        Ok (gain, defects', c)
      else Ok st.

(** The second loop: the pixels whose count has reached the threshold. *)
Definition countStable (app : convert_to_tiff) (defects : list Z) : Z :=
  Z.of_nat (length (List.filter (fun val => thresh_reliable app <=? val) defects)).

(** One round of the loop over the frames. *)
Definition estimateFrame (env : Env) (fn_movie : string)
    (st : convert_to_tiff * list FrameReport) (iframe : Z)
  : result (convert_to_tiff * list FrameReport) :=
  let app := st.1 in
  let* frame := readFrameFloat env fn_movie iframe in
  let* r := foldM (estimatePixel frame)
              (data (gain app), data (defects app), mkCounters 0 0 0)
              (seq 0 (length (data frame))) in
  let '(gain', defects', c) := r in
  let stable := countStable app defects' in
  Ok (with_gain app
        (mkImage (xdim (gain app)) (ydim (gain app)) gain')
        (mkImage (xdim (defects app)) (ydim (defects app)) defects'),
      (st.2 ++ [mkFrameReport iframe (c_changed c) (c_error c) (c_negative c)
                  (ny app * nx app - stable) (ny app * nx app)])%list).

Definition estimate (env : Env) (app : convert_to_tiff) (fn_movie : string)
  : result (convert_to_tiff * list FrameReport) :=
  foldM (estimateFrame env fn_movie) (app, []) (frameNumbers app).

(** ** [unnormalise<float>] *)

(** The body of the loop over the pixels of a frame; [buf] and the
    counter [error]. *)
Definition unnormalisePixel (app : convert_to_tiff) (frame : Image spec_float)
    (st : list spec_float * Z) (n : nat) : result (list spec_float * Z) :=
  let '(buf, error) := st in
  let* val := vec_get (data frame) (Z.of_nat n) in
  let* gain_here := vec_get (data (gain app)) (Z.of_nat n) in
  let* d := vec_get (data (defects app)) (Z.of_nat n) in
  let is_bad := d <? thresh_reliable app in
  if is_bad then
    let* buf' := vec_set buf (Z.of_nat n) val in
    Ok (buf', error)
  else
    let* ival := int_of_round (f32_div val gain_here) in
    let expected := f32_mul gain_here (f32_of_int ival) in
    let* error' :=
      if mismatch expected val then
        if negb (dont_die_on_error app)
        then ReportError "Unexpected pixel value in a pixel that was considered reliable"
        else Ok (error + 1)
      else Ok error in
    let* buf' := vec_set buf (Z.of_nat n) (f32_of_int ival) in
    Ok (buf', error').

(** [MultidimArray<float> buf(ny, nx)], which starts zero-filled, as a
    page sees it. *)
Definition floatPage (app : convert_to_tiff) (buf : list spec_float) : Image Pixel :=
  mkImage (Z.to_nat (nx app)) (Z.to_nat (ny app)) (PixelFloat <$> buf).

(** One round of the loop over the frames: [buf] after it and the line
    printed, (frame, #Error). *)
Definition unnormaliseFrame (env : Env) (app : convert_to_tiff) (fn_movie fn_tmp : string)
    (st : list spec_float * list (Z * Z)) (iframe : Z)
  : IO (list spec_float * list (Z * Z)) :=
  let! frame := io_lift (readFrameFloat env fn_movie iframe) in
  let! r := io_lift (foldM (unnormalisePixel app frame) (st.1, 0)
                       (seq 0 (length (data frame)))) in
  let! filter := io_lift (decide_filter app (nx app)) in
  let! _ := write_tiff_one_page app T_float fn_tmp (floatPage app r.1) filter
              (deflate_level app) in
  io_ret (r.1, (st.2 ++ [(iframe + 1, r.2)])%list).

Definition unnormalise (env : Env) (app : convert_to_tiff) (fn_movie fn_tiff : string)
  : IO (list (Z * Z)) :=
  let fn_tmp := fn_tiff +:+ ".tmp" in
  let! _ := TIFFOpen env fn_tmp in
  let buf := replicate (Z.to_nat (ny app) * Z.to_nat (nx app)) f32_zero in
  let! r := io_foldM (unnormaliseFrame env app fn_movie fn_tmp) (buf, []) (frameNumbers app) in
  let! _ := io_op (OpTIFFClose fn_tmp) in
  let! _ := io_op (OpRename fn_tmp fn_tiff) in
  io_ret r.2.

(** ** [only_compress<short>] and [only_compress<char>] *)

Definition intPage (frame : Image Z) : Image Pixel :=
  mkImage (xdim frame) (ydim frame) (PixelInt <$> data frame).

Definition only_compressFrame (env : Env) (app : convert_to_tiff) (T : PixelType)
    (fn_movie fn_tiff : string) (_ : unit) (iframe : Z) : IO unit :=
  let! frame := io_lift (readFrameInt env T fn_movie iframe) in
  let! filter := io_lift (decide_filter app (nx app)) in
  write_tiff_one_page app T fn_tiff (intPage frame) filter (deflate_level app).

Definition only_compress (env : Env) (app : convert_to_tiff) (T : PixelType)
    (fn_movie fn_tiff : string) : IO unit :=
  let fn_tmp := fn_tiff +:+ ".tmp" in
  let! _ := TIFFOpen env fn_tiff in
  let! _ := io_foldM (only_compressFrame env app T fn_movie fn_tiff) tt (frameNumbers app) in
  let! _ := io_op (OpTIFFClose fn_tiff) in
  io_op (OpRename fn_tmp fn_tiff).

(** ** [initialise], from the check of the input on *)

(** [gain().reshape(ny, nx)] filled with a constant. *)
Definition filled {T} (app : convert_to_tiff) (v : T) : Image T :=
  mkImage (Z.to_nat (nx app)) (Z.to_nat (ny app))
    (replicate (Z.to_nat (ny app) * Z.to_nat (nx app)) v).

(** The gain where the reliability is below the threshold set to 1. *)
Definition maskedGain (app : convert_to_tiff) : result (Image spec_float) :=
  let* gain' :=
    foldM (fun gain n =>
             let* d := vec_get (data (defects app)) (Z.of_nat n) in
             if d <? thresh_reliable app
             then vec_set gain (Z.of_nat n) (f32_of_double double_1_0)
             else Ok gain)
          (data (gain app)) (seq 0 (length (data (gain app)))) in
  Ok (mkImage (xdim (gain app)) (ydim (gain app)) gain').

(** The part of [initialise] after the name [fn_first] of the first movie
    is known. The calls of [mkdir] are left out. *)
Definition initialise (env : Env) (app : convert_to_tiff) (fn_first : string)
  : IO convert_to_tiff :=
  let! head := io_lift (readHead env fn_first) in
  let '(nn', ny', nx') := head in
  let! mode := io_lift (checkMRCtype env fn_first) in
  let app := with_head app nn' ny' nx' mode in
  let! app :=
    if negb (String.eqb (fn_gain app) "") then
      if negb (mode =? 2) then io_ret app
      else
        let! gain' := io_lift (readGain env (fn_gain app +:+ ":mrc")) in
        if negb (Z.of_nat (xdim gain') =? nx') || negb (Z.of_nat (ydim gain') =? ny')
        then io_lift (ReportError "The input gain has a wrong size.")
        else
          let fn_defects :=
            (withoutExtension env (fn_gain app) +:+ "_reliablity.")
              +:+ getExtension env (fn_gain app) in
          let! defects' := io_lift (readDefects env (fn_defects +:+ ":mrc")) in
          if negb (Z.of_nat (xdim defects') =? nx') || negb (Z.of_nat (ydim defects') =? ny')
          then io_lift (ReportError "The input reliability map has a wrong size.")
          else io_ret (with_gain app gain' defects')
    else if mode =? 2 then
      io_ret (with_gain app (filled app (f32_of_double double_999_9)) (filled app (-1)))
    else io_ret app in
  if negb (do_estimate app) && (mode =? 2) then
    let! gain' := io_lift (maskedGain app) in
    let app := with_gain app gain' (defects app) in
    let! _ := io_op (OpWriteFloatImage (fn_out app +:+ "gain-reference.mrc") gain') in
    io_ret app
  else io_ret app.

(** ** [processOneMovie] *)

Definition processOneMovie (env : Env) (app : convert_to_tiff) (fn_movie fn_tiff : string)
  : IO convert_to_tiff :=
  let! head := io_lift (readHead env fn_movie) in
  let '(_, ysize, xsize) := head in
  let! differs :=
    if negb (ny app =? ysize) then io_ret true
    else if negb (nx app =? xsize) then io_ret true
    else let! mode := io_lift (checkMRCtype env fn_movie) in
         io_ret (negb (mrc_mode app =? mode)) in
  if differs : bool then
    io_lift (ReportError (("A movie " +:+ fn_movie)
                            +:+ " has a different size and/or mode from other movies."))
  else
    let! _ :=
      if (mrc_mode app =? 1) || (mrc_mode app =? 6)
      then only_compress env app T_short fn_movie fn_tiff
      else if (mrc_mode app =? 0) || (mrc_mode app =? 101)
      then only_compress env app T_char fn_movie fn_tiff
      else io_ret tt in
    if do_estimate app then
      let! r := io_lift (estimate env app (fn_in app)) in
      let app := r.1 in
      (* the two files are named with ":mrc" at the end, which tells the
         format and is not part of the name on disk *)
      let! _ := io_op (OpWriteFloatImage (fn_out app +:+ "gain_estimate.bin") (gain app)) in
      let! _ := io_op (OpWriteShortImage (fn_out app +:+ "gain_estimate_reliablity.bin")
                         (defects app)) in
      io_ret app
    else
      let! done := io_exists fn_tiff in
      if only_do_unfinished app && done then io_ret app
      else
        let! _ := unnormalise env app fn_movie fn_tiff in
        io_ret app.

(** ** Notions of the statements on [convert_to_tiff] *)

(** The gain of a pixel after a frame in which it has the value [val]:
    the value, when it is above zero and below the gain so far. *)
Definition gainAfter (val gain_here : spec_float) : spec_float :=
  if negb (SFeqb val f32_zero) && negb (SFltb val f32_zero) && SFltb val gain_here
  then val else gain_here.

(** The same for pixel [n] of a frame, which may be too small to have
    it. *)
Definition gainAfterFrame (n : nat) (gain_here : spec_float) (frame : Image spec_float)
  : spec_float :=
  match data frame !! n with
  | Some val => gainAfter val gain_here
  | None => gain_here
  end.

(** The name of the file [unnormalise] and [only_compress] call
    [fn_tmp]. *)
Definition tmpName (fn_tiff : string) : string := fn_tiff +:+ ".tmp".

(** An operation that touches no file but [fn]. *)
Definition touchesOnly (fn : string) (op : FileOp) : Prop :=
  match op with
  | OpTIFFOpen fn' | OpTIFFWriteDirectory fn' _ | OpTIFFClose fn' => fn' = fn
  | _ => False
  end.

(** ** Two small movies *)

(** Movies of two frames of 2 x 2 pixels: "shorts.mrc" in mode 1, and
    "floats.mrc" and any other in mode 2. Frame [k] holds k + 1, ...,
    k + 4. *)
Definition exampleFloatFrame (k : Z) : Image spec_float :=
  mkImage 2 2 (f32_of_int <$> [k + 1; k + 2; k + 3; k + 4]).

Definition exampleShortFrame (k : Z) : Image Z :=
  mkImage 2 2 [k + 1; k + 2; k + 3; k + 4].

Definition exampleEnv : Env :=
  mkEnv (fun _ iframe => Ok (exampleFloatFrame iframe))
        (fun _ _ iframe => Ok (exampleShortFrame iframe))
        (fun _ => Ok (2, 2, 2))
        (fun fn => if String.eqb fn "shorts.mrc" then Some [2; 2; 2; 1] else Some [2; 2; 2; 2])
        (fun _ => ReportError "Cannot read file")
        (fun _ => ReportError "Cannot read file")
        (fun _ => true)
        (fun fn => fn)
        (fun _ => "mrc").

(** The object after the options "--i floats.mrc --o out/
    --only_do_unfinished" have been read. *)
Definition exampleOptions : convert_to_tiff :=
  mkApp "floats.mrc" "out/" "" "auto" false false false true 6 20 1 []
    (mkImage 0 0 []) (mkImage 0 0 []) 0 0 0 0.

(** The same after [initialise]. *)
Definition exampleConverter : convert_to_tiff :=
  with_gain (with_head exampleOptions 2 2 2 2)
    (mkImage 2 2 (replicate 4 (f32_of_double double_1_0)))
    (mkImage 2 2 (replicate 4 (-1))).

(** With "--estimate_gain", after [initialise]. *)
Definition exampleBlank : convert_to_tiff :=
  mkApp "floats.mrc" "out/" "" "auto" true false false false 6 20 1 []
    (mkImage 2 2 (replicate 4 (-1)))
    (mkImage 2 2 (replicate 4 (f32_of_double double_999_9))) 2 2 2 2.

Definition exampleEstimated : convert_to_tiff :=
  Eval vm_compute in
  match estimate exampleEnv exampleBlank "floats.mrc" with
  | Ok r => r.1
  | _ => exampleBlank
  end.

Definition exampleReports : list FrameReport :=
  Eval vm_compute in
  match estimate exampleEnv exampleBlank "floats.mrc" with
  | Ok r => r.2
  | _ => []
  end.

(** The object for "--i shorts.mrc --o out/", after [initialise]. *)
Definition exampleShorts : convert_to_tiff :=
  mkApp "shorts.mrc" "out/" "" "auto" false false false false 6 20 1 []
    (mkImage 0 0 []) (mkImage 0 0 []) 2 2 2 1.

End ConvertToTiff.

(** * Proofs *)

(** * Loops over the pixels *)

Section Pixels.

Context {T : Type}.

Lemma forPixels_flat {A} (s sh : nat) (body : nat -> nat -> A -> A) (a : A) :
  forPixels s sh body a = foldl (fun a yx => body yx.1 yx.2 a) a (pixelsInOrder s sh).
Proof.
  unfold forPixels, pixelsInOrder.
  generalize (seq 0 s) as ys. intros ys. revert a.
  induction ys as [|y ys IH]; intros a; [reflexivity|].
  cbn [foldl mbind list_bind]. rewrite foldl_app, IH. f_equal.
  generalize (seq 0 sh) as xs. intros xs. revert a.
  induction xs as [|x xs IHx]; intros a; [reflexivity|].
  cbn. apply IHx.
Qed.

Lemma elem_of_pixelsInOrder (s sh y x : nat) :
  (y, x) ∈ pixelsInOrder s sh <-> (y < s)%nat /\ (x < sh)%nat.
Proof.
  unfold pixelsInOrder. rewrite list_elem_of_bind. split.
  - intros (y' & Hx & Hy). apply list_elem_of_fmap in Hx as (x' & Heq & Hx).
    inversion Heq; subst. apply elem_of_seq in Hx, Hy. lia.
  - intros [Hy Hx]. exists y. split.
    + apply list_elem_of_fmap. exists x. split; [reflexivity|]. apply elem_of_seq. lia.
    + apply elem_of_seq. lia.
Qed.

Lemma pixelsInOrder_bound (s sh : nat) :
  Forall (fun yx => (yx.1 < s)%nat /\ (yx.2 < sh)%nat) (pixelsInOrder s sh).
Proof.
  apply Forall_forall. intros [y x] Hin. by apply elem_of_pixelsInOrder.
Qed.

Lemma storeWhere_xdim c v y x (img : Image T) : xdim (storeWhere c v y x img) = xdim img.
Proof. unfold storeWhere. by destruct (c y x). Qed.

Lemma storeWhere_ydim c v y x (img : Image T) : ydim (storeWhere c v y x img) = ydim img.
Proof. unfold storeWhere. by destruct (c y x). Qed.

Lemma storeWhere_length c v y x (img : Image T) :
  length (data (storeWhere c v y x img)) = length (data img).
Proof. unfold storeWhere. destruct (c y x); [apply length_insert|done]. Qed.

Lemma pixelIndex_inj (img : Image T) (y x y' x' : nat) :
  (x < xdim img)%nat -> (x' < xdim img)%nat ->
  pixelIndex img y x = pixelIndex img y' x' -> y = y' /\ x = x'.
Proof.
  unfold pixelIndex. intros Hx Hx' Heq.
  assert (y = y') as ->.
  { destruct (Nat.lt_trichotomy y y') as [Hlt|[Heq'|Hlt]]; [|done|].
    - assert (y * xdim img + xdim img <= y' * xdim img)%nat by nia. lia.
    - assert (y' * xdim img + xdim img <= y * xdim img)%nat by nia. lia. }
  split; [done|lia].
Qed.

Lemma pixelIndex_lt (img : Image T) (s y x : nat) :
  (y < s)%nat -> (x < xdim img)%nat -> (pixelIndex img y x < s * xdim img)%nat.
Proof. unfold pixelIndex. intros. nia. Qed.

Lemma foldl_storeWhere_dims c v (l : list (nat * nat)) (img : Image T) :
  let img' := foldl (fun a yx => storeWhere c v yx.1 yx.2 a) img l in
  xdim img' = xdim img /\ ydim img' = ydim img
  /\ length (data img') = length (data img).
Proof.
  revert img. induction l as [|[y x] l IH]; intros img; [done|].
  cbn [foldl]. destruct (IH (storeWhere c v y x img)) as (Hx & Hy & Hl).
  cbn in *. rewrite Hx, Hy, Hl.
  by rewrite storeWhere_xdim, storeWhere_ydim, storeWhere_length.
Qed.

Lemma foldl_storeWhere_lookup c v (l : list (nat * nat)) (img : Image T) (y x : nat) :
  Forall (fun yx => (yx.2 < xdim img)%nat) l ->
  (x < xdim img)%nat ->
  (pixelIndex img y x < length (data img))%nat ->
  data (foldl (fun a yx => storeWhere c v yx.1 yx.2 a) img l) !! pixelIndex img y x
  = if bool_decide ((y, x) ∈ l) && c y x then Some (v y x)
    else data img !! pixelIndex img y x.
Proof.
  revert img. induction l as [|[y' x'] l IH]; intros img Hl Hx Hlt; [done|].
  apply Forall_cons in Hl as [Hx' Hl]. cbn in Hx'.
  cbn [foldl fst snd].
  assert (Hpi : forall a b, pixelIndex (storeWhere c v y' x' img) a b = pixelIndex img a b).
  { intros. unfold pixelIndex. by rewrite storeWhere_xdim. }
  rewrite <- Hpi, IH; rewrite ?storeWhere_xdim, ?storeWhere_length, ?Hpi; try done.
  destruct (decide ((y, x) = (y', x'))) as [Heq|Hne].
  - inversion Heq; subst y' x'.
    rewrite (bool_decide_eq_true_2 ((y, x) ∈ (y, x) :: l)) by left.
    unfold storeWhere. destruct (c y x) eqn:Hc; rewrite ?andb_true_r, ?andb_false_r.
    + case_bool_decide; [done|]. cbn. by apply list_lookup_insert_eq.
    + done.
  - assert (Hidx : pixelIndex img y' x' ≠ pixelIndex img y x).
    { intros Hi. destruct (pixelIndex_inj img y' x' y x Hx' Hx Hi). naive_solver. }
    assert (Hold : data (storeWhere c v y' x' img) !! pixelIndex img y x
                   = data img !! pixelIndex img y x).
    { unfold storeWhere. destruct (c y' x'); [|done]. cbn.
      by apply list_lookup_insert_ne. }
    rewrite Hold.
    destruct (decide ((y, x) ∈ l)) as [Hin|Hnin].
    + rewrite !bool_decide_eq_true_2; [done|by right|done].
    + rewrite !bool_decide_eq_false_2; [done| |done].
      intros Hc. apply elem_of_cons in Hc as [?|?]; done.
Qed.

End Pixels.

(** After the two loops, pixel (y, x) holds [v y x] where [c y x] holds and
    its old value elsewhere. *)
Lemma forPixels_storeWhere {R T} `{Elem R T} (s sh : nat) c v (img : Image T) (y x : nat) :
  xdim img = sh -> length (data img) = (s * sh)%nat ->
  (y < s)%nat -> (x < sh)%nat ->
  A2D_ELEM (forPixels s sh (storeWhere c v) img) y x
  = if c y x then v y x else A2D_ELEM img y x.
Proof.
  intros Hxd Hlen Hy Hx. rewrite forPixels_flat. unfold A2D_ELEM.
  pose proof (foldl_storeWhere_dims c v (pixelsInOrder s sh) img) as (Hxd' & _ & _).
  cbn in Hxd'.
  replace (pixelIndex (foldl _ img (pixelsInOrder s sh)) y x) with (pixelIndex img y x)
    by (unfold pixelIndex; by rewrite Hxd').
  rewrite foldl_storeWhere_lookup.
  - rewrite (bool_decide_eq_true_2 ((y, x) ∈ pixelsInOrder s sh))
      by (by apply elem_of_pixelsInOrder).
    cbn. by destruct (c y x).
  - eapply Forall_impl; [apply pixelsInOrder_bound|]. intros ? [_ ?]. by rewrite Hxd.
  - by rewrite Hxd.
  - rewrite Hlen, <- Hxd. apply pixelIndex_lt; [done|by rewrite Hxd].
Qed.

Lemma Image_new_length {R T} `{Elem R T} (xd yd : nat) :
  length (data (Image_new (T:=T) xd yd)) = (yd * xd)%nat.
Proof. apply length_replicate. Qed.

(** Comparisons of [double] with zero (IEEE 754, from the kernel's
    specification of [leb] and [ltb]). *)
Lemma leb_zero_not_gt (x : float) :
  PrimFloat.leb x 0 = true -> PrimFloat.ltb 0 x = false.
Proof.
  rewrite FloatAxioms.leb_spec, FloatAxioms.ltb_spec.
  change (Prim2SF 0) with (S754_zero false).
  destruct (Prim2SF x) as [ [] | [] | | [] m e]; cbn; try discriminate; try reflexivity.
Qed.

Section Fit.

Context {R : Type} `{RFloat R} `{Collaborators R}.

(** C2. In [parametricFit] the normalised field [xyNrm] holds, at every
    pixel (y, x) of the half-spectrum, the merged complex sum divided by
    the merged weight where the merged weight is > 0, and the complex
    zero everywhere else. *)
Theorem normalise_pixel (est : TiltEstimator R)
    (xyAccSum : Image (Complex R)) (wAccSum : Image R) (y x : nat) :
  (y < s est)%nat -> (x < sh est)%nat ->
  A2D_ELEM (normalise est xyAccSum wAccSum) y x
  = if rf_gt (A2D_ELEM wAccSum y x) rf_zero
    then complex_div (A2D_ELEM xyAccSum y x) (A2D_ELEM wAccSum y x)
    else mkComplex rf_zero rf_zero.
Proof.
  intros Hy Hx. unfold normalise.
  change (forPixels (s est) (sh est) _ ?i)
    with (forPixels (s est) (sh est)
            (storeWhere (fun _ _ => true)
               (fun y x => if rf_gt (A2D_ELEM wAccSum y x) rf_zero
                           then complex_div (A2D_ELEM xyAccSum y x) (A2D_ELEM wAccSum y x)
                           else mkComplex rf_zero rf_zero)) i).
  rewrite forPixels_storeWhere; try done.
  apply Image_new_length.
Qed.

(** C8. With [xring1 > 0] the fit mask is exactly 0 at every pixel of the
    half-spectrum whose distance [ra = s * angpix / rp] has
    [ra > xring0] and [ra <= xring1], whatever the accumulated weight,
    and keeps the value of the product of weight and hollow weight at the
    other pixels; with [xring1 <= 0] the ring changes no pixel; and
    [read] sets [xring1] to -1 when the option is not given. *)
Theorem exclusionRing_mask (est : TiltEstimator R) (og : nat) (wAccSum : Image R) :
  let wgh := multiply wAccSum
               (getHollowWeight (reference est)
                  (angToPix (obsModel est) (kmin est) (s est) og)) in
  xdim wgh = sh est -> length (data wgh) = (s est * sh est)%nat ->
  (PrimFloat.ltb 0 (xring1 est) = true ->
     forall y x, (y < s est)%nat -> (x < sh est)%nat ->
       A2D_ELEM (fitMask est og wAccSum) y x
       = if PrimFloat.ltb (xring0 est) (ringDistance est y x)
            && PrimFloat.leb (ringDistance est y x) (xring1 est)
         then rf_zero else A2D_ELEM wgh y x)
  /\ (PrimFloat.leb (xring1 est) 0 = true -> fitMask est og wAccSum = wgh)
  /\ (forall parser, optionDouble parser "--xr1" = None ->
        xring1 (read est parser) = (-1)%float).
Proof.
  intros wgh Hxd Hlen. split; [|split].
  - intros Hgt y x Hy Hx. unfold fitMask, exclusionRing. fold wgh. rewrite Hgt.
    change (forPixels (s est) (sh est) _ wgh)
      with (forPixels (s est) (sh est)
              (storeWhere (fun y x => inRing est (ringDistance est y x))
                 (fun _ _ => rf_zero)) wgh).
    by rewrite forPixels_storeWhere.
  - intros Hle. unfold fitMask, exclusionRing. fold wgh.
    by rewrite (leb_zero_not_gt _ Hle).
  - intros parser Hnone. cbn. by rewrite Hnone.
Qed.

(** C10. The exclusion-ring block divides by [rp] without a test for
    [rp = 0]: at the zero-frequency pixel (0, 0) the radius [rp] is
    exactly 0, the distance is the quotient [s * angpix / 0], and with
    [xring1 > 0] the pixel is set to 0 or kept according to the two
    comparisons of that quotient alone. *)
Theorem exclusionRing_zero_frequency (est : TiltEstimator R) (wgh : Image R) :
  ringRadius est 0 0 = 0%float
  /\ ringDistance est 0 0
     = PrimFloat.div (PrimFloat.mul (double_of_int (Z.of_nat (s est))) (angpix est)) 0%float
  /\ (xdim wgh = sh est -> length (data wgh) = (s est * sh est)%nat ->
      (0 < s est)%nat -> (0 < sh est)%nat ->
      PrimFloat.ltb 0 (xring1 est) = true ->
      A2D_ELEM (exclusionRing est wgh) 0 0
      = if PrimFloat.ltb (xring0 est)
             (PrimFloat.div (PrimFloat.mul (double_of_int (Z.of_nat (s est))) (angpix est)) 0%float)
           && PrimFloat.leb
                (PrimFloat.div (PrimFloat.mul (double_of_int (Z.of_nat (s est))) (angpix est)) 0%float)
                (xring1 est)
        then rf_zero else A2D_ELEM wgh 0 0).
Proof.
  assert (Hrp : ringRadius est 0 0 = 0%float) by reflexivity.
  assert (Hra : ringDistance est 0 0
     = PrimFloat.div (PrimFloat.mul (double_of_int (Z.of_nat (s est))) (angpix est)) 0%float).
  { unfold ringDistance. by rewrite Hrp. }
  split; [done|]. split; [done|].
  intros Hxd Hlen Hs Hsh Hgt. unfold exclusionRing. rewrite Hgt.
  change (forPixels (s est) (sh est) _ wgh)
    with (forPixels (s est) (sh est)
            (storeWhere (fun y x => inRing est (ringDistance est y x))
               (fun _ _ => rf_zero)) wgh).
  rewrite forPixels_storeWhere by done. unfold inRing. by rewrite Hra.
Qed.

End Fit.

(** * Outcomes *)

Lemma bind_Ok {A B} (r : result A) (k : A -> result B) (b : B) :
  bind r k = Ok b <-> exists a, r = Ok a /\ k a = Ok b.
Proof.
  split.
  - destruct r as [a| |]; cbn; [eauto|discriminate..].
  - intros (a & -> & Hk). exact Hk.
Qed.

Lemma foldM_app {A B} (f : A -> B -> result A) (a : A) (l1 l2 : list B) :
  foldM f a (l1 ++ l2) = bind (foldM f a l1) (fun a' => foldM f a' l2).
Proof.
  revert a. induction l1 as [|b l1 IH]; intros a; cbn; [done|].
  destruct (f a b); cbn; [apply IH|done..].
Qed.

(** An invariant of the state that every successful round keeps is kept by
    the loop. *)
Lemma foldM_invariant {A B} (P : A -> Prop) (f : A -> B -> result A) (l : list B) :
  (forall a b a', b ∈ l -> P a -> f a b = Ok a' -> P a') ->
  forall a a', P a -> foldM f a l = Ok a' -> P a'.
Proof.
  induction l as [|b l IH]; intros Hstep a a' HP Hrun; cbn in Hrun.
  - by inversion Hrun; subst.
  - apply bind_Ok in Hrun as (a1 & Hf & Hrun).
    eapply IH; [|eapply Hstep; [left|done..]|done].
    intros ???? ; apply Hstep. by right.
Qed.

Lemma vec_get_Ok {A} (v : list A) (i : nat) (a : A) :
  v !! i = Some a -> vec_get v (Z.of_nat i) = Ok a.
Proof.
  intros Hi. unfold vec_get.
  destruct (Z.ltb_spec (Z.of_nat i) 0); [lia|]. by rewrite Nat2Z.id, Hi.
Qed.

Lemma vec_get_Ok_inv {A} (v : list A) (i : Z) (a : A) :
  vec_get v i = Ok a -> 0 <= i /\ v !! Z.to_nat i = Some a.
Proof.
  unfold vec_get. destruct (Z.ltb_spec i 0); [discriminate|].
  destruct (v !! Z.to_nat i) eqn:Hl; [|discriminate]. intros [= ->]. done.
Qed.

Lemma vec_set_Ok {A} (v : list A) (i : nat) (a : A) :
  (i < length v)%nat -> vec_set v (Z.of_nat i) a = Ok (<[i := a]> v).
Proof.
  intros Hi. unfold vec_set.
  destruct (Z.ltb_spec (Z.of_nat i) 0); [lia|]. rewrite Nat2Z.id.
  by destruct (Nat.ltb_spec i (length v)); [|lia].
Qed.

(** * The output table *)

Lemma setValue_Ok (label : EMDLabel) (value : MetaDataValue) (objectID : nat)
    (mdt : MetaDataTable) row :
  mdt !! objectID = Some row ->
  setValue label value objectID mdt = Ok (<[objectID := <[label := value]> row]> mdt).
Proof. intros Hrow. unfold setValue. by rewrite Hrow. Qed.

Lemma setValue_Ok_inv (label : EMDLabel) (value : MetaDataValue) (objectID : nat)
    (mdt mdt' : MetaDataTable) :
  setValue label value objectID mdt = Ok mdt' ->
  exists row, mdt !! objectID = Some row
              /\ mdt' = <[objectID := <[label := value]> row]> mdt.
Proof.
  unfold setValue. destruct (mdt !! objectID) as [row|]; [|discriminate].
  intros [= <-]. eauto.
Qed.

(** [setValue] changes the one value it is given and nothing else. *)
Lemma setValue_frame (label : EMDLabel) (value : MetaDataValue) (objectID : nat)
    (mdt mdt' : MetaDataTable) (l : EMDLabel) (r : nat) :
  setValue label value objectID mdt = Ok mdt' ->
  (r, l) ≠ (objectID, label) ->
  getValue l r mdt' = getValue l r mdt.
Proof.
  intros (row & Hrow & ->)%setValue_Ok_inv Hne. unfold getValue.
  destruct (decide (r = objectID)) as [->|Hr].
  - rewrite list_lookup_insert_eq by (by eapply lookup_lt_Some).
    rewrite Hrow. cbn. apply lookup_insert_ne. congruence.
  - by rewrite list_lookup_insert_ne.
Qed.

Lemma setValue_same (label : EMDLabel) (value : MetaDataValue) (objectID : nat)
    (mdt mdt' : MetaDataTable) :
  setValue label value objectID mdt = Ok mdt' ->
  getValue label objectID mdt' = Some value.
Proof.
  intros (row & Hrow & ->)%setValue_Ok_inv. unfold getValue.
  rewrite list_lookup_insert_eq by (by eapply lookup_lt_Some).
  cbn. apply lookup_insert_eq.
Qed.

Lemma setValue_length (label : EMDLabel) (value : MetaDataValue) (objectID : nat)
    (mdt mdt' : MetaDataTable) :
  setValue label value objectID mdt = Ok mdt' -> length mdt' = length mdt.
Proof. intros (row & Hrow & ->)%setValue_Ok_inv. apply length_insert. Qed.

Section Merge.

Context {R : Type} `{RFloat R} `{Collaborators R}.

Lemma mergeStep_has est fs cns sums mdt :
  batchHasPair est fs cns mdt = true ->
  mergeStep est fs cns sums mdt
  = (img_add sums.1.1
       (ComplexIO_read fs ((getOutputFilenameRoot mdt (outPath est)
                            +:+ "_xyAcc_optics-class_") +:+ cns) ".mrc"),
     img_add sums.1.2
       (Image_read fs (wAccName (getOutputFilenameRoot mdt (outPath est)) cns)),
     true).
Proof.
  unfold batchHasPair, checkpointExists, mergeStep, xyAccRealName, xyAccImagName, wAccName.
  by intros ->.
Qed.

Lemma mergeStep_missing est fs cns sums mdt :
  batchHasPair est fs cns mdt = false -> mergeStep est fs cns sums mdt = sums.
Proof.
  unfold batchHasPair, checkpointExists, mergeStep, xyAccRealName, xyAccImagName, wAccName.
  by intros ->.
Qed.

Lemma foldl_mergeStep_used est fs cns sums mdts :
  (foldl (mergeStep est fs cns) sums mdts).2
  = sums.2 || existsb (batchHasPair est fs cns) mdts.
Proof.
  revert sums. induction mdts as [|mdt mdts IH]; intros sums; cbn [foldl existsb].
  - by rewrite orb_false_r.
  - rewrite IH. destruct (batchHasPair est fs cns mdt) eqn:Hb.
    + rewrite mergeStep_has by done. cbn. by rewrite orb_true_r.
    + by rewrite mergeStep_missing.
Qed.

Lemma mergeCheckpoints_used est fs mdts og :
  (mergeCheckpoints est fs (string_of_int (Z.of_nat og + 1)) mdts).2
  = groupUsed est fs mdts og.
Proof. unfold mergeCheckpoints. by rewrite foldl_mergeStep_used. Qed.

Lemma foldl_mergeStep_filter est fs cns sums mdts :
  foldl (mergeStep est fs cns) sums mdts
  = foldl (mergeStep est fs cns) sums (List.filter (batchHasPair est fs cns) mdts).
Proof.
  revert sums. induction mdts as [|mdt mdts IH]; intros sums; [done|].
  cbn [foldl List.filter]. destruct (batchHasPair est fs cns mdt) eqn:Hb.
  - cbn [foldl]. apply IH.
  - rewrite mergeStep_missing by done. apply IH.
Qed.

Lemma groupUsed_false est fs mdts og :
  groupUsed est fs mdts og = false <->
  forall mdt, mdt ∈ mdts ->
    batchHasPair est fs (string_of_int (Z.of_nat og + 1)) mdt = false.
Proof.
  unfold groupUsed. induction mdts as [|mdt mdts IH]; cbn [existsb].
  - split; [|done]. intros _ mdt Hin. by apply elem_of_nil in Hin.
  - rewrite orb_false_iff, IH. split.
    + intros [Hm Hall] mdt' [->|Hin]%elem_of_cons; auto.
    + intros Hall. split; [apply Hall; left|intros; apply Hall; by right].
Qed.

Lemma groupUsed_true est fs mdts og :
  groupUsed est fs mdts og = true <->
  exists mdt, mdt ∈ mdts
    /\ batchHasPair est fs (string_of_int (Z.of_nat og + 1)) mdt = true.
Proof.
  unfold groupUsed. rewrite existsb_exists. setoid_rewrite list_elem_of_In. done.
Qed.

(** [fitGroup] in one piece. *)
Lemma fitGroup_unfold est fs mdts optOut og :
  fitGroup est fs mdts optOut og
  = let* Cs := vec_get (Cs (obsModel est)) (Z.of_nat og) in
    let* lambda := vec_get (lambda (obsModel est)) (Z.of_nat og) in
    let sums := mergeCheckpoints est fs (string_of_int (Z.of_nat og + 1)) mdts in
    if groupUsed est fs mdts og
    then storeValues og (fittedValues est og Cs lambda sums.1.1 sums.1.2) optOut
    else Ok optOut.
Proof.
  unfold fitGroup.
  destruct (vec_get (Cs (obsModel est)) (Z.of_nat og)) as [Cs0| |]; cbn [bind]; [|done..].
  destruct (vec_get (lambda (obsModel est)) (Z.of_nat og)) as [l0| |]; cbn [bind]; [|done..].
  rewrite <- mergeCheckpoints_used.
  destruct (mergeCheckpoints est fs (string_of_int (Z.of_nat og + 1)) mdts)
    as [[xy w] used]. cbn [fst snd].
  destruct used; cbn [negb]; [|done].
  unfold storeValues, fittedValues.
  destruct (aberr_n_max est <? 3).
  - destruct (planarFit est Cs0 l0 _ _ _) as [tx ty]. cbn.
    destruct (setValue EMDL_IMAGE_BEAMTILT_X _ og optOut); cbn; [|done..].
    by destruct (setValue EMDL_IMAGE_BEAMTILT_Y _ og a).
  - destruct (zernikeFit est Cs0 l0 _ _) as [[c tx] ty]. cbn.
    destruct (setValue EMDL_IMAGE_BEAMTILT_X _ og optOut); cbn; [|done..].
    destruct (setValue EMDL_IMAGE_BEAMTILT_Y _ og a); cbn; [|done..].
    by destruct (setValue EMDL_IMAGE_ODD_ZERNIKE_COEFFS _ og a0).
Qed.

Lemma fittedValues_labels est og Cs lambda xy w :
  Forall (fun lv => fittedLabel est lv.1 = true) (fittedValues est og Cs lambda xy w).
Proof.
  unfold fittedValues, fittedLabel.
  destruct (Z.ltb_spec (aberr_n_max est) 3); repeat constructor; cbn.
  by apply Z.leb_le.
Qed.

Lemma storeValues_frame og values optOut optOut' (P : EMDLabel -> Prop) l r :
  Forall (fun lv => P lv.1) values ->
  storeValues og values optOut = Ok optOut' ->
  r ≠ og \/ ¬ P l ->
  getValue l r optOut' = getValue l r optOut.
Proof.
  unfold storeValues. revert optOut.
  induction values as [|[l0 v0] values IH]; intros optOut Hall Hrun Hne; cbn in Hrun.
  - by inversion Hrun.
  - apply Forall_cons in Hall as [HP Hall]. cbn in HP.
    apply bind_Ok in Hrun as (t1 & Hset & Hrun).
    rewrite (IH t1) by done. eapply setValue_frame; [done|].
    intros [= -> ->]. destruct Hne; done.
Qed.

Lemma storeValues_length og values optOut optOut' :
  storeValues og values optOut = Ok optOut' -> length optOut' = length optOut.
Proof.
  unfold storeValues. revert optOut.
  induction values as [|[l0 v0] values IH]; intros optOut Hrun; cbn in Hrun.
  - by inversion Hrun.
  - apply bind_Ok in Hrun as (t1 & Hset & Hrun).
    rewrite (IH t1) by done. by eapply setValue_length.
Qed.

Lemma storeValues_Ok og values optOut :
  (og < length optOut)%nat -> exists optOut', storeValues og values optOut = Ok optOut'.
Proof.
  unfold storeValues. revert optOut.
  induction values as [|[l0 v0] values IH]; intros optOut Hlt; cbn; [eauto|].
  destruct (lookup_lt_is_Some_2 optOut og Hlt) as [row Hrow].
  rewrite (setValue_Ok _ _ _ _ _ Hrow). cbn. apply IH. by rewrite length_insert.
Qed.

(** One round changes nothing but fitted columns of its own row, and only
    when the group is used. *)
Lemma fitGroup_frame est fs mdts optOut optOut' og l r :
  fitGroup est fs mdts optOut og = Ok optOut' ->
  ¬ (r = og /\ groupUsed est fs mdts og = true /\ fittedLabel est l = true) ->
  getValue l r optOut' = getValue l r optOut.
Proof.
  rewrite fitGroup_unfold. intros Hrun Hne.
  apply bind_Ok in Hrun as (Cs0 & _ & Hrun).
  apply bind_Ok in Hrun as (l0 & _ & Hrun). cbn zeta in Hrun.
  destruct (groupUsed est fs mdts og) eqn:Hused; [|by inversion Hrun].
  eapply (storeValues_frame _ _ _ _ (fun l => fittedLabel est l = true));
    [apply fittedValues_labels|done|].
  destruct (decide (r = og)); [right|by left]. naive_solver.
Qed.

Lemma fitGroup_length est fs mdts optOut optOut' og :
  fitGroup est fs mdts optOut og = Ok optOut' -> length optOut' = length optOut.
Proof.
  rewrite fitGroup_unfold. intros Hrun.
  apply bind_Ok in Hrun as (Cs0 & _ & Hrun).
  apply bind_Ok in Hrun as (l0 & _ & Hrun). cbn zeta in Hrun.
  destruct (groupUsed est fs mdts og); [by eapply storeValues_length|by inversion Hrun].
Qed.

End Merge.

Section ParametricFit.

Context {R : Type} `{RFloat R} `{Collaborators R}.

Lemma fitGroup_Ok (est : TiltEstimator R) fs mdts optOut og :
  opticsComplete est optOut -> (og < numberOfOpticsGroups (obsModel est))%nat ->
  exists optOut', fitGroup est fs mdts optOut og = Ok optOut'.
Proof.
  intros (HCs & Hl & Hrows) Hog. rewrite fitGroup_unfold.
  destruct (lookup_lt_is_Some_2 (Cs (obsModel est)) og) as [Cs0 HCs0]; [lia|].
  destruct (lookup_lt_is_Some_2 (lambda (obsModel est)) og) as [l0 Hl0]; [lia|].
  rewrite (vec_get_Ok _ _ _ HCs0), (vec_get_Ok _ _ _ Hl0). cbn.
  destruct (groupUsed est fs mdts og); [|eauto].
  apply storeValues_Ok. lia.
Qed.

Lemma fitGroup_unused (est : TiltEstimator R) fs mdts optOut og :
  opticsComplete est optOut -> (og < numberOfOpticsGroups (obsModel est))%nat ->
  groupUsed est fs mdts og = false ->
  fitGroup est fs mdts optOut og = Ok optOut.
Proof.
  intros (HCs & Hl & Hrows) Hog Hun. rewrite fitGroup_unfold.
  destruct (lookup_lt_is_Some_2 (Cs (obsModel est)) og) as [Cs0 HCs0]; [lia|].
  destruct (lookup_lt_is_Some_2 (lambda (obsModel est)) og) as [l0 Hl0]; [lia|].
  rewrite (vec_get_Ok _ _ _ HCs0), (vec_get_Ok _ _ _ Hl0). cbn. by rewrite Hun.
Qed.

Lemma opticsComplete_length (est : TiltEstimator R) optOut optOut' :
  length optOut' = length optOut -> opticsComplete est optOut -> opticsComplete est optOut'.
Proof. unfold opticsComplete. intros ->. done. Qed.

Lemma foldM_fitGroup_Ok (est : TiltEstimator R) fs mdts (ogs : list nat) optOut :
  opticsComplete est optOut ->
  Forall (fun og => (og < numberOfOpticsGroups (obsModel est))%nat) ogs ->
  exists optOut', foldM (fitGroup est fs mdts) optOut ogs = Ok optOut'.
Proof.
  revert optOut. induction ogs as [|og ogs IH]; intros optOut Hc Hall; cbn; [eauto|].
  apply Forall_cons in Hall as [Hog Hall].
  destruct (fitGroup_Ok est fs mdts optOut og Hc Hog) as [t1 Ht1]. rewrite Ht1. cbn.
  apply IH; [|done]. eapply opticsComplete_length; [|done]. by eapply fitGroup_length.
Qed.

Lemma foldM_fitGroup_length est fs mdts (ogs : list nat) optOut optOut' :
  foldM (fitGroup est fs mdts) optOut ogs = Ok optOut' -> length optOut' = length optOut.
Proof.
  intros Hrun.
  eapply (foldM_invariant (fun t => length t = length optOut)); [|reflexivity|done].
  intros t og t' _ <- Hstep. by eapply fitGroup_length.
Qed.

(** The loop over the groups [ogs] changes none but fitted columns of
    rows of used groups among [ogs]. *)
Lemma foldM_fitGroup_frame est fs mdts (ogs : list nat) optOut optOut' l r :
  foldM (fitGroup est fs mdts) optOut ogs = Ok optOut' ->
  ¬ (r ∈ ogs /\ groupUsed est fs mdts r = true /\ fittedLabel est l = true) ->
  getValue l r optOut' = getValue l r optOut.
Proof.
  intros Hrun Hne.
  eapply (foldM_invariant (fun t => getValue l r t = getValue l r optOut));
    [|reflexivity|done].
  intros t og t' Hin <- Hstep. eapply fitGroup_frame; [done|].
  intros (-> & ? & ?). naive_solver.
Qed.

(** C9. [parametricFit] keeps the number of rows of the output table, and
    leaves every value of it as it was, except the beam tilt X, the beam
    tilt Y and, with a degree of at least 3, the odd Zernike coefficients
    in the rows of the groups for which some batch has its checkpoint
    pair on disk. *)
Theorem parametricFit_frame (est : TiltEstimator R) (fs : FileSystem R)
    (mdts : list MetaDataTable) (optOut optOut' : MetaDataTable) :
  parametricFit est fs mdts optOut = Ok optOut' ->
  length optOut' = length optOut
  /\ forall (r : nat) (label : EMDLabel),
       ¬ ((r < numberOfOpticsGroups (obsModel est))%nat
          /\ (exists mdt, mdt ∈ mdts
               /\ checkpointExists fs (getOutputFilenameRoot mdt (outPath est))
                    (string_of_int (Z.of_nat r + 1)) = true)
          /\ (label = EMDL_IMAGE_BEAMTILT_X \/ label = EMDL_IMAGE_BEAMTILT_Y
              \/ (label = EMDL_IMAGE_ODD_ZERNIKE_COEFFS /\ 3 <= aberr_n_max est))) ->
       getValue label r optOut' = getValue label r optOut.
Proof.
  unfold parametricFit. destruct (ready est); cbn [negb]; [|discriminate].
  intros Hrun. split; [by eapply foldM_fitGroup_length|].
  intros r label Hout. eapply foldM_fitGroup_frame; [done|].
  intros (Hin & Hused & Hlab). apply Hout.
  apply elem_of_seq in Hin. split; [lia|]. split.
  - by apply groupUsed_true in Hused.
  - unfold fittedLabel in Hlab. destruct label; try discriminate; auto.
    right; right. split; [done|]. by apply Z.leb_le.
Qed.

(** C5. In [parametricFit] the batches without the checkpoint files of a
    group add nothing to its sums; a group no batch has a pair for is
    passed over with the table as it was and without an error; and the
    whole call is the loop over the groups that have a pair. *)
Theorem parametricFit_missing_checkpoints (est : TiltEstimator R) (fs : FileSystem R)
    (mdts : list MetaDataTable) (optOut : MetaDataTable) :
  ready est = true -> opticsComplete est optOut ->
  (forall cns,
      mergeCheckpoints est fs cns mdts
      = mergeCheckpoints est fs cns
          (List.filter (fun mdt =>
             checkpointExists fs (getOutputFilenameRoot mdt (outPath est)) cns) mdts))
  /\ (forall og t,
        (og < numberOfOpticsGroups (obsModel est))%nat -> opticsComplete est t ->
        (forall mdt, mdt ∈ mdts ->
           checkpointExists fs (getOutputFilenameRoot mdt (outPath est))
             (string_of_int (Z.of_nat og + 1)) = false) ->
        fitGroup est fs mdts t og = Ok t)
  /\ parametricFit est fs mdts optOut
     = foldM (fitGroup est fs mdts) optOut
         (List.filter (groupUsed est fs mdts)
            (seq 0 (numberOfOpticsGroups (obsModel est))))
  /\ exists optOut', parametricFit est fs mdts optOut = Ok optOut'.
Proof.
  intros Hready Hc. split; [|split; [|split]].
  - intros cns. unfold mergeCheckpoints. apply foldl_mergeStep_filter.
  - intros og t Hog Hct Hnone. apply fitGroup_unused; [done..|].
    by apply groupUsed_false.
  - unfold parametricFit. rewrite Hready. cbn [negb].
    assert (Hgen : forall ogs t,
               Forall (fun og => (og < numberOfOpticsGroups (obsModel est))%nat) ogs ->
               opticsComplete est t ->
               foldM (fitGroup est fs mdts) t ogs
               = foldM (fitGroup est fs mdts) t (List.filter (groupUsed est fs mdts) ogs)).
    { induction ogs as [|og ogs IH]; intros t Hall Ht; [done|].
      apply Forall_cons in Hall as [Hog Hall]. cbn [foldM List.filter].
      destruct (groupUsed est fs mdts og) eqn:Hu.
      - cbn [foldM]. destruct (fitGroup est fs mdts t og) as [t1| |] eqn:Hs; cbn; [|done..].
        apply IH; [done|]. eapply opticsComplete_length; [|done].
        by eapply fitGroup_length.
      - rewrite fitGroup_unused by done. cbn. by apply IH. }
    apply Hgen; [|done]. apply Forall_forall. intros og Hin%elem_of_seq. lia.
  - unfold parametricFit. rewrite Hready. cbn [negb].
    apply foldM_fitGroup_Ok; [done|].
    apply Forall_forall. intros og Hin%elem_of_seq. lia.
Qed.

End ParametricFit.

Section Branches.

Context {R : Type} `{RFloat R} `{Collaborators R}.

(** The row of a used group after its own round. *)
Lemma fitGroup_used_values est fs mdts optOut optOut' og Cs0 lambda0 :
  Cs (obsModel est) !! og = Some Cs0 ->
  lambda (obsModel est) !! og = Some lambda0 ->
  groupUsed est fs mdts og = true ->
  fitGroup est fs mdts optOut og = Ok optOut' ->
  let sums := mergeCheckpoints est fs (string_of_int (Z.of_nat og + 1)) mdts in
  let phase := getPhase sums.1.1 in
  let wgh := fitMask est og sums.1.2 in
  let xyNrm := normalise est sums.1.1 sums.1.2 in
  (aberr_n_max est < 3 ->
     getValue EMDL_IMAGE_BEAMTILT_X og optOut'
       = Some (MDDouble (planarFit est Cs0 lambda0 phase wgh xyNrm).1)
     /\ getValue EMDL_IMAGE_BEAMTILT_Y og optOut'
       = Some (MDDouble (planarFit est Cs0 lambda0 phase wgh xyNrm).2)
     /\ getValue EMDL_IMAGE_ODD_ZERNIKE_COEFFS og optOut'
       = getValue EMDL_IMAGE_ODD_ZERNIKE_COEFFS og optOut)
  /\ (3 <= aberr_n_max est ->
     getValue EMDL_IMAGE_BEAMTILT_X og optOut'
       = Some (MDDouble (zernikeFit est Cs0 lambda0 wgh xyNrm).1.2)
     /\ getValue EMDL_IMAGE_BEAMTILT_Y og optOut'
       = Some (MDDouble (zernikeFit est Cs0 lambda0 wgh xyNrm).2)
     /\ getValue EMDL_IMAGE_ODD_ZERNIKE_COEFFS og optOut'
       = Some (MDDoubleVector (zernikeFit est Cs0 lambda0 wgh xyNrm).1.1)).
Proof.
  intros HCs Hl Hused. rewrite fitGroup_unfold.
  rewrite (vec_get_Ok _ _ _ HCs), (vec_get_Ok _ _ _ Hl). cbn [bind].
  cbn zeta. rewrite Hused. unfold storeValues, fittedValues.
  intros Hrun. split; intros Hn.
  - destruct (Z.ltb_spec (aberr_n_max est) 3); [|lia]. cbn in Hrun.
    apply bind_Ok in Hrun as (t1 & Hs1 & Hrun).
    apply bind_Ok in Hrun as (t2 & Hs2 & [= <-]).
    split; [|split].
    + rewrite (setValue_frame _ _ _ _ _ _ _ Hs2) by congruence.
      by eapply setValue_same.
    + by eapply setValue_same.
    + rewrite (setValue_frame _ _ _ _ _ _ _ Hs2) by congruence.
      by rewrite (setValue_frame _ _ _ _ _ _ _ Hs1) by congruence.
  - destruct (Z.ltb_spec (aberr_n_max est) 3); [lia|]. cbn in Hrun.
    apply bind_Ok in Hrun as (t1 & Hs1 & Hrun).
    apply bind_Ok in Hrun as (t2 & Hs2 & Hrun).
    apply bind_Ok in Hrun as (t3 & Hs3 & [= <-]).
    split; [|split].
    + rewrite (setValue_frame _ _ _ _ _ _ _ Hs3) by congruence.
      rewrite (setValue_frame _ _ _ _ _ _ _ Hs2) by congruence.
      by eapply setValue_same.
    + rewrite (setValue_frame _ _ _ _ _ _ _ Hs3) by congruence.
      by eapply setValue_same.
    + by eapply setValue_same.
Qed.

(** C1. For a group with a checkpoint pair of some batch, [parametricFit]
    returns a table whose row of the group holds: with a degree below 3,
    the tilt X and Y that [optimizeTilt] returns when started from the
    shift and tilt of [fitTiltShift], the odd Zernike coefficients of the
    row left as they were; with a degree of at least 3, the coefficients
    that [optimiseOddZernike] returns when started from those of
    [fitOddZernike], as [extractTilt] hands them back, and the tilt X and
    Y that [extractTilt] reads off them. *)
Theorem parametricFit_branches (est : TiltEstimator R) (fs : FileSystem R)
    (mdts : list MetaDataTable) (optOut : MetaDataTable)
    (og : nat) (Cs0 lambda0 : float) :
  ready est = true -> opticsComplete est optOut ->
  Cs (obsModel est) !! og = Some Cs0 ->
  lambda (obsModel est) !! og = Some lambda0 ->
  (exists mdt, mdt ∈ mdts
     /\ checkpointExists fs (getOutputFilenameRoot mdt (outPath est))
          (string_of_int (Z.of_nat og + 1)) = true) ->
  let sums := mergeCheckpoints est fs (string_of_int (Z.of_nat og + 1)) mdts in
  let phase := getPhase sums.1.1 in
  let wgh := fitMask est og sums.1.2 in
  let xyNrm := normalise est sums.1.1 sums.1.2 in
  exists optOut', parametricFit est fs mdts optOut = Ok optOut'
  /\ (aberr_n_max est < 3 ->
      exists shift_x shift_y tilt_x tilt_y shift_x' shift_y' tilt_x' tilt_y',
        fitTiltShift phase wgh Cs0 lambda0 (angpix est)
          = (shift_x, shift_y, tilt_x, tilt_y)
        /\ optimizeTilt xyNrm wgh Cs0 lambda0 (angpix est) false
             shift_x shift_y tilt_x tilt_y
          = (shift_x', shift_y', tilt_x', tilt_y')
        /\ getValue EMDL_IMAGE_BEAMTILT_X og optOut' = Some (MDDouble tilt_x')
        /\ getValue EMDL_IMAGE_BEAMTILT_Y og optOut' = Some (MDDouble tilt_y')
        /\ getValue EMDL_IMAGE_ODD_ZERNIKE_COEFFS og optOut'
           = getValue EMDL_IMAGE_ODD_ZERNIKE_COEFFS og optOut)
  /\ (3 <= aberr_n_max est ->
      exists Zernike_coeffs_opt tilt_x tilt_y,
        extractTilt
          (optimiseOddZernike xyNrm wgh (angpix est) (aberr_n_max est)
             (fitOddZernike xyNrm wgh (angpix est) (aberr_n_max est)))
          0%float 0%float Cs0 lambda0
          = (Zernike_coeffs_opt, tilt_x, tilt_y)
        /\ getValue EMDL_IMAGE_BEAMTILT_X og optOut' = Some (MDDouble tilt_x)
        /\ getValue EMDL_IMAGE_BEAMTILT_Y og optOut' = Some (MDDouble tilt_y)
        /\ getValue EMDL_IMAGE_ODD_ZERNIKE_COEFFS og optOut'
           = Some (MDDoubleVector Zernike_coeffs_opt)).
Proof.
  intros Hready Hc HCs Hl Hex sums phase wgh xyNrm.
  assert (Hused : groupUsed est fs mdts og = true) by (by apply groupUsed_true).
  assert (Hog : (og < numberOfOpticsGroups (obsModel est))%nat).
  { destruct Hc as (<- & _). by eapply lookup_lt_Some. }
  set (ogc := numberOfOpticsGroups (obsModel est)) in *.
  unfold parametricFit. rewrite Hready. cbn [negb]. fold ogc.
  assert (Hsplit : seq 0 ogc = ((seq 0 og ++ [og]) ++ seq (S og) (ogc - S og))%list).
  { change [og] with (seq (0 + og) 1).
    rewrite <- seq_app. change (S og) with (S (0 + og)).
    replace (S (0 + og)) with (0 + (og + 1))%nat by lia.
    rewrite <- seq_app. f_equal. lia. }
  assert (Hbound : forall a n, (a + n <= ogc)%nat ->
            Forall (fun og => (og < ogc)%nat) (seq a n)).
  { intros a n Han. apply Forall_forall. intros k Hk%elem_of_seq. lia. }
  rewrite Hsplit, !foldM_app.
  destruct (foldM_fitGroup_Ok est fs mdts (seq 0 og) optOut Hc) as [t0 Ht0];
    [apply Hbound; lia|].
  rewrite Ht0. cbn [bind foldM].
  assert (Hc0 : opticsComplete est t0).
  { eapply opticsComplete_length; [|done]. by eapply foldM_fitGroup_length. }
  destruct (fitGroup_Ok est fs mdts t0 og Hc0 Hog) as [t1 Ht1]. rewrite Ht1. cbn [bind].
  assert (Hc1 : opticsComplete est t1).
  { eapply opticsComplete_length; [|done]. by eapply fitGroup_length. }
  destruct (foldM_fitGroup_Ok est fs mdts (seq (S og) (ogc - S og)) t1 Hc1) as [t2 Ht2];
    [apply Hbound; lia|].
  rewrite Ht2. exists t2. split; [done|].
  assert (Hafter : forall l, getValue l og t2 = getValue l og t1).
  { intros l. eapply foldM_fitGroup_frame; [done|].
    intros (Hin%elem_of_seq & _). lia. }
  assert (Hbefore : forall l, getValue l og t0 = getValue l og optOut).
  { intros l. eapply foldM_fitGroup_frame; [done|].
    intros (Hin%elem_of_seq & _). lia. }
  destruct (fitGroup_used_values est fs mdts t0 t1 og Cs0 lambda0 HCs Hl Hused Ht1)
    as [Hlow Hhigh].
  fold sums phase wgh xyNrm in Hlow, Hhigh.
  split; intros Hn.
  - destruct (Hlow Hn) as (HX & HY & HZ). unfold planarFit in HX, HY.
    destruct (fitTiltShift phase wgh Cs0 lambda0 (angpix est))
      as [[[sx sy] tx] ty] eqn:Hlin.
    destruct (optimizeTilt xyNrm wgh Cs0 lambda0 (angpix est) false sx sy tx ty)
      as [[[sx' sy'] tx'] ty'] eqn:Hopt.
    exists sx, sy, tx, ty, sx', sy', tx', ty'.
    rewrite !Hafter, HX, HY, HZ, Hbefore. done.
  - destruct (Hhigh Hn) as (HX & HY & HZ). unfold zernikeFit in HX, HY, HZ.
    destruct (extractTilt _ _ _ _ _) as [[c tx] ty] eqn:Hext.
    exists c, tx, ty. rewrite !Hafter, HX, HY, HZ. done.
Qed.

End Branches.

(** * File names *)

Lemma append_assoc (a b c : string) : (a +:+ b) +:+ c = a +:+ (b +:+ c).
Proof.
  induction a as [|ch a IH]; [reflexivity|].
  change (String ch ((a +:+ b) +:+ c) = String ch (a +:+ (b +:+ c))). by f_equal.
Qed.

Lemma ComplexIO_writes_names {R} (img : Image (Complex R)) (outRoot ogs : string) :
  ComplexIO_writes img ((outRoot +:+ "_xyAcc_optics-class_") +:+ ogs) ".mrc"
  = [ (xyAccRealName outRoot ogs, realPart img);
      (xyAccImagName outRoot ogs, imagPart img) ].
Proof.
  unfold ComplexIO_writes, xyAccRealName, xyAccImagName.
  by rewrite !(append_assoc _ "_real" ".mrc"), !(append_assoc _ "_imag" ".mrc").
Qed.

(** * Loops that collect *)

Lemma foldM_collect {B X} (g : B -> result (list X)) (l : list B) (init ops : list X) :
  foldM (fun ops b => let* w := g b in Ok (ops ++ w)%list) init l = Ok ops <->
  exists ws, Forall2 (fun b w => g b = Ok w) l ws /\ ops = (init ++ mjoin ws)%list.
Proof.
  revert init. induction l as [|b l IH]; intros init; cbn [foldM].
  - split.
    + intros [= <-]. exists []. split; [constructor|]. cbn. by rewrite app_nil_r.
    + intros (ws & Hws & ->). inversion Hws; subst. cbn. by rewrite app_nil_r.
  - split.
    + intros (ops1 & Hg & Hrun)%bind_Ok.
      apply bind_Ok in Hg as (w & Hg & [= <-]).
      apply IH in Hrun as (ws & Hws & ->).
      exists (w :: ws). split; [by constructor|]. cbn. by rewrite app_assoc.
    + intros (ws & Hws & ->). inversion Hws as [|? w ? ws' Hg Hws']; subst.
      rewrite Hg. cbn [bind]. apply IH. exists ws'. split; [done|].
      cbn. by rewrite app_assoc.
Qed.

(** * Written files exist *)

Lemma applyWrites_cons {R} (fs : FileSystem R) (fn : string) (img : Image R)
    (ops : list (string * Image R)) :
  applyWrites fs ((fn, img) :: ops) = applyWrites (<[fn := img]> fs) ops.
Proof. reflexivity. Qed.

Lemma applyWrites_keeps {R} (fs : FileSystem R) (ops : list (string * Image R)) (fn : string) :
  is_Some (fs !! fn) -> is_Some (applyWrites fs ops !! fn).
Proof.
  revert fs. induction ops as [|[fn' img] ops IH]; intros fs Hfs; [done|].
  rewrite applyWrites_cons. apply IH.
  destruct (decide (fn' = fn)) as [->|Hne].
  - rewrite lookup_insert_eq. eauto.
  - by rewrite lookup_insert_ne.
Qed.

Lemma applyWrites_written {R} (fs : FileSystem R) (ops : list (string * Image R)) (fn : string) :
  fn ∈ ops.*1 -> is_Some (applyWrites fs ops !! fn).
Proof.
  revert fs. induction ops as [|[fn' img] ops IH]; intros fs Hin.
  - by apply elem_of_nil in Hin.
  - rewrite applyWrites_cons. cbn in Hin. apply elem_of_cons in Hin as [->|Hin].
    + apply applyWrites_keeps. rewrite lookup_insert_eq. eauto.
    + by apply IH.
Qed.

(** A file no write names is left as it was. *)
Lemma applyWrites_other {R} (fs : FileSystem R) (ops : list (string * Image R)) (fn : string) :
  fn ∉ ops.*1 -> applyWrites fs ops !! fn = fs !! fn.
Proof.
  revert fs. induction ops as [|[fn' img] ops IH]; intros fs Hin; [done|].
  cbn in Hin. apply not_elem_of_cons in Hin as [Hne Hin].
  rewrite applyWrites_cons, IH by done. by rewrite lookup_insert_ne.
Qed.

(** The groups [getOptGroupsPresent] returns are those some particle of the
    table has. *)
Lemma optGroupsPresent_spec (om : ObservationModel) (mdt : MetaDataTable) (og : Z) :
  og ∈ getOptGroupsPresent om mdt <-> exists p, getOpticsGroup mdt p = Some og.
Proof.
  unfold getOptGroupsPresent, getOpticsGroup.
  rewrite elem_of_remove_dups, list_elem_of_omap. split.
  - intros (row & Hin & Hog). apply list_elem_of_lookup in Hin as [p Hp].
    exists p. by rewrite Hp.
  - intros (p & Hp). destruct (mdt !! p) as [row|] eqn:Hrow; [|discriminate].
    exists row. split; [by eapply list_elem_of_lookup_2|done].
Qed.

Section Writes.

Context {R : Type} `{RFloat R} `{Collaborators R}.

Lemma groupWrites_Ok_inv est mdt optGroups cc acc ci w :
  groupWrites est mdt optGroups cc acc ci = Ok w ->
  exists sums og,
    optGroups !! ci = Some og
    /\ sumThreads est cc ci acc = Ok sums
    /\ w = checkpointFiles (getOutputFilenameRoot mdt (outPath est)) og sums.
Proof.
  unfold groupWrites. intros (sums & Hsum & Hrun)%bind_Ok.
  apply bind_Ok in Hrun as (og & Hog & [= <-]).
  apply vec_get_Ok_inv in Hog as [_ Hog]. rewrite Nat2Z.id in Hog.
  exists sums, og. split; [done|]. split; [done|].
  unfold checkpointFiles, xyAccRealName, xyAccImagName.
  by rewrite !(append_assoc _ "_real" ".mrc"), !(append_assoc _ "_imag" ".mrc").
Qed.

Lemma groupWrites_Ok est mdt optGroups cc acc ci sums og :
  optGroups !! ci = Some og ->
  sumThreads est cc ci acc = Ok sums ->
  groupWrites est mdt optGroups cc acc ci
  = Ok (checkpointFiles (getOutputFilenameRoot mdt (outPath est)) og sums).
Proof.
  intros Hog Hsum. unfold groupWrites. rewrite Hsum. cbn [bind].
  rewrite (vec_get_Ok _ _ _ Hog). cbn [bind].
  unfold checkpointFiles. by rewrite ComplexIO_writes_names.
Qed.

(** What a successful call has written: for every group present, in
    order, the three files of its pair. *)
Lemma checkpointWrites_Ok_inv est sched mdt obs pred ops :
  checkpointWrites est sched mdt obs pred = Ok ops ->
  exists sums : list (Image (Complex R) * Image R),
    length sums = length (getOptGroupsPresent (obsModel est) mdt)
    /\ ops = mjoin (zip_with (checkpointFiles (getOutputFilenameRoot mdt (outPath est)))
                       (getOptGroupsPresent (obsModel est) mdt) sums).
Proof.
  unfold checkpointWrites. intros (acc & _ & Hrun)%bind_Ok.
  apply foldM_collect in Hrun as (ws & Hws & ->). cbn [app].
  set (optGroups := getOptGroupsPresent (obsModel est) mdt) in *.
  assert (Hgen : forall (l : list Z) k ws,
             (forall j og, l !! j = Some og -> optGroups !! (k + j)%nat = Some og) ->
             Forall2 (fun ci w => groupWrites est mdt optGroups (length optGroups) acc ci = Ok w)
               (seq k (length l)) ws ->
             exists sums, length sums = length l
               /\ mjoin ws
                  = mjoin (zip_with (checkpointFiles (getOutputFilenameRoot mdt (outPath est)))
                              l sums)).
  { induction l as [|og l IH]; intros k ws' Hl Hws'; cbn in Hws'.
    - inversion Hws'; subst. by exists [].
    - inversion Hws' as [|? w ? ws'' Hw Hrest]; subst.
      apply groupWrites_Ok_inv in Hw as (sums & og' & Hog' & _ & ->).
      specialize (Hl 0%nat og eq_refl) as Hog. rewrite Nat.add_0_r in Hog.
      assert (og' = og) as -> by congruence.
      destruct (IH (S k) ws'') as (sumsl & Hlen & Heq); [|done|].
      { intros j og'' Hj. replace (S k + j)%nat with (k + S j)%nat by lia.
        by apply Hl. }
      exists (sums :: sumsl). split; [cbn; by rewrite Hlen|].
      change (mjoin (?w :: ws'')) with (w ++ mjoin ws'')%list. rewrite Heq. done. }
  apply (Hgen optGroups 0%nat ws); [done|done].
Qed.

(** After [processMicrograph] the pair of every group present is
    complete. *)
Lemma processMicrograph_complete est sched g mdt obs pred fs fs' og :
  processMicrograph est sched g mdt obs pred fs = Ok fs' ->
  og ∈ getOptGroupsPresent (obsModel est) mdt ->
  checkpointExists fs' (getOutputFilenameRoot mdt (outPath est)) (string_of_int og) = true.
Proof.
  unfold processMicrograph. destruct (ready est); cbn [negb]; [|discriminate].
  intros (ops & Hops & [= <-])%bind_Ok Hin.
  apply checkpointWrites_Ok_inv in Hops as (sums & Hlen & ->).
  apply list_elem_of_lookup in Hin as [ci Hci].
  destruct (lookup_lt_is_Some_2 sums ci) as [sm Hsm].
  { rewrite Hlen. by eapply lookup_lt_Some. }
  set (root := getOutputFilenameRoot mdt (outPath est)).
  assert (Hfiles : forall op, op ∈ checkpointFiles root og sm ->
            op.1 ∈ (mjoin (zip_with (checkpointFiles root)
                              (getOptGroupsPresent (obsModel est) mdt) sums)).*1).
  { intros op Hop. apply list_elem_of_fmap. exists op. split; [done|].
    apply list_elem_of_join. exists (checkpointFiles root og sm). split; [done|].
    apply list_elem_of_lookup. exists ci. rewrite lookup_zip_with, Hci. cbn. by rewrite Hsm. }
  unfold checkpointExists, exists_.
  rewrite !bool_decide_eq_true_2; [done|..];
    apply applyWrites_written;
    [ apply (Hfiles (wAccName root (string_of_int og), sm.2))
    | apply (Hfiles (xyAccImagName root (string_of_int og), imagPart sm.1))
    | apply (Hfiles (xyAccRealName root (string_of_int og), realPart sm.1)) ];
    unfold checkpointFiles; cbn [fst snd];
    [ do 2 right; left | right; left | left ].
Qed.

Lemma allGroupsDone_spec (fs : FileSystem R) (outRoot : string) (ogp : list Z) :
  allGroupsDone fs outRoot ogp = true <->
  forall og, og ∈ ogp -> checkpointExists fs outRoot (string_of_int og) = true.
Proof.
  induction ogp as [|og ogp IH]; cbn [allGroupsDone].
  - split; [|done]. intros _ og Hin. by apply elem_of_nil in Hin.
  - fold (xyAccRealName outRoot (string_of_int og)).
    fold (xyAccImagName outRoot (string_of_int og)).
    fold (wAccName outRoot (string_of_int og)).
    assert (Hc : checkpointExists fs outRoot (string_of_int og)
                 = negb (negb (exists_ fs (xyAccRealName outRoot (string_of_int og)))
                         || negb (exists_ fs (xyAccImagName outRoot (string_of_int og)))
                         || negb (exists_ fs (wAccName outRoot (string_of_int og))))).
    { unfold checkpointExists.
      by destruct (exists_ fs _), (exists_ fs _), (exists_ fs _). }
    destruct (negb _ || negb _ || negb _) eqn:Hany; cbn in Hc.
    + split; [discriminate|]. intros Hall.
      rewrite (Hall og) in Hc by left. discriminate.
    + rewrite IH. split.
      * intros Hall og' [->|Hin]%elem_of_cons; auto.
      * intros Hall og' Hin. apply Hall. by right.
Qed.

(** C4. Once initialised, [isFinished] returns, and it returns true
    exactly when, for every optics group some particle of the batch has,
    the real part, the imaginary part and the weight file of the
    checkpoint pair exist under the output root of the batch; it returns
    true on the file system [processMicrograph] leaves after that
    batch. *)
Theorem isFinished_spec (est : TiltEstimator R) (fs : FileSystem R) (mdt : MetaDataTable) :
  ready est = true ->
  (exists b, isFinished est fs mdt = Ok b)
  /\ (isFinished est fs mdt = Ok true <->
      forall p og, getOpticsGroup mdt p = Some og ->
        let outRoot := getOutputFilenameRoot mdt (outPath est) in
        exists_ fs (xyAccRealName outRoot (string_of_int og)) = true
        /\ exists_ fs (xyAccImagName outRoot (string_of_int og)) = true
        /\ exists_ fs (wAccName outRoot (string_of_int og)) = true)
  /\ (forall sched g obs pred fs',
        processMicrograph est sched g mdt obs pred fs = Ok fs' ->
        isFinished est fs' mdt = Ok true).
Proof.
  intros Hready. unfold isFinished. rewrite Hready. cbn [negb].
  split; [eauto|]. split.
  - split.
    + intros [= Hdone]. intros p og Hp. cbn zeta.
      assert (Hin : og ∈ getOptGroupsPresent (obsModel est) mdt)
        by (apply optGroupsPresent_spec; eauto).
      pose proof (proj1 (allGroupsDone_spec _ _ _) Hdone og Hin) as Hc.
      unfold checkpointExists in Hc. apply andb_true_iff in Hc as [Hc ?].
      apply andb_true_iff in Hc as [? ?]. done.
    + intros Hall. f_equal. apply allGroupsDone_spec. intros og Hin.
      apply optGroupsPresent_spec in Hin as [p Hp].
      destruct (Hall p og Hp) as (Hr & Hi & Hw). cbn zeta in *.
      unfold checkpointExists. by rewrite Hr, Hi, Hw.
  - intros sched g obs pred fs' Hrun. f_equal. apply allGroupsDone_spec.
    intros og Hin. by eapply processMicrograph_complete.
Qed.

End Writes.

Lemma vec_get_Ok_Z {A} (v : list A) (i : Z) (a : A) :
  0 <= i -> v !! Z.to_nat i = Some a -> vec_get v i = Ok a.
Proof. intros Hi Hl. rewrite <- (Z2Nat.id i) by done. by apply vec_get_Ok. Qed.

Lemma vec_set_Ok_Z {A} (v : list A) (i : Z) (a : A) :
  0 <= i -> (Z.to_nat i < length v)%nat -> vec_set v i a = Ok (<[Z.to_nat i := a]> v).
Proof.
  intros Hi Hl. rewrite <- (Z2Nat.id i) at 1 by done. by apply vec_set_Ok.
Qed.

(** After the loop that fills it, [groupToIndex] maps every group of
    [optGroups] to its position. *)
Lemma fillGroupToIndex_spec (optGroups : list Z) :
  forall (i : nat) (groupToIndex : list Z),
    NoDup optGroups ->
    Forall (fun og => 0 <= og < Z.of_nat (length groupToIndex)) optGroups ->
    exists groupToIndex',
      fillGroupToIndex i optGroups groupToIndex = Ok groupToIndex'
      /\ length groupToIndex' = length groupToIndex
      /\ (forall j og, optGroups !! j = Some og ->
            groupToIndex' !! Z.to_nat og = Some (Z.of_nat (i + j)))
      /\ (forall k, (forall og, og ∈ optGroups -> Z.to_nat og ≠ k) ->
            groupToIndex' !! k = groupToIndex !! k).
Proof.
  induction optGroups as [|og rest IH]; intros i gti Hnd Hall; cbn [fillGroupToIndex].
  - exists gti. split; [done|]. split; [done|]. split; [|done].
    intros j og Hj. by rewrite lookup_nil in Hj.
  - apply NoDup_cons in Hnd as [Hnin Hnd]. apply Forall_cons in Hall as [Hog Hall].
    rewrite vec_set_Ok_Z by lia. cbn [bind].
    destruct (IH (S i) (<[Z.to_nat og := Z.of_nat i]> gti) Hnd) as (gti' & Hrun & Hlen & Hat & Hother).
    { by rewrite length_insert. }
    exists gti'. split; [done|]. split; [by rewrite Hlen, length_insert|]. split.
    + intros [|j] og' Hj; cbn in Hj.
      * inversion Hj; subst og'. rewrite Hother.
        -- rewrite Nat.add_0_r. apply list_lookup_insert_eq. lia.
        -- intros og' Hin Heq. apply Hnin.
           assert (0 <= og') by (rewrite Forall_forall in Hall; apply (Hall og' Hin)).
           assert (og' = og) as -> by lia. done.
      * rewrite (Hat j og' Hj). do 2 f_equal. lia.
    + intros k Hk. rewrite Hother.
      * apply list_lookup_insert_ne. apply Hk. left.
      * intros og' Hin. apply Hk. by right.
Qed.

Section Accumulate.

Context {R : Type} `{RFloat R} `{Collaborators R}.

Variable est : TiltEstimator R.
Variable mdt : MetaDataTable.
Variables obs pred : list (Image (Complex R)).

Let optGroups := getOptGroupsPresent (obsModel est) mdt.
Let cc := length optGroups.
Let nr := nr_omp_threads est.

Lemma optGroups_NoDup : NoDup optGroups.
Proof. apply NoDup_remove_dups. Qed.

Lemma getOpticsGroup_present p og :
  getOpticsGroup mdt p = Some og -> og ∈ optGroups.
Proof.
  unfold getOpticsGroup. destruct (mdt !! p) as [row|] eqn:Hrow; [|discriminate].
  cbn. intros Hog. apply elem_of_remove_dups, list_elem_of_omap.
  exists row. split; [|done]. by eapply list_elem_of_lookup_2.
Qed.

Lemma slotIndex_lt t ci : (t < nr)%nat -> (ci < cc)%nat -> (cc * t + ci < nr * cc)%nat.
Proof. intros. nia. Qed.

Lemma slotIndex_inj t ci t' ci' :
  (ci < cc)%nat -> (ci' < cc)%nat ->
  (cc * t + ci = cc * t' + ci')%nat -> t = t' /\ ci = ci'.
Proof.
  intros Hci Hci' Heq.
  assert (t = t') as ->.
  { destruct (Nat.lt_trichotomy t t') as [Hlt|[Heq'|Hlt]]; [|done|].
    - assert (cc * t + cc <= cc * t')%nat by nia. lia.
    - assert (cc * t' + cc <= cc * t)%nat by nia. lia. }
  split; [done|lia].
Qed.

Lemma particleStep_Ok groupToIndex (acc : @Accumulators R) p t og ci :
  indexed est mdt groupToIndex ->
  runnable est mdt obs pred (p, t) ->
  getOpticsGroup mdt p = Some og -> optGroups !! ci = Some og ->
  length acc.1 = (nr * cc)%nat -> length acc.2 = (nr * cc)%nat ->
  particleStep est mdt obs pred groupToIndex cc acc (p, t)
  = Ok (<[(cc * t + ci)%nat :=
            img_add (acc.1 !!! (cc * t + ci)%nat) (particleContribution est mdt obs pred p).1]> acc.1,
        <[(cc * t + ci)%nat :=
            img_add (acc.2 !!! (cc * t + ci)%nat) (particleContribution est mdt obs pred p).2]> acc.2).
Proof.
  intros Hgti (Ht & Hpred & Hobs & _) Hog Hci Hl1 Hl2. cbn in Ht, Hpred, Hobs.
  destruct (Hgti ci og Hci) as [Hog0 Hidx].
  assert (Hcc : (ci < cc)%nat) by (by eapply lookup_lt_Some).
  pose proof (slotIndex_lt t ci Ht Hcc) as Hlt.
  unfold particleStep. cbn [fst snd]. rewrite Hog. cbn [bind].
  rewrite (vec_get_Ok_Z _ _ _ Hog0 Hidx). cbn [bind].
  rewrite (vec_get_Ok pred p (pred !!! p)) by (by apply list_lookup_lookup_total_lt).
  rewrite (vec_get_Ok obs p (obs !!! p)) by (by apply list_lookup_lookup_total_lt).
  cbn [bind].
  replace (Z.of_nat cc * Z.of_nat t + Z.of_nat ci) with (Z.of_nat (cc * t + ci)) by lia.
  rewrite (vec_get_Ok acc.1 _ (acc.1 !!! (cc * t + ci)%nat))
    by (apply list_lookup_lookup_total_lt; lia).
  rewrite (vec_get_Ok acc.2 _ (acc.2 !!! (cc * t + ci)%nat))
    by (apply list_lookup_lookup_total_lt; lia).
  cbn [bind]. rewrite !vec_set_Ok by lia. cbn [bind]. done.
Qed.

(** The accumulators after the parallel loop: each holds what it held
    before plus, in schedule order, the contributions of the particles
    its thread ran for its group. *)
Lemma particleLoop_spec groupToIndex (sched : list (nat * nat)) :
  indexed est mdt groupToIndex ->
  Forall (runnable est mdt obs pred) sched ->
  forall acc : @Accumulators R,
    length acc.1 = (nr * cc)%nat -> length acc.2 = (nr * cc)%nat ->
    exists acc',
      foldM (particleStep est mdt obs pred groupToIndex cc) acc sched = Ok acc'
      /\ length acc'.1 = (nr * cc)%nat /\ length acc'.2 = (nr * cc)%nat
      /\ forall t ci og, (t < nr)%nat -> optGroups !! ci = Some og ->
           slot acc' (cc * t + ci)
           = foldl addContribution (slot acc (cc * t + ci))
               (particleContribution est mdt obs pred <$> (slotEntries mdt t og sched).*1).
Proof.
  intros Hgti. induction sched as [|[p t0] sched IH]; intros Hrun acc Hl1 Hl2.
  - exists acc. cbn. done.
  - apply Forall_cons in Hrun as [Hpt Hrun].
    destruct Hpt as (Ht0 & Hpred & Hobs & [og0 Hog0]).
    cbn [fst snd] in Ht0, Hpred, Hobs, Hog0.
    destruct (proj1 (list_elem_of_lookup _ _) (getOpticsGroup_present _ _ Hog0)) as [ci0 Hci0].
    assert (Hcc0 : (ci0 < cc)%nat) by (by eapply lookup_lt_Some).
    cbn [foldM].
    rewrite (particleStep_Ok groupToIndex acc p t0 og0 ci0);
      [|done|by repeat split; eauto|done..].
    cbn [bind].
    set (c := particleContribution est mdt obs pred p).
    set (acc1 := (<[(cc * t0 + ci0)%nat := img_add (acc.1 !!! (cc * t0 + ci0)%nat) c.1]> acc.1,
                  <[(cc * t0 + ci0)%nat := img_add (acc.2 !!! (cc * t0 + ci0)%nat) c.2]> acc.2)).
    destruct (IH Hrun acc1) as (acc' & Hloop & Hl1' & Hl2' & Hslots).
    { subst acc1. cbn. by rewrite length_insert. }
    { subst acc1. cbn. by rewrite length_insert. }
    exists acc'. split; [done|]. split; [done|]. split; [done|].
    intros t ci og Ht Hci. rewrite (Hslots t ci og Ht Hci).
    assert (Hcc : (ci < cc)%nat) by (by eapply lookup_lt_Some).
    pose proof (slotIndex_lt t0 ci0 Ht0 Hcc0) as Hlt0.
    unfold slotEntries.
    destruct (decide (t0 = t /\ og0 = og)) as [[-> ->]|Hne].
    + assert (ci0 = ci) as -> by (by eapply NoDup_lookup; [apply optGroups_NoDup|..]).
      rewrite filter_cons_True by done. cbn [fmap list_fmap foldl fst].
      f_equal. unfold slot, addContribution, acc1. cbn [fst snd].
      by rewrite !list_lookup_total_insert_eq by lia.
    + rewrite filter_cons_False
        by (intros [Ht' Hg]; cbn in Ht', Hg; rewrite Hog0 in Hg; naive_solver).
      f_equal. unfold slot, acc1. cbn [fst snd].
      assert ((cc * t0 + ci0)%nat ≠ (cc * t + ci)%nat).
      { intros Heq. apply slotIndex_inj in Heq as [-> ->]; [|done..].
        apply Hne. split; [done|]. congruence. }
      by rewrite !list_lookup_total_insert_ne.
Qed.

End Accumulate.

(** * No fatal error but the one reported *)

Lemma noReport_bind {A B} (r : result A) (k : A -> result B) :
  noReport r -> (forall a, noReport (k a)) -> noReport (bind r k).
Proof.
  intros Hr Hk msg. destruct r as [a|msg0|]; cbn; [apply Hk| |done].
  by destruct (Hr msg0).
Qed.

Lemma noReport_foldM {A B} (f : A -> B -> result A) (l : list B) :
  (forall a b, noReport (f a b)) -> forall a, noReport (foldM f a l).
Proof.
  intros Hf. induction l as [|b l IH]; intros a; cbn; [done|].
  by apply noReport_bind.
Qed.

Lemma noReport_vec_get {A} (v : list A) (i : Z) : noReport (vec_get v i).
Proof. intros msg. unfold vec_get. by repeat case_match. Qed.

Section Totality.

Context {R : Type} `{RFloat R} `{Collaborators R}.

Lemma sumThreads_Ok est cc ci (acc : @Accumulators R) :
  length acc.1 = (nr_omp_threads est * cc)%nat ->
  length acc.2 = (nr_omp_threads est * cc)%nat ->
  (ci < cc)%nat ->
  sumThreads est cc ci acc = Ok (mergedSums est cc ci acc).
Proof.
  intros Hl1 Hl2 Hci. unfold sumThreads, mergedSums.
  assert (Hts : Forall (fun t => (t < nr_omp_threads est)%nat) (seq 0 (nr_omp_threads est))).
  { apply Forall_forall. intros t Ht%elem_of_seq. lia. }
  revert Hts. generalize (seq 0 (nr_omp_threads est)) as ts.
  generalize (Image_new (T:=Complex R) (sh est) (s est), Image_new (T:=R) (sh est) (s est)).
  intros init ts. revert init. induction ts as [|t ts IH]; intros init Hts; [done|].
  apply Forall_cons in Hts as [Ht Hts]. cbn [foldM foldl].
  assert (Hlt : (cc * t + ci < nr_omp_threads est * cc)%nat) by nia.
  replace (Z.of_nat cc * Z.of_nat t + Z.of_nat ci) with (Z.of_nat (cc * t + ci)) by lia.
  rewrite (vec_get_Ok acc.1 _ (acc.1 !!! (cc * t + ci)%nat))
    by (apply list_lookup_lookup_total_lt; lia).
  rewrite (vec_get_Ok acc.2 _ (acc.2 !!! (cc * t + ci)%nat))
    by (apply list_lookup_lookup_total_lt; lia).
  cbn [bind]. by apply IH.
Qed.

Variable est : TiltEstimator R.
Variable mdt : MetaDataTable.
Variables obs pred : list (Image (Complex R)).

Lemma validSchedule_runnable sched :
  batchIndexable est mdt obs pred -> validSchedule est mdt sched ->
  Forall (runnable est mdt obs pred) sched.
Proof.
  intros (Hog & Hobs & Hpred & _) [Hperm Hthr].
  apply Forall_forall. intros pt Hin.
  assert (Hp : (pt.1 < numberOfObjects mdt)%nat).
  { assert (Hin1 : pt.1 ∈ sched.*1) by (by apply list_elem_of_fmap_2).
    rewrite Hperm in Hin1. apply elem_of_seq in Hin1. lia. }
  rewrite Forall_forall in Hthr. unfold runnable.
  split; [by apply Hthr|]. split; [lia|]. split; [lia|]. by apply Hog.
Qed.

(** On an indexable batch the loops of [processMicrograph] stay within
    their vectors: the accumulators come out as [particleLoop_spec] says
    and the files written are those of the sums over the threads. *)
Lemma checkpointWrites_Ok sched :
  let optGroups := getOptGroupsPresent (obsModel est) mdt in
  let cc := length optGroups in
  batchIndexable est mdt obs pred -> validSchedule est mdt sched ->
  exists acc : @Accumulators R,
    (forall t ci og, (t < nr_omp_threads est)%nat -> optGroups !! ci = Some og ->
       slot acc (cc * t + ci)
       = foldl addContribution
           (initZeros (Image_new (sh est) (s est)), initZeros (Image_new (sh est) (s est)))
           (particleContribution est mdt obs pred <$> (slotEntries mdt t og sched).*1))
    /\ checkpointWrites est sched mdt obs pred
       = Ok (mjoin ((fun ci => checkpointFiles (getOutputFilenameRoot mdt (outPath est))
                                 (optGroups !!! ci) (mergedSums est cc ci acc))
                      <$> seq 0 cc)).
Proof.
  intros optGroups cc Hbatch Hsched.
  subst cc optGroups.
  pose proof (validSchedule_runnable sched Hbatch Hsched) as Hrun.
  destruct Hbatch as (_ & _ & _ & Hrange).
  destruct (fillGroupToIndex_spec (getOptGroupsPresent (obsModel est) mdt) 0
              (replicate (numberOfOpticsGroups (obsModel est) + 1) (-1)))
    as (gti & Hfill & _ & Hat & _).
  { apply optGroups_NoDup. }
  { rewrite length_replicate. eapply Forall_impl; [exact Hrange|]. cbn. lia. }
  assert (Hgti : indexed est mdt gti).
  { intros ci og Hci. split.
    - rewrite Forall_forall in Hrange. apply (Hrange og).
      by eapply list_elem_of_lookup_2.
    - by rewrite (Hat ci og Hci). }
  destruct (particleLoop_spec est mdt obs pred gti sched Hgti Hrun
              (newAccumulators est (length (getOptGroupsPresent (obsModel est) mdt)))) as (acc & Hloop & Hl1 & Hl2 & Hslots).
  { unfold newAccumulators. cbn. apply length_replicate. }
  { unfold newAccumulators. cbn. apply length_replicate. }
  exists acc. split.
  - intros t ci og Ht Hci. rewrite (Hslots t ci og Ht Hci). f_equal.
    assert (Hcc : (ci < length (getOptGroupsPresent (obsModel est) mdt))%nat) by (by eapply lookup_lt_Some).
    unfold slot, newAccumulators. cbn [fst snd].
    by rewrite !lookup_total_replicate_2 by nia.
  - unfold checkpointWrites, accumulate.
    rewrite Hfill. cbn [bind]. rewrite Hloop. cbn [bind].
    apply foldM_collect. eexists. split; [|reflexivity].
    apply Forall2_fmap_r, Forall_Forall2_diag, Forall_forall.
    intros ci Hci%elem_of_seq.
    apply groupWrites_Ok.
    + apply list_lookup_lookup_total_lt. lia.
    + apply sumThreads_Ok; [done..|lia].
Qed.

End Totality.

(** * The threads partition the schedule *)

Lemma foldl_ext_Forall {A B} (f g : A -> B -> A) (a : A) (l : list B) :
  Forall (fun b => forall a, f a b = g a b) l -> foldl f a l = foldl g a l.
Proof.
  revert a. induction l as [|b l IH]; intros a Hall; [done|].
  apply Forall_cons in Hall as [Hb Hall]. cbn. rewrite Hb. by apply IH.
Qed.

Lemma filter_lt_succ {A} (key : A -> nat) (n : nat) (l : list A) :
  (filter (fun a => (key a < n)%nat) l ++ filter (fun a => key a = n) l)%list
  ≡ₚ filter (fun a => (key a < S n)%nat) l.
Proof.
  induction l as [|a l IH]; [done|].
  rewrite !filter_cons.
  destruct (decide (key a < n)%nat), (decide (key a = n)), (decide (key a < S n)%nat);
    try lia; cbn.
  - by rewrite IH.
  - rewrite <- Permutation_middle. by rewrite IH.
  - done.
Qed.

Lemma threads_partition {A} (key : A -> nat) (n : nat) (l : list A) :
  Forall (fun a => (key a < n)%nat) l ->
  seq 0 n ≫= (fun t => filter (fun a => key a = t) l) ≡ₚ l.
Proof.
  intros Hall.
  assert (Hgen : forall k, seq 0 k ≫= (fun t => filter (fun a => key a = t) l)
                           ≡ₚ filter (fun a => (key a < k)%nat) l).
  { induction k as [|k IH].
    - cbn. induction l as [|a l IHl]; [done|].
      rewrite filter_cons_False by lia. apply IHl. by apply Forall_cons in Hall as [_ ?].
    - rewrite seq_S, bind_app, IH. cbn. rewrite app_nil_r. apply filter_lt_succ. }
  rewrite Hgen. clear Hgen.
  induction l as [|a l IH]; [done|]. apply Forall_cons in Hall as [Ha Hall].
  rewrite filter_cons_True by done. by rewrite IH.
Qed.

(** * The zero image *)

Lemma initZeros_new {R T} `{Elem R T} (xd yd : nat) :
  initZeros (Image_new (T:=T) xd yd) = Image_new xd yd.
Proof. unfold initZeros, Image_new. cbn. by rewrite length_replicate. Qed.

Lemma fmap_bind_list {A B C} (f : B -> C) (g : A -> list B) (l : list A) :
  f <$> (l ≫= g) = l ≫= (fun x => f <$> g x).
Proof.
  induction l as [|a l IH]; [done|]. cbn. by rewrite fmap_app, IH.
Qed.

Lemma filter_fmap_fst {A B} (P : A -> Prop) (Q : A * B -> Prop)
    `{forall a, Decision (P a)} `{forall ab, Decision (Q ab)} (l : list (A * B)) :
  (forall ab, Q ab <-> P ab.1) ->
  (filter Q l).*1 = filter P l.*1.
Proof.
  intros HQ. induction l as [|[a b] l IH]; [done|].
  cbn [fmap list_fmap fst]. rewrite !filter_cons.
  destruct (decide (Q (a, b))) as [Hq|Hq], (decide (P a)) as [Hp|Hp].
  - change (((a, b) :: filter Q l).*1) with (a :: (filter Q l).*1). by rewrite IH.
  - exfalso. by apply HQ in Hq.
  - exfalso. apply Hq. by apply HQ.
  - apply IH.
Qed.

Lemma Forall_filter_keep {A} (P Q : A -> Prop) `{forall a, Decision (Q a)} (l : list A) :
  Forall P l -> Forall P (filter Q l).
Proof.
  intros Hall. apply Forall_forall. intros a Ha%list_elem_of_filter.
  rewrite Forall_forall in Hall. apply Hall, Ha.
Qed.

Lemma bind_ext_list {A B} (g1 g2 : A -> list B) (l : list A) :
  (forall a, g1 a = g2 a) -> l ≫= g1 = l ≫= g2.
Proof. intros Hg. induction l as [|a l IH]; [done|]. cbn. by rewrite Hg, IH. Qed.

Section OrderInvariance.

Context {R : Type} `{RFloat R} `{Collaborators R}.

Variable est : TiltEstimator R.
Variable mdt : MetaDataTable.
Variables obs pred : list (Image (Complex R)).

(** Whatever the schedule, the contributions a group receives on all
    threads together are those of its particles. *)
Lemma slotEntries_all (sched : list (nat * nat)) (og : Z) :
  validSchedule est mdt sched ->
  seq 0 (nr_omp_threads est)
    ≫= (fun t => particleContribution est mdt obs pred <$> (slotEntries mdt t og sched).*1)
  ≡ₚ contributionsOf est mdt obs pred og.
Proof.
  intros [Hperm Hthr]. unfold contributionsOf.
  set (group := filter (fun pt : nat * nat => getOpticsGroup mdt pt.1 = Some og) sched).
  rewrite (bind_ext_list _
             (fun t => (fun pt : nat * nat => particleContribution est mdt obs pred pt.1)
                         <$> filter (fun pt : nat * nat => pt.2 = t) group)).
  2:{ intros t. unfold slotEntries, group. rewrite list_filter_filter.
      by rewrite <- list_fmap_compose. }
  rewrite <- fmap_bind_list.
  rewrite (threads_partition snd) by (by apply Forall_filter_keep).
  replace ((fun pt : nat * nat => particleContribution est mdt obs pred pt.1) <$> group)
    with (particleContribution est mdt obs pred <$> group.*1)
    by (by rewrite <- list_fmap_compose).
  unfold group.
  replace ((filter (fun pt : nat * nat => getOpticsGroup mdt pt.1 = Some og) sched).*1)
    with (filter (fun p => getOpticsGroup mdt p = Some og) sched.*1)
    by (symmetry; by apply filter_fmap_fst).
  by rewrite Hperm.
Qed.

End OrderInvariance.

Lemma filter_nil_Forall {A} (f : A -> bool) (l : list A) :
  List.filter f l = [] -> Forall (fun a => f a = false) l.
Proof.
  induction l as [|a l IH]; cbn; [constructor|].
  destruct (f a) eqn:Hf; [discriminate|]. intros Hnil. constructor; auto.
Qed.

(** In a sorted optics table the groups defined are 1 to the number of
    rows. *)
Lemma optGroupDefined_range (om : ObservationModel) (og : Z) :
  opticsGroupsSorted om = true -> optGroupDefined om og = true ->
  1 <= og <= Z.of_nat (numberOfOpticsGroups om).
Proof.
  unfold opticsGroupsSorted, optGroupDefined.
  intros Hsorted%bool_decide_eq_true Hdef%bool_decide_eq_true.
  apply list_elem_of_omap in Hdef as (row & Hin & Hog).
  apply list_elem_of_lookup in Hin as [i Hi].
  assert (Hlt : (i < numberOfOpticsGroups om)%nat) by (by eapply lookup_lt_Some).
  assert (Hzip : zip (seq 0 (numberOfOpticsGroups om)) (opticsMdt om) !! i = Some (i, row)).
  { apply lookup_zip_with_Some. exists i, row. split; [done|]. split; [|done].
    by apply lookup_seq. }
  pose proof (Forall_lookup_1 _ _ _ _ Hsorted Hzip) as Hrow. cbn in Hrow.
  rewrite Hog in Hrow. inversion Hrow. lia.
Qed.

Section Claims.

Context {R : Type} `{RFloat R} `{Collaborators R}.

Lemma definedGroups_indexable (est : TiltEstimator R) (mdt : MetaDataTable)
    (obs pred : list (Image (Complex R))) :
  opticsGroupsSorted (obsModel est) = true ->
  findUndefinedOptGroups (obsModel est) mdt = [] ->
  (forall p, (p < numberOfObjects mdt)%nat -> is_Some (getOpticsGroup mdt p)) ->
  (numberOfObjects mdt <= length obs)%nat ->
  (numberOfObjects mdt <= length pred)%nat ->
  batchIndexable est mdt obs pred.
Proof.
  intros Hsorted Hundef Hog Hobs Hpred. repeat split; try done.
  apply filter_nil_Forall in Hundef.
  eapply Forall_impl; [exact Hundef|]. intros og Hdef. cbn in Hdef.
  apply negb_false_iff in Hdef.
  pose proof (optGroupDefined_range _ _ Hsorted Hdef). lia.
Qed.

(** C6, as the code has it. [processMicrograph] does not check the
    optics groups of the batch. The check is [findUndefinedOptGroups];
    when it finds no undefined group in a batch (the optics groups
    being sorted, and every particle having its group and its two
    images), every access of [processMicrograph] is within bounds: the
    loop that fills [groupToIndex] stays inside the table, and every
    iteration of the parallel loop finds the position of the group of
    its particle in the table, its two images, and its place in the
    vectors of accumulators. Nothing is said of errors. *)
Theorem processMicrograph_defined_groups (est : TiltEstimator R)
    (sched : list (nat * nat)) (g : Z) (mdt : MetaDataTable)
    (obs pred : list (Image (Complex R))) (fs : FileSystem R) :
  opticsGroupsSorted (obsModel est) = true ->
  findUndefinedOptGroups (obsModel est) mdt = [] ->
  (forall p, (p < numberOfObjects mdt)%nat -> is_Some (getOpticsGroup mdt p)) ->
  (numberOfObjects mdt <= length obs)%nat ->
  (numberOfObjects mdt <= length pred)%nat ->
  validSchedule est mdt sched ->
  let optGroups := getOptGroupsPresent (obsModel est) mdt in
  (exists groupToIndex,
     fillGroupToIndex 0 optGroups
       (replicate (numberOfOpticsGroups (obsModel est) + 1) (-1)) = Ok groupToIndex
     /\ forall p t, (p, t) ∈ sched ->
          exists og ci,
            getOpticsGroup mdt p = Some og
            /\ optGroups !! ci = Some og
            /\ vec_get groupToIndex og = Ok (Z.of_nat ci)
            /\ (p < length pred)%nat /\ (p < length obs)%nat
            /\ (length optGroups * t + ci < nr_omp_threads est * length optGroups)%nat)
  /\ processMicrograph est sched g mdt obs pred fs <> Undefined.
Proof.
  intros Hsorted Hundef Hog Hobs Hpred Hsched optGroups.
  pose proof (definedGroups_indexable est mdt obs pred Hsorted Hundef Hog Hobs Hpred)
    as Hbatch.
  split.
  - pose proof (validSchedule_runnable est mdt obs pred sched Hbatch Hsched) as Hrun.
    destruct Hbatch as (_ & _ & _ & Hrange).
    destruct (fillGroupToIndex_spec optGroups 0
                (replicate (numberOfOpticsGroups (obsModel est) + 1) (-1)))
      as (gti & Hfill & _ & Hat & _).
    { apply optGroups_NoDup. }
    { rewrite length_replicate. eapply Forall_impl; [exact Hrange|]. cbn. lia. }
    exists gti. split; [exact Hfill|].
    intros p t Hpt.
    rewrite Forall_forall in Hrun. destruct (Hrun _ Hpt) as (Ht & Hp & Ho & [og Hg]).
    cbn [fst snd] in *.
    pose proof (getOpticsGroup_present est mdt p og Hg) as Hin.
    apply list_elem_of_lookup_1 in Hin as [ci Hci].
    exists og, ci. split; [exact Hg|]. split; [exact Hci|]. split.
    + apply vec_get_Ok_Z.
      * rewrite Forall_forall in Hrange. apply (Hrange og).
        by eapply list_elem_of_lookup_2.
      * by rewrite (Hat ci og Hci).
    + split; [exact Hp|]. split; [exact Ho|].
      apply lookup_lt_Some in Hci. fold optGroups in Hci. nia.
  - unfold processMicrograph. destruct (ready est); cbn [negb]; [|done].
    destruct (checkpointWrites_Ok est mdt obs pred sched Hbatch Hsched) as (acc & _ & Hw).
    by rewrite Hw.
Qed.

(** C7, as the code has it. [processMicrograph] writes the three files of
    each pair straight under their final names, for the groups present in
    order and within a group the real part, the imaginary part and then
    the weight; it writes no other file; and when it returns the pair of
    every group present is complete. *)
Theorem processMicrograph_writes_in_place (est : TiltEstimator R)
    (sched : list (nat * nat)) (g : Z) (mdt : MetaDataTable)
    (obs pred : list (Image (Complex R))) (fs fs' : FileSystem R) :
  processMicrograph est sched g mdt obs pred fs = Ok fs' ->
  let outRoot := getOutputFilenameRoot mdt (outPath est) in
  let optGroups := getOptGroupsPresent (obsModel est) mdt in
  exists (ops : list (string * Image R)) (sums : list (Image (Complex R) * Image R)),
    checkpointWrites est sched mdt obs pred = Ok ops
    /\ fs' = applyWrites fs ops
    /\ length sums = length optGroups
    /\ ops = mjoin (zip_with
                      (fun og sm =>
                         [ (xyAccRealName outRoot (string_of_int og), realPart sm.1);
                           (xyAccImagName outRoot (string_of_int og), imagPart sm.1);
                           (wAccName outRoot (string_of_int og), sm.2) ])
                      optGroups sums)
    /\ (forall st fn, st ∈ observableStates fs ops -> st !! fn ≠ fs !! fn ->
          exists og, og ∈ optGroups
            /\ (fn = xyAccRealName outRoot (string_of_int og)
                \/ fn = xyAccImagName outRoot (string_of_int og)
                \/ fn = wAccName outRoot (string_of_int og)))
    /\ (forall og, og ∈ optGroups ->
          checkpointExists fs' outRoot (string_of_int og) = true).
Proof.
  intros Hrun outRoot optGroups.
  pose proof Hrun as Hrun'. unfold processMicrograph in Hrun'.
  destruct (ready est); cbn [negb] in Hrun'; [|discriminate].
  apply bind_Ok in Hrun' as (ops & Hops & [= <-]).
  destruct (checkpointWrites_Ok_inv _ _ _ _ _ _ Hops) as (sums & Hlen & Heq).
  exists ops, sums. split; [done|]. split; [done|]. split; [done|]. split; [done|].
  split.
  - intros st fn Hst Hdiff.
    apply list_elem_of_fmap in Hst as (n & -> & _).
    destruct (decide (fn ∈ (take n ops).*1)) as [Hin|Hnin].
    2:{ exfalso. apply Hdiff. by apply applyWrites_other. }
    apply list_elem_of_fmap in Hin as ([fn' img] & -> & Hin). cbn.
    apply elem_of_take in Hin as (i & Hin & _).
    apply list_elem_of_lookup_2 in Hin. rewrite Heq in Hin.
    apply list_elem_of_join in Hin as (files & Hfile & Hfiles).
    apply list_elem_of_lookup in Hfiles as [ci Hci].
    apply lookup_zip_with_Some in Hci as (og & sm & -> & Hog & _).
    exists og. split; [by eapply list_elem_of_lookup_2|].
    unfold checkpointFiles in Hfile.
    apply elem_of_cons in Hfile as [[= ->]|Hfile]; [by left|].
    apply elem_of_cons in Hfile as [[= ->]|Hfile]; [by right; left|].
    apply elem_of_cons in Hfile as [[= ->]|Hfile]; [by right; right|].
    by apply elem_of_nil in Hfile.
  - intros og Hin. by eapply processMicrograph_complete.
Qed.

End Claims.

(** * Sums up to order *)

Lemma zip_with_seq_lookup {A B C} `{Inhabited A} (g : A -> B -> C) (h : nat -> B) (l : list A) :
  (fun ci => g (l !!! ci) (h ci)) <$> seq 0 (length l)
  = zip_with g l (h <$> seq 0 (length l)).
Proof.
  apply list_eq. intros i. rewrite list_lookup_fmap, lookup_zip_with, list_lookup_fmap.
  destruct (decide (i < length l)%nat) as [Hlt|Hge].
  - rewrite lookup_seq_lt by done. cbn.
    destruct (lookup_lt_is_Some_2 l i Hlt) as [a Ha].
    by rewrite Ha, (list_lookup_total_correct _ _ _ Ha).
  - rewrite lookup_seq_ge by lia. cbn. by destruct (l !! i).
Qed.

Lemma Forall2_Permutation_l {A B} (P : A -> B -> Prop) (l l' : list A) (k : list B) :
  l ≡ₚ l' -> Forall2 P l k -> exists k', k ≡ₚ k' /\ Forall2 P l' k'.
Proof.
  intros Hperm. revert k.
  induction Hperm as [|x l l' _ IH|x y l|l1 l2 l3 _ IH1 _ IH2]; intros k Hk.
  - inversion Hk; subst. by exists [].
  - inversion Hk as [|? z ? k0 Hz Hrest]; subst.
    destruct (IH _ Hrest) as (k' & Hperm' & Hall). exists (z :: k'). split; [by constructor|].
    by constructor.
  - inversion Hk as [|? z1 ? k0 Hz1 Hrest]; subst.
    inversion Hrest as [|? z2 ? k1 Hz2 Hrest']; subst.
    exists (z2 :: z1 :: k1). split; [apply perm_swap|]. by repeat constructor.
  - destruct (IH1 _ Hk) as (k2 & Hp2 & Hall2).
    destruct (IH2 _ Hall2) as (k3 & Hp3 & Hall3).
    exists k3. split; [by etrans|done].
Qed.

Lemma sum_abs_bound (zs : list Z) :
  Z.abs (foldr Z.add 0 zs) <= foldr Z.add 0 (Z.abs <$> zs).
Proof. induction zs as [|z zs IH]; cbn; lia. Qed.

Lemma sum_abs_nonneg (zs : list Z) : 0 <= foldr Z.add 0 (Z.abs <$> zs).
Proof. induction zs as [|z zs IH]; cbn; lia. Qed.

Lemma sum_app (zs zs' : list Z) :
  foldr Z.add 0 (zs ++ zs') = foldr Z.add 0 zs + foldr Z.add 0 zs'.
Proof. induction zs as [|z zs IH]; cbn; lia. Qed.

Lemma sum_Permutation (zs zs' : list Z) :
  zs ≡ₚ zs' -> foldr Z.add 0 zs = foldr Z.add 0 zs'.
Proof. induction 1; cbn; lia. Qed.

Lemma existsb_Permutation {A} (f : A -> bool) (l l' : list A) :
  l ≡ₚ l' -> existsb f l = existsb f l'.
Proof.
  induction 1 as [|x l l' _ IH|x y l|l1 l2 l3 _ IH1 _ IH2]; cbn.
  - done.
  - by rewrite IH.
  - by destruct (f x), (f y).
  - by rewrite IH1.
Qed.

Lemma List_filter_Permutation {A} (f : A -> bool) (l l' : list A) :
  l ≡ₚ l' -> List.filter f l ≡ₚ List.filter f l'.
Proof.
  induction 1 as [|x l l' _ IH|x y l|l1 l2 l3 _ IH1 _ IH2]; cbn.
  - done.
  - destruct (f x); by rewrite IH.
  - destruct (f x), (f y); try done. apply perm_swap.
  - by etrans.
Qed.

Section SumsUpToOrder.

Context {R : Type} `{RFloat R} `{Collaborators R}.

Lemma pixel_addContribution (ch : Channel) (a c : Image (Complex R) * Image R) (i : nat) :
  pixel ch (addContribution a c) i
  = match pixel ch a i, pixel ch c i with
    | Some x, Some y => Some (rf_add x y)
    | _, _ => None
    end.
Proof.
  unfold pixel, addContribution, img_add. destruct ch; cbn [fst snd data];
    rewrite lookup_zip_with.
  - destruct (data a.1 !! i), (data c.1 !! i); reflexivity.
  - destruct (data a.1 !! i), (data c.1 !! i); reflexivity.
  - destruct (data a.2 !! i), (data c.2 !! i); reflexivity.
Qed.

Lemma pixel_linearCombination (ch : Channel) (a c : Image (Complex R) * Image R) (i : nat) :
  pixel ch (linearCombination a.1 c.1 rf_one rf_one,
            linearCombination a.2 c.2 rf_one rf_one) i
  = match pixel ch a i, pixel ch c i with
    | Some x, Some y => Some (rf_add (rf_mul rf_one x) (rf_mul rf_one y))
    | _, _ => None
    end.
Proof.
  unfold pixel, linearCombination. destruct ch; cbn [fst snd data];
    rewrite lookup_zip_with.
  - destruct (data a.1 !! i), (data c.1 !! i); reflexivity.
  - destruct (data a.1 !! i), (data c.1 !! i); reflexivity.
  - destruct (data a.2 !! i), (data c.2 !! i); reflexivity.
Qed.

Lemma pixel_zero (est : TiltEstimator R) (ch : Channel) (i : nat) :
  pixel ch (Image_new (sh est) (s est), Image_new (sh est) (s est)) i
  = if decide (i < s est * sh est)%nat then Some rf_zero else None.
Proof.
  unfold pixel, Image_new. cbn [fst snd data].
  destruct (decide (i < s est * sh est)%nat) as [Hlt|Hge].
  - destruct ch; by rewrite lookup_replicate_2.
  - assert (Hnone : forall (T : Type) (x : T), replicate (s est * sh est) x !! i = None).
    { intros T x. apply lookup_replicate_None. lia. }
    destruct ch; by rewrite Hnone.
Qed.

Lemma evaluates_zero (est : TiltEstimator R) :
  evaluates est SZero (Image_new (sh est) (s est), Image_new (sh est) (s est)).
Proof. repeat split. intros ch i. apply pixel_zero. Qed.

Lemma evaluates_add (est : TiltEstimator R) e a c :
  evaluates est e a -> evaluates est (SAdd e (STerm c)) (addContribution a c).
Proof.
  intros (H1 & H2 & H3 & H4 & Hpix). repeat split; try done.
  intros ch i. rewrite pixel_addContribution, Hpix. reflexivity.
Qed.

Lemma evaluates_foldl_add (est : TiltEstimator R) cs : forall e a,
  evaluates est e a ->
  exists e', terms e' = (terms e ++ cs)%list
             /\ additions e' = (additions e + length cs)%nat
             /\ evaluates est e' (foldl addContribution a cs).
Proof.
  induction cs as [|c cs IH]; intros e a He.
  - exists e. rewrite app_nil_r. cbn [length]. by rewrite Nat.add_0_r.
  - destruct (IH (SAdd e (STerm c)) (addContribution a c)) as (e' & Hterms & Hadds & He').
    { by apply evaluates_add. }
    exists e'. split; [|split; [|done]].
    + rewrite Hterms. cbn [terms]. by rewrite <- app_assoc.
    + rewrite Hadds. cbn [additions length]. lia.
Qed.

Lemma evaluates_lin (est : TiltEstimator R) e e' a c :
  evaluates est e a -> evaluates est e' c ->
  evaluates est (SLin e e')
    (linearCombination a.1 c.1 rf_one rf_one, linearCombination a.2 c.2 rf_one rf_one).
Proof.
  intros (H1 & H2 & H3 & H4 & Hpix) (_ & _ & _ & _ & Hpix'). repeat split; try done.
  intros ch i. rewrite pixel_linearCombination, Hpix, Hpix'. reflexivity.
Qed.

(** The sum over the threads of the accumulators of a group. *)
Lemma mergedSums_sum (est : TiltEstimator R) (mdt : MetaDataTable) (obs pred : list (Image (Complex R)))
    (sched : list (nat * nat)) (acc : @Accumulators R) (ci : nat) (og : Z) :
  let optGroups := getOptGroupsPresent (obsModel est) mdt in
  validSchedule est mdt sched ->
  optGroups !! ci = Some og ->
  (forall t, (t < nr_omp_threads est)%nat ->
     slot acc (length optGroups * t + ci)
     = foldl addContribution
         (initZeros (Image_new (sh est) (s est)), initZeros (Image_new (sh est) (s est)))
         (particleContribution est mdt obs pred <$> (slotEntries mdt t og sched).*1)) ->
  sumUpToOrder est (nr_omp_threads est + length (contributionsOf est mdt obs pred og))
    (contributionsOf est mdt obs pred og)
    (mergedSums est (length optGroups) ci acc).
Proof.
  intros optGroups Hsched Hci Hslots.
  assert (Hgen : forall n, (n <= nr_omp_threads est)%nat ->
             exists e,
               terms e
               = seq 0 n ≫= (fun t => particleContribution est mdt obs pred
                                        <$> (slotEntries mdt t og sched).*1)
               /\ additions e = (n + length (terms e))%nat
               /\ evaluates est e
                    (foldl (fun sums threadnum =>
                              (linearCombination sums.1
                                 (slot acc (length optGroups * threadnum + ci)).1
                                 rf_one rf_one,
                               linearCombination sums.2
                                 (slot acc (length optGroups * threadnum + ci)).2
                                 rf_one rf_one))
                       (Image_new (sh est) (s est), Image_new (sh est) (s est))
                       (seq 0 n))).
  { induction n as [|n IH]; intros Hn.
    - exists SZero. split; [done|]. split; [done|]. apply evaluates_zero.
    - destruct IH as (e & Hterms & Hadds & He); [lia|].
      destruct (evaluates_foldl_add est
                  (particleContribution est mdt obs pred <$> (slotEntries mdt n og sched).*1)
                  SZero _ (evaluates_zero est)) as (e' & Hterms' & Hadds' & He').
      exists (SLin e e'). split; [|split].
      + cbn [terms]. rewrite Hterms, Hterms', seq_S, bind_app. cbn.
        by rewrite app_nil_r.
      + cbn [additions terms]. rewrite Hadds, Hadds', Hterms', length_app.
        cbn [additions terms app]. lia.
      + rewrite seq_S, foldl_app. cbn [foldl]. rewrite Nat.add_0_l.
        rewrite (Hslots n) by lia. rewrite !initZeros_new.
        by apply evaluates_lin. }
  destruct (Hgen (nr_omp_threads est)) as (e & Hterms & Hadds & He); [done|].
  assert (Hperm : terms e ≡ₚ contributionsOf est mdt obs pred og).
  { rewrite Hterms. by apply slotEntries_all. }
  exists e. split; [exact Hperm|]. split; [|exact He].
  by rewrite Hadds, (Permutation_length Hperm).
Qed.

(** The sums of the merge loop of [parametricFit]. *)
Lemma mergeCheckpoints_sum (est : TiltEstimator R) (fs : FileSystem R) (cns : string) (mdts : list MetaDataTable) :
  exists e, terms e = pairsRead est fs cns mdts
            /\ additions e = length (pairsRead est fs cns mdts)
            /\ evaluates est e (mergeCheckpoints est fs cns mdts).1.
Proof.
  unfold mergeCheckpoints. rewrite !initZeros_new.
  assert (Hgen : forall e sums,
             evaluates est e sums.1 ->
             exists e', terms e' = (terms e ++ pairsRead est fs cns mdts)%list
                        /\ additions e'
                           = (additions e + length (pairsRead est fs cns mdts))%nat
                        /\ evaluates est e' (foldl (mergeStep est fs cns) sums mdts).1).
  { induction mdts as [|mdt mdts IH]; intros e sums He.
    - exists e. rewrite app_nil_r. cbn. by rewrite Nat.add_0_r.
    - cbn [foldl]. unfold pairsRead. cbn [List.filter].
      destruct (batchHasPair est fs cns mdt) eqn:Hhas.
      + rewrite (mergeStep_has _ _ _ _ _ Hhas).
        set (c := (ComplexIO_read fs
                     ((getOutputFilenameRoot mdt (outPath est) +:+ "_xyAcc_optics-class_")
                        +:+ cns) ".mrc",
                   Image_read fs (wAccName (getOutputFilenameRoot mdt (outPath est)) cns))).
        destruct (IH (SAdd e (STerm c))
                     (img_add sums.1.1 c.1, img_add sums.1.2 c.2, true))
          as (e' & Hterms & Hadds & He').
        { apply (evaluates_add est e sums.1 c He). }
        exists e'. split; [|split; [|exact He']].
        * rewrite Hterms. cbn [terms fmap list_fmap]. by rewrite <- app_assoc.
        * rewrite Hadds. cbn [additions fmap list_fmap length].
          fold (pairsRead est fs cns mdts). lia.
      + rewrite (mergeStep_missing _ _ _ _ _ Hhas). by apply IH. }
  destruct (Hgen SZero (Image_new (sh est) (s est), Image_new (sh est) (s est), false))
    as (e & Hterms & Hadds & He); [apply evaluates_zero|].
  exists e. split; [exact Hterms|]. split; [exact Hadds|exact He].
Qed.

(** A sum of numbers that do not round is the number of the sum. *)
Lemma valueAt_exact (est : TiltEstimator R) (v : Z -> R) (B : Z) (ch : Channel) (i : nat) :
  exactUpTo v B -> (i < s est * sh est)%nat ->
  forall e zs,
    Forall2 (fun c z => pixel ch c i = Some (v z)) (terms e) zs ->
    foldr Z.add 0 (Z.abs <$> zs) <= B ->
    valueAt (s est * sh est) ch i e = Some (v (foldr Z.add 0 zs)).
Proof.
  intros (Hzero & Hadd & Hone) Hi.
  induction e as [|c|a IHa b IHb|a IHa b IHb]; intros zs Hzs Hbound; cbn [terms valueAt] in *.
  - inversion Hzs; subst. cbn. rewrite decide_True by done. by rewrite Hzero.
  - inversion Hzs as [|? z ? zs' Hz Hrest]; subst. inversion Hrest; subst.
    cbn. by rewrite Z.add_0_r.
  - apply Forall2_app_inv_l in Hzs as (za & zb & Ha & Hb & ->).
    rewrite fmap_app, sum_app in Hbound.
    pose proof (sum_abs_nonneg za). pose proof (sum_abs_nonneg zb).
    pose proof (sum_abs_bound za). pose proof (sum_abs_bound zb).
    rewrite (IHa za), (IHb zb) by (done || lia).
    rewrite sum_app. f_equal. apply Hadd; lia.
  - apply Forall2_app_inv_l in Hzs as (za & zb & Ha & Hb & ->).
    rewrite fmap_app, sum_app in Hbound.
    pose proof (sum_abs_nonneg za). pose proof (sum_abs_nonneg zb).
    pose proof (sum_abs_bound za). pose proof (sum_abs_bound zb).
    rewrite (IHa za), (IHb zb) by (done || lia).
    rewrite sum_app, !Hone by lia. f_equal. apply Hadd; lia.
Qed.

Lemma sumUpToOrder_exact (est : TiltEstimator R) (cs : list (Image (Complex R) * Image R))
    (sums : Image (Complex R) * Image R) (k : nat) (v : Z -> R) (B : Z) (ch : Channel)
    (i : nat) (zs : list Z) :
  sumUpToOrder est k cs sums ->
  exactUpTo v B -> (i < s est * sh est)%nat ->
  Forall2 (fun c z => pixel ch c i = Some (v z)) cs zs ->
  foldr Z.add 0 (Z.abs <$> zs) <= B ->
  pixel ch sums i = Some (v (foldr Z.add 0 zs)).
Proof.
  intros (e & Hterms & _ & (_ & _ & _ & _ & Hpix)) Hexact Hi Hzs Hbound.
  symmetry in Hterms.
  destruct (Forall2_Permutation_l _ _ _ _ Hterms Hzs) as (zs' & Hperm & Hzs').
  rewrite Hpix, (valueAt_exact est v B ch i Hexact Hi e zs' Hzs').
  - by rewrite (sum_Permutation _ _ Hperm).
  - by rewrite <- (sum_Permutation _ _ (fmap_Permutation Z.abs _ _ Hperm)).
Qed.

(** What [processMicrograph] writes: for each group present a sum of
    the contributions of its particles, for every number of threads
    and every schedule of the parallel loop. *)
Lemma processMicrograph_sums (est : TiltEstimator R) (mdt : MetaDataTable)
    (obs pred : list (Image (Complex R))) (n : nat) (sched : list (nat * nat)) (g : Z)
    (fs : FileSystem R) :
  ready est = true ->
  batchIndexable est mdt obs pred ->
  validSchedule (withThreads est n) mdt sched ->
  let optGroups := getOptGroupsPresent (obsModel est) mdt in
  let outRoot := getOutputFilenameRoot mdt (outPath est) in
  exists sums : list (Image (Complex R) * Image R),
    length sums = length optGroups
    /\ processMicrograph (withThreads est n) sched g mdt obs pred fs
       = Ok (applyWrites fs (mjoin (zip_with (checkpointFiles outRoot) optGroups sums)))
    /\ forall ci og sm, optGroups !! ci = Some og -> sums !! ci = Some sm ->
         sumUpToOrder est (n + length (contributionsOf est mdt obs pred og))
           (contributionsOf est mdt obs pred og) sm.
Proof.
  intros Hready Hbatch Hsched optGroups outRoot.
  destruct (checkpointWrites_Ok (withThreads est n) mdt obs pred sched Hbatch Hsched)
    as (acc & Hslots & Hw).
  exists ((fun ci => mergedSums (withThreads est n) (length optGroups) ci acc)
            <$> seq 0 (length optGroups)).
  split; [by rewrite length_fmap, length_seq|]. split.
  - unfold processMicrograph.
    change (ready (withThreads est n)) with (ready est). rewrite Hready. cbn [negb].
    rewrite Hw. cbn [bind]. do 3 f_equal.
    apply (zip_with_seq_lookup (checkpointFiles outRoot)).
  - intros ci og sm Hci Hsm.
    apply list_lookup_fmap_Some in Hsm as (ci' & -> & Hci').
    apply lookup_seq in Hci' as [-> _]. cbn [Nat.add].
    apply (mergedSums_sum (withThreads est n) mdt obs pred sched acc ci og Hsched Hci).
    intros t Ht. by apply Hslots.
Qed.

(** What the merge loop of [parametricFit] forms, for every order of
    the batches: a sum of the pairs read, and the same mark. *)
Lemma mergeCheckpoints_order (est : TiltEstimator R) (fs : FileSystem R) (cns : string)
    (mdts mdts' : list MetaDataTable) :
  mdts ≡ₚ mdts' ->
  sumUpToOrder est (length (pairsRead est fs cns mdts)) (pairsRead est fs cns mdts)
    (mergeCheckpoints est fs cns mdts').1
  /\ (mergeCheckpoints est fs cns mdts').2 = (mergeCheckpoints est fs cns mdts).2.
Proof.
  intros Hperm.
  assert (Hpairs : pairsRead est fs cns mdts' ≡ₚ pairsRead est fs cns mdts).
  { unfold pairsRead. apply fmap_Permutation. symmetry. by apply List_filter_Permutation. }
  split.
  - destruct (mergeCheckpoints_sum est fs cns mdts') as (e & Hterms & Hadds & He).
    exists e. split; [by rewrite Hterms|]. split; [|exact He].
    by rewrite Hadds, (Permutation_length Hpairs).
  - unfold mergeCheckpoints. rewrite !foldl_mergeStep_used. cbn [snd orb].
    symmetry. by apply existsb_Permutation.
Qed.

End SumsUpToOrder.

Import SpecFloat.

(** * Rounding in binary64 *)

Lemma digits2_pos_bounds (p : positive) :
  2 ^ (Z.pos (digits2_pos p) - 1) <= Z.pos p < 2 ^ Z.pos (digits2_pos p).
Proof.
  induction p as [p IH|p IH|]; cbn [digits2_pos].
  - rewrite Pos2Z.inj_succ.
    replace (Z.succ (Z.pos (digits2_pos p)) - 1) with (Z.succ (Z.pos (digits2_pos p) - 1)) by lia.
    rewrite !Z.pow_succ_r by lia. lia.
  - rewrite Pos2Z.inj_succ.
    replace (Z.succ (Z.pos (digits2_pos p)) - 1) with (Z.succ (Z.pos (digits2_pos p) - 1)) by lia.
    rewrite !Z.pow_succ_r by lia. lia.
  - cbn. lia.
Qed.

Lemma digits2_pos_unique (p : positive) (d : Z) :
  2 ^ (d - 1) <= Z.pos p < 2 ^ d -> Z.pos (digits2_pos p) = d.
Proof.
  intros [Hlo Hhi]. pose proof (digits2_pos_bounds p) as [Hlo' Hhi'].
  assert (Hd : 0 < d).
  { destruct (Z.ltb_spec 0 d) as [|Hle]; [done|].
    destruct (Z.eq_dec d 0) as [->|]; [cbn in Hhi; lia|].
    rewrite (Z.pow_neg_r 2 d) in Hhi by lia. lia. }
  destruct (Z.lt_trichotomy (Z.pos (digits2_pos p)) d) as [Hlt|[Heq|Hgt]]; [|done|].
  - assert (2 ^ Z.pos (digits2_pos p) <= 2 ^ (d - 1)) by (apply Z.pow_le_mono_r; lia). lia.
  - assert (2 ^ d <= 2 ^ (Z.pos (digits2_pos p) - 1)) by (apply Z.pow_le_mono_r; lia). lia.
Qed.

Lemma iter_xO (m d : positive) : Z.pos (Pos.iter xO m d) = Z.pos m * 2 ^ Z.pos d.
Proof.
  induction d as [|d IH] using Pos.peano_ind.
  - cbn. lia.
  - rewrite Pos.iter_succ, Pos2Z.inj_succ, Z.pow_succ_r by lia.
    rewrite Pos2Z.inj_xO, IH. lia.
Qed.

Lemma iter_pos_nat {A} (f : A -> A) (p : positive) (x : A) :
  iter_pos f p x = Nat.iter (Pos.to_nat p) f x.
Proof.
  assert (Hswap : forall n y, Nat.iter n f (f y) = f (Nat.iter n f y)).
  { induction n as [|n IHn]; intros y; cbn [Nat.iter nat_rect]; [done|]. f_equal. apply IHn. }
  revert x. induction p as [p IH|p IH|]; intros x; cbn [iter_pos].
  - rewrite !IH, Pos2Nat.inj_xI, Nat.iter_succ.
    replace (2 * Pos.to_nat p)%nat with (Pos.to_nat p + Pos.to_nat p)%nat by lia.
    rewrite Nat.iter_add. by rewrite !Hswap.
  - rewrite !IH, Pos2Nat.inj_xO.
    replace (2 * Pos.to_nat p)%nat with (Pos.to_nat p + Pos.to_nat p)%nat by lia.
    by rewrite Nat.iter_add.
  - done.
Qed.

Lemma shr_1_spec (st : shr_record) :
  0 <= shr_m st ->
  shr_m (shr_1 st) = shr_m st / 2
  /\ shr_r (shr_1 st) = Z.odd (shr_m st)
  /\ shr_s (shr_1 st) = shr_r st || shr_s st.
Proof.
  destruct st as [m r s]. cbn [shr_m shr_r shr_s]. intros Hm.
  destruct m as [|[p|p|]|p]; cbn [shr_1 shr_m shr_r shr_s]; try lia.
  - done.
  - split; [|done]. rewrite Pos2Z.inj_xI. apply (Z.div_unique _ 2 _ 1); lia.
  - split; [|done]. rewrite Pos2Z.inj_xO. apply (Z.div_unique _ 2 _ 0); lia.
  - done.
Qed.

(** [n] steps to the right from an exact number: the quotient, and
    where the remainder lies. *)
Lemma shr_steps (m : Z) (n : nat) :
  0 <= m ->
  let st := Nat.iter n shr_1 {| shr_m := m; shr_r := false; shr_s := false |} in
  shr_m st = m / 2 ^ Z.of_nat n
  /\ (shr_r st = true <-> (0 < n)%nat /\ 2 ^ (Z.of_nat n - 1) <= m mod 2 ^ Z.of_nat n)
  /\ (shr_s st = true <-> (0 < n)%nat /\ m mod 2 ^ (Z.of_nat n - 1) <> 0).
Proof.
  intros Hm. induction n as [|n IH]; cbn zeta.
  - cbn. rewrite Z.div_1_r. split; [done|]. split; split; try discriminate; intros [? _]; lia.
  - rewrite Nat.iter_succ. cbn zeta in IH.
    set (st := Nat.iter n shr_1 _) in *.
    destruct IH as (Hq & Hr & Hs).
    assert (Hpos : 0 < 2 ^ Z.of_nat n) by (apply Z.pow_pos_nonneg; lia).
    assert (Hst : 0 <= shr_m st) by (rewrite Hq; apply Z.div_pos; lia).
    destruct (shr_1_spec st Hst) as (Hq' & Hr' & Hs').
    rewrite Hq', Hr', Hs', Hq.
    replace (Z.of_nat (S n) - 1) with (Z.of_nat n) by lia.
    rewrite Nat2Z.inj_succ, Z.pow_succ_r by lia.
    assert (Hsplit : m mod (2 ^ Z.of_nat n * 2)
                     = m mod 2 ^ Z.of_nat n + 2 ^ Z.of_nat n * ((m / 2 ^ Z.of_nat n) mod 2)).
    { apply Z.rem_mul_r; lia. }
    replace (2 * 2 ^ Z.of_nat n) with (2 ^ Z.of_nat n * 2) by lia.
    pose proof (Z.mod_pos_bound m (2 ^ Z.of_nat n) Hpos) as Hrem.
    pose proof (Z.mod_pos_bound (m / 2 ^ Z.of_nat n) 2 ltac:(lia)) as Hbit.
    split; [by rewrite Z.div_div by lia|]. split.
    + rewrite Hsplit, <- Z.negb_even, negb_true_iff, Zdiv.Zeven_mod.
      rewrite <- not_true_iff_false, Z.eqb_eq. split; [|intros [_ ?]]; nia.
    + rewrite orb_true_iff, Hr, Hs.
      destruct n as [|n].
      { cbn. split; [intros [[? _]|[? _]]; lia|intros [_ Hne]; by rewrite Z.mod_1_r in Hne]. }
      assert (Hhalf : 0 < 2 ^ (Z.of_nat (S n) - 1)) by (apply Z.pow_pos_nonneg; lia).
      assert (Hdec : m mod 2 ^ Z.of_nat (S n)
                     = m mod 2 ^ (Z.of_nat (S n) - 1)
                       + 2 ^ (Z.of_nat (S n) - 1)
                         * ((m / 2 ^ (Z.of_nat (S n) - 1)) mod 2)).
      { replace (2 ^ Z.of_nat (S n)) with (2 ^ (Z.of_nat (S n) - 1) * 2).
        - apply Z.rem_mul_r; lia.
        - replace (Z.of_nat (S n)) with (Z.succ (Z.of_nat (S n) - 1)) at 2 by lia.
          rewrite Z.pow_succ_r by lia. lia. }
      pose proof (Z.mod_pos_bound m (2 ^ (Z.of_nat (S n) - 1)) Hhalf) as Hlow.
      pose proof (Z.mod_pos_bound (m / 2 ^ (Z.of_nat (S n) - 1)) 2 ltac:(lia)) as Hb.
      split.
      * intros [[_ Hge]|[_ Hne]]; (split; [lia|]); lia.
      * intros [_ Hne].
        destruct (Z.eq_dec (m mod 2 ^ (Z.of_nat (S n) - 1)) 0) as [Hzero|Hnz];
          [|right; split; [lia|done]].
        left. split; [lia|]. rewrite Hdec in Hne |- *. rewrite Hzero in Hne |- *.
        assert (Hbit1 : (m / 2 ^ (Z.of_nat (S n) - 1)) mod 2 = 0
                        \/ (m / 2 ^ (Z.of_nat (S n) - 1)) mod 2 = 1) by lia.
        destruct Hbit1 as [Hb0|Hb1]; [rewrite Hb0 in Hne; lia|rewrite Hb1; lia].
Qed.

Lemma fexp_double (e : Z) : fexp prec emax e = Z.max (e - 53) (-1074).
Proof. reflexivity. Qed.

(** Rounding to nearest after [n] steps to the right. *)
Lemma round_steps (m : Z) (n : nat) :
  0 <= m -> (0 < n)%nat ->
  let st := Nat.iter n shr_1 {| shr_m := m; shr_r := false; shr_s := false |} in
  let q' := round_nearest_even (shr_m st) (loc_of_shr_record st) in
  m / 2 ^ Z.of_nat n <= q' <= m / 2 ^ Z.of_nat n + 1
  /\ Z.abs (q' * 2 ^ Z.of_nat n - m) <= 2 ^ (Z.of_nat n - 1)
  /\ (m mod 2 ^ Z.of_nat n = 0 -> q' = m / 2 ^ Z.of_nat n).
Proof.
  intros Hm Hn. cbn zeta.
  destruct (shr_steps m n Hm) as (Hq & Hr & Hs). cbn zeta in Hq, Hr, Hs.
  set (st := Nat.iter n shr_1 _) in *.
  assert (Hpos : 0 < 2 ^ Z.of_nat n) by (apply Z.pow_pos_nonneg; lia).
  assert (Hhalf : 0 < 2 ^ (Z.of_nat n - 1)) by (apply Z.pow_pos_nonneg; lia).
  assert (Hdouble : 2 ^ Z.of_nat n = 2 * 2 ^ (Z.of_nat n - 1)).
  { replace (Z.of_nat n) with (Z.succ (Z.of_nat n - 1)) at 1 by lia.
    by rewrite Z.pow_succ_r by lia. }
  assert (Hdec : m mod 2 ^ Z.of_nat n
                 = m mod 2 ^ (Z.of_nat n - 1)
                   + 2 ^ (Z.of_nat n - 1) * ((m / 2 ^ (Z.of_nat n - 1)) mod 2)).
  { rewrite Hdouble, (Z.mul_comm 2). apply Z.rem_mul_r; lia. }
  pose proof (Z.mod_pos_bound m (2 ^ (Z.of_nat n - 1)) Hhalf) as Hlow.
  pose proof (Z.mod_pos_bound (m / 2 ^ (Z.of_nat n - 1)) 2 ltac:(lia)) as Hb.
  pose proof (Z.div_mod m (2 ^ Z.of_nat n) ltac:(lia)) as Hdm.
  pose proof (Z.mod_pos_bound m (2 ^ Z.of_nat n) Hpos) as Hrem.
  destruct st as [q r s]. cbn [shr_m shr_r shr_s] in *. subst q.
  set (q := m / 2 ^ Z.of_nat n) in *.
  set (rem := m mod 2 ^ Z.of_nat n) in *.
  set (half := 2 ^ (Z.of_nat n - 1)) in *.
  set (low := m mod half) in *.
  destruct r, s; cbn [loc_of_shr_record round_nearest_even].
  - assert (half <= rem) by (apply Hr; done).
    assert (low <> 0) by (apply Hs; done).
    split; [lia|]. split; [|lia]. nia.
  - assert (half <= rem) by (apply Hr; done).
    assert (low = 0).
    { destruct (Z.eq_dec low 0) as [|Hne]; [done|]. 
      assert (false = true) by (apply Hs; done). done. }
    destruct (Z.even q); (split; [lia|]); (split; [|lia]); nia.
  - assert (rem < half).
    { destruct (Z.lt_ge_cases rem half) as [|Hge]; [done|].
      assert (false = true) by (apply Hr; done). done. }
    split; [lia|]. split; [|done]. nia.
  - assert (rem < half).
    { destruct (Z.lt_ge_cases rem half) as [|Hge]; [done|].
      assert (false = true) by (apply Hr; done). done. }
    split; [lia|]. split; [|done]. nia.
Qed.

Lemma binary_round_aux_finish (s : bool) (m e : Z) (l : location) :
  binary_round_aux prec emax s m e l
  = finish s (round_nearest_even (shr_m (shr_fexp prec emax m e l).1)
                (loc_of_shr_record (shr_fexp prec emax m e l).1))
      (shr_fexp prec emax m e l).2.
Proof. unfold binary_round_aux, finish. by destruct (shr_fexp prec emax m e l). Qed.

Lemma shr_fexp_exact (p : positive) (e : Z) :
  Z.max (Z.pos (digits2_pos p) + e - 53) (-1074) - e <= 0 ->
  shr_fexp prec emax (Z.pos p) e loc_Exact
  = ({| shr_m := Z.pos p; shr_r := false; shr_s := false |}, e).
Proof.
  intros Hn. unfold shr_fexp. rewrite fexp_double. cbn [Zdigits2 shr_record_of_loc].
  destruct (Z.max _ _ - e) as [|n|n] eqn:Hcase; cbn [shr]; first [done|lia].
Qed.

Lemma shr_fexp_shift (p : positive) (e : Z) :
  let n := Z.max (Z.pos (digits2_pos p) + e - 53) (-1074) - e in
  0 < n ->
  shr_fexp prec emax (Z.pos p) e loc_Exact
  = (Nat.iter (Z.to_nat n) shr_1 {| shr_m := Z.pos p; shr_r := false; shr_s := false |},
     e + n).
Proof.
  cbn zeta. intros Hn. unfold shr_fexp. rewrite fexp_double.
  cbn [Zdigits2 shr_record_of_loc].
  destruct (Z.max _ _ - e) as [|n|n] eqn:Hcase; cbn [shr]; try lia.
  rewrite iter_pos_nat. by rewrite Z2Nat.inj_pos.
Qed.

Lemma finish_canonical (s : bool) (p : positive) (e : Z) :
  Z.max (Z.pos (digits2_pos p) + e - 53) (-1074) - e <= 0 ->
  finish s (Z.pos p) e = if e <=? 971 then S754_finite s p e else S754_infinity s.
Proof. intros Hn. unfold finish. by rewrite shr_fexp_exact. Qed.

Lemma finish_zero (s : bool) (e : Z) : finish s 0 e = S754_zero s.
Proof.
  unfold finish, shr_fexp. cbn [Zdigits2 shr_record_of_loc].
  destruct (fexp prec emax (0 + e) - e) as [|n|n]; cbn [shr]; try done.
  rewrite iter_pos_nat.
  assert (Hzero : forall k, shr_m (Nat.iter k shr_1
                      {| shr_m := 0; shr_r := false; shr_s := false |}) = 0).
  { intros k. destruct (shr_steps 0 k ltac:(lia)) as [Hq _]. cbn zeta in Hq.
    rewrite Hq. apply Z.div_0_l. apply Z.pow_nonzero; lia. }
  by rewrite Hzero.
Qed.

Lemma finish_carry (s : bool) (e : Z) :
  -1074 <= e ->
  finish s (2 ^ 53) e
  = if e + 1 <=? 971 then S754_finite s (4503599627370496)%positive (e + 1)
    else S754_infinity s.
Proof.
  intros He. unfold finish.
  change (2 ^ 53) with (Z.pos 9007199254740992).
  assert (Hd : Z.pos (digits2_pos 9007199254740992) = 54) by reflexivity.
  rewrite shr_fexp_shift; cbn zeta; rewrite Hd; [|lia].
  replace (Z.max (54 + e - 53) (-1074) - e) with 1 by lia. reflexivity.
Qed.

Lemma digits2_pos_shift (m j : positive) :
  Z.pos (digits2_pos (Pos.iter xO m j)) = Z.pos (digits2_pos m) + Z.pos j.
Proof.
  apply digits2_pos_unique. rewrite iter_xO.
  pose proof (digits2_pos_bounds m) as [Hlo Hhi].
  assert (Hj : 0 < 2 ^ Z.pos j) by (apply Z.pow_pos_nonneg; lia).
  replace (Z.pos (digits2_pos m) + Z.pos j - 1) with (Z.pos (digits2_pos m) - 1 + Z.pos j)
    by lia.
  rewrite !Z.pow_add_r by lia. nia.
Qed.

(** What [binary_round] returns for a number that is a multiple of the
    smallest positive one: infinity, or a number that is off by at most
    the fraction 2^-53; in units of 2^-1074. *)
Lemma binary_round_spec (s : bool) (m : positive) (e : Z) :
  -1074 <= e ->
  binary_round prec emax s m e = S754_infinity s
  \/ exists m' e',
       binary_round prec emax s m e = S754_finite s m' e'
       /\ -1074 <= e'
       /\ 2 ^ 53 * Z.abs (Z.pos m' * 2 ^ (e' + 1074) - Z.pos m * 2 ^ (e + 1074))
          <= Z.pos m * 2 ^ (e + 1074).
Proof.
  intros He. unfold binary_round. rewrite fexp_double.
  set (d := Z.pos (digits2_pos m)).
  set (target := Z.max (d + e - 53) (-1074)).
  pose proof (digits2_pos_bounds m) as [Hlo Hhi]. fold d in Hlo, Hhi.
  assert (Hunit : 0 < 2 ^ (e + 1074)) by (apply Z.pow_pos_nonneg; lia).
  unfold shl_align. destruct (target - e) as [|n|j] eqn:Hcase.
  - rewrite binary_round_aux_finish, shr_fexp_exact by (fold d; fold target; lia).
    cbn [fst snd shr_m loc_of_shr_record round_nearest_even].
    rewrite finish_canonical by (fold d; fold target; lia).
    destruct (e <=? 971); [right|by left].
    exists m, e. split; [done|]. split; [done|]. rewrite Z.sub_diag. cbn [Z.abs]. lia.
  - assert (Htarget : target = d + e - 53) by lia.
    assert (Hn : Z.pos n = d - 53) by lia.
    rewrite binary_round_aux_finish, shr_fexp_shift by (fold d; fold target; lia).
    cbn [fst snd]. fold d. fold target. rewrite Hcase.
    destruct (round_steps (Z.pos m) (Z.to_nat (Z.pos n)) ltac:(lia) ltac:(lia))
      as (Hq & Herr & _). cbn zeta in Hq, Herr.
    rewrite Z2Nat.id in Hq, Herr by lia.
    set (q' := round_nearest_even _ _) in *.
    assert (Hpow : 2 ^ d = 2 ^ 53 * 2 ^ Z.pos n).
    { rewrite <- Z.pow_add_r by lia. f_equal. lia. }
    assert (Hpow1 : 2 ^ (d - 1) = 2 ^ 52 * 2 ^ Z.pos n).
    { rewrite <- Z.pow_add_r by lia. f_equal. lia. }
    assert (Hpn : 0 < 2 ^ Z.pos n) by (apply Z.pow_pos_nonneg; lia).
    assert (Hhalf : 2 ^ Z.pos n = 2 * 2 ^ (Z.pos n - 1)).
    { replace (Z.pos n) with (Z.succ (Z.pos n - 1)) at 1 by lia.
      by rewrite Z.pow_succ_r by lia. }
    assert (Hquot : 2 ^ 52 <= Z.pos m / 2 ^ Z.pos n < 2 ^ 53).
    { split.
      - apply Z.div_le_lower_bound; lia.
      - apply Z.div_lt_upper_bound; lia. }
    assert (Hunit' : 2 ^ (e + Z.pos n + 1074) = 2 ^ Z.pos n * 2 ^ (e + 1074)).
    { rewrite <- Z.pow_add_r by lia. f_equal. lia. }
    destruct (Z.eq_dec q' (2 ^ 53)) as [Hcarry|Hnocarry].
    + rewrite Hcarry, finish_carry by lia.
      destruct (e + Z.pos n + 1 <=? 971); [right|by left].
      exists 4503599627370496%positive, (e + Z.pos n + 1).
      split; [done|]. split; [lia|].
      replace (e + Z.pos n + 1 + 1074) with (Z.succ (e + Z.pos n + 1074)) by lia.
      rewrite Z.pow_succ_r, Hunit' by lia.
      change (Z.pos 4503599627370496) with (2 ^ 52).
      rewrite Hcarry in Herr.
      replace (2 ^ 52 * (2 * (2 ^ Z.pos n * 2 ^ (e + 1074))) - Z.pos m * 2 ^ (e + 1074))
        with ((2 ^ 53 * 2 ^ Z.pos n - Z.pos m) * 2 ^ (e + 1074)) by (cbn; lia).
      rewrite Z.abs_mul, (Z.abs_eq (2 ^ (e + 1074))) by lia. nia.
    + destruct q' as [|p'|p'] eqn:Hq'; [lia| |lia].
      assert (Hd' : Z.pos (digits2_pos p') = 53).
      { apply digits2_pos_unique. change (53 - 1) with 52. lia. }
      rewrite finish_canonical by (rewrite Hd'; lia).
      destruct (e + Z.pos n <=? 971); [right|by left].
      exists p', (e + Z.pos n). split; [done|]. split; [lia|].
      rewrite Hunit'.
      replace (Z.pos p' * (2 ^ Z.pos n * 2 ^ (e + 1074)) - Z.pos m * 2 ^ (e + 1074))
        with ((Z.pos p' * 2 ^ Z.pos n - Z.pos m) * 2 ^ (e + 1074)) by lia.
      rewrite Z.abs_mul, (Z.abs_eq (2 ^ (e + 1074))) by lia. nia.
  - assert (Hj : Z.pos j = e - target) by lia.
    assert (Hd' : Z.pos (digits2_pos (Pos.iter xO m j)) = d + Z.pos j)
      by apply digits2_pos_shift.
    rewrite binary_round_aux_finish, shr_fexp_exact by (rewrite Hd'; lia).
    cbn [fst snd shr_m loc_of_shr_record round_nearest_even].
    rewrite finish_canonical by (rewrite Hd'; lia).
    destruct (target <=? 971); [right|by left].
    exists (Pos.iter xO m j), target. split; [done|]. split; [lia|].
    rewrite iter_xO.
    replace (Z.pos m * 2 ^ Z.pos j * 2 ^ (target + 1074)) with (Z.pos m * 2 ^ (e + 1074)).
    + rewrite Z.sub_diag. cbn [Z.abs]. lia.
    + rewrite <- Z.mul_assoc, <- Z.pow_add_r by lia. do 2 f_equal. lia.
Qed.

Lemma valid_exponent (s : bool) (m : positive) (e : Z) :
  SpecFloat.valid_binary prec emax (S754_finite s m e) = true ->
  Z.max (Z.pos (digits2_pos m) + e - 53) (-1074) = e /\ e <= 971.
Proof.
  cbn [SpecFloat.valid_binary]. unfold bounded, canonical_mantissa. rewrite fexp_double.
  intros [Hc He]%andb_true_iff. apply Z.eqb_eq in Hc. apply Z.leb_le in He.
  split; [done|]. exact He.
Qed.

Lemma shl_align_value (m : positive) (e e' : Z) :
  e' <= e -> Z.pos (shl_align m e e').1 = Z.pos m * 2 ^ (e - e').
Proof.
  intros He. unfold shl_align. destruct (e' - e) as [|n|j] eqn:Hcase; cbn [fst]; [|lia|].
  - replace (e - e') with 0 by lia. cbn. lia.
  - rewrite iter_xO. do 2 f_equal. lia.
Qed.

(** The same of [SFadd], which specifies the addition of [float]. *)
Lemma SFadd_bound (x y : spec_float) (c : Z) :
  SpecFloat.valid_binary prec emax x = true -> SpecFloat.valid_binary prec emax y = true ->
  ulps (SFadd prec emax x y) = Some c ->
  exists a b, ulps x = Some a /\ ulps y = Some b
              /\ 2 ^ 53 * Z.abs (c - (a + b)) <= Z.abs (a + b).
Proof.
  intros Hx Hy Hc.
  destruct x as [sx|sx| |sx mx ex], y as [sy|sy| |sy my ey]; cbn [SFadd ulps] in Hc |- *;
    try discriminate Hc;
    try (destruct sx, sy; discriminate Hc).
  - exists 0, 0. split; [done|]. split; [done|].
    assert (c = 0) as -> by (destruct sx, sy; cbn in Hc; by injection Hc). cbn. lia.
  - injection Hc as <-. eexists 0, _. split; [done|]. split; [done|].
    rewrite Z.add_0_l, Z.sub_diag. cbn [Z.abs]. lia.
  - injection Hc as <-. eexists _, 0. split; [done|]. split; [done|].
    rewrite Z.add_0_r, Z.sub_diag. cbn [Z.abs]. lia.
  - apply valid_exponent in Hx as [Hx _], Hy as [Hy _].
    eexists _, _. split; [done|]. split; [done|].
    set (ez := Z.min ex ey) in *.
    assert (Hez : -1074 <= ez) by lia.
    rewrite !shl_align_value in Hc by lia.
    set (M := cond_Zopp sx (Z.pos mx * 2 ^ (ex - ez)) + cond_Zopp sy (Z.pos my * 2 ^ (ey - ez)))
      in *.
    assert (Hsum : cond_Zopp sx (Z.pos mx * 2 ^ (ex + 1074))
                   + cond_Zopp sy (Z.pos my * 2 ^ (ey + 1074))
                   = M * 2 ^ (ez + 1074)).
    { unfold M.
      assert (Hpx : 2 ^ (ex + 1074) = 2 ^ (ex - ez) * 2 ^ (ez + 1074)).
      { rewrite <- Z.pow_add_r by lia. f_equal. lia. }
      assert (Hpy : 2 ^ (ey + 1074) = 2 ^ (ey - ez) * 2 ^ (ez + 1074)).
      { rewrite <- Z.pow_add_r by lia. f_equal. lia. }
      rewrite Hpx, Hpy. destruct sx, sy; cbn [cond_Zopp]; lia. }
    rewrite Hsum.
    destruct M as [|p|p]; cbn [binary_normalize] in Hc.
    + injection Hc as <-. cbn. lia.
    + destruct (binary_round_spec false p ez Hez) as [Hinf|(m' & e' & Hr & He' & Hb)];
        rewrite ?Hinf, ?Hr in Hc; [discriminate|].
      injection Hc as <-. cbn [cond_Zopp].
      rewrite (Z.abs_eq (Z.pos p * _)); [done|].
      apply Z.mul_nonneg_nonneg; [lia|]. apply Z.pow_nonneg. lia.
    + destruct (binary_round_spec true p ez Hez) as [Hinf|(m' & e' & Hr & He' & Hb)];
        rewrite ?Hinf, ?Hr in Hc; [discriminate|].
      injection Hc as <-. cbn [cond_Zopp].
      assert (Hnn : 0 <= Z.pos p * 2 ^ (ez + 1074)).
      { apply Z.mul_nonneg_nonneg; [lia|]. apply Z.pow_nonneg. lia. }
      replace (- (Z.pos m' * 2 ^ (e' + 1074)) - Z.neg p * 2 ^ (ez + 1074))
        with (- (Z.pos m' * 2 ^ (e' + 1074) - Z.pos p * 2 ^ (ez + 1074))) by lia.
      rewrite Z.abs_opp.
      replace (Z.neg p * 2 ^ (ez + 1074)) with (- (Z.pos p * 2 ^ (ez + 1074))) by lia.
      rewrite Z.abs_opp, (Z.abs_eq (Z.pos p * _)); done.
Qed.

Lemma SFmul_one (x : spec_float) :
  SpecFloat.valid_binary prec emax x = true ->
  SFmul prec emax (S754_finite false 4503599627370496 (-52)) x = x.
Proof.
  intros Hx. destruct x as [s|s| |s m e]; cbn [SFmul xorb]; try done.
  apply valid_exponent in Hx as [Hcanon Hmax].
  pose proof (digits2_pos_bounds m) as [Hlo Hhi].
  set (d := Z.pos (digits2_pos m)) in *.
  assert (Hd : Z.pos (digits2_pos (4503599627370496 * m)) = 52 + d).
  { apply digits2_pos_unique. rewrite Pos2Z.inj_mul.
    change (Z.pos 4503599627370496) with (2 ^ 52).
    replace (52 + d - 1) with (52 + (d - 1)) by lia.
    rewrite !Z.pow_add_r by lia. lia. }
  rewrite binary_round_aux_finish, shr_fexp_shift; cbn zeta; rewrite Hd.
  2:{ lia. }
  replace (Z.max (52 + d + (-52 + e) - 53) (-1074) - (-52 + e)) with 52 by lia.
  cbn [fst snd].
  destruct (round_steps (Z.pos (4503599627370496 * m)) (Z.to_nat 52) ltac:(lia) ltac:(lia))
    as (_ & _ & Hexact). cbn zeta in Hexact.
  rewrite Z2Nat.id in Hexact by lia.
  assert (Hquot : Z.pos (4503599627370496 * m) / 2 ^ 52 = Z.pos m).
  { rewrite Pos2Z.inj_mul. change (Z.pos 4503599627370496) with (2 ^ 52).
    rewrite Z.mul_comm. apply Z.div_mul. lia. }
  rewrite Hexact, Hquot.
  - replace (-52 + e + 52) with e by lia.
    rewrite finish_canonical by (fold d; lia).
    by rewrite (proj2 (Z.leb_le _ _) Hmax).
  - rewrite Pos2Z.inj_mul. change (Z.pos 4503599627370496) with (2 ^ 52).
    rewrite Z.mul_comm. apply Z.mod_mul. lia.
Qed.

(** The factor 1.0 changes no [double]. *)
Lemma double_mul_one (x : float) : (1 * x)%float = x.
Proof.
  apply Prim2SF_inj. rewrite mul_spec.
  change (Prim2SF 1) with (S754_finite false 4503599627370496 (-52)).
  apply SFmul_one, Prim2SF_valid.
Qed.

(** One addition of [double]: a finite sum has finite terms and is off
    the exact sum by at most its fraction 2^-53. *)
Lemma double_add_bound (x y : float) (c : Z) :
  ulpsOf (x + y)%float = Some c ->
  exists a b, ulpsOf x = Some a /\ ulpsOf y = Some b
              /\ 2 ^ 53 * Z.abs (c - (a + b)) <= Z.abs (a + b).
Proof.
  unfold ulpsOf. rewrite add_spec. apply SFadd_bound; apply Prim2SF_valid.
Qed.

Lemma ulpsOf_zero : ulpsOf 0%float = Some 0.
Proof. reflexivity. Qed.

(** * The rounding of a sum in [double] *)

(** One addition on top of two sums: the error bounds add up. *)
Lemma sum_error_step (ka kb Sa Sb Aa Ab ca cb c : Z) :
  0 <= ka -> 0 <= kb -> ka + kb + 1 <= 2 ^ 52 ->
  Z.abs Sa <= Aa -> Z.abs Sb <= Ab ->
  2 ^ 52 * Z.abs (ca - Sa) <= ka * Aa ->
  2 ^ 52 * Z.abs (cb - Sb) <= kb * Ab ->
  2 ^ 53 * Z.abs (c - (ca + cb)) <= Z.abs (ca + cb) ->
  2 ^ 52 * Z.abs (c - (Sa + Sb)) <= (ka + kb + 1) * (Aa + Ab).
Proof.
  change (2 ^ 52) with 4503599627370496. change (2 ^ 53) with 9007199254740992.
  intros Hka Hkb Hk HSa HSb Ha Hb Hc.
  assert (HAa : 0 <= Aa) by lia. assert (HAb : 0 <= Ab) by lia.
  pose proof (Z.mul_le_mono_nonneg_r ka 4503599627370496 Aa HAa ltac:(lia)) as H1.
  pose proof (Z.mul_le_mono_nonneg_r kb 4503599627370496 Ab HAb ltac:(lia)) as H2.
  pose proof (Z.mul_nonneg_nonneg ka Ab Hka HAb) as H3.
  pose proof (Z.mul_nonneg_nonneg kb Aa Hkb HAa) as H4.
  replace ((ka + kb + 1) * (Aa + Ab))
    with (ka * Aa + ka * Ab + kb * Aa + kb * Ab + Aa + Ab) by ring.
  lia.
Qed.

Section Rounding.

Context `{Collaborators float}.

(** The number of a rounded sum, where finite, against the sum of the
    numbers of its terms. *)
Lemma valueAt_bound (N : nat) (ch : Channel) (i : nat) (e : SumExpr) :
  forall r c,
    valueAt N ch i e = Some r -> ulpsOf r = Some c ->
    Z.of_nat (additions e) <= 2 ^ 52 ->
    exists ks,
      Forall2 (fun t z => exists v, pixel ch t i = Some v /\ ulpsOf v = Some z) (terms e) ks
      /\ 2 ^ 52 * Z.abs (c - foldr Z.add 0 ks)
         <= Z.of_nat (additions e) * foldr Z.add 0 (Z.abs <$> ks).
Proof.
  assert (Hstep : forall a b : SumExpr,
    (forall r c, valueAt N ch i a = Some r -> ulpsOf r = Some c ->
       Z.of_nat (additions a) <= 2 ^ 52 ->
       exists ks,
         Forall2 (fun t z => exists v, pixel ch t i = Some v /\ ulpsOf v = Some z)
           (terms a) ks
         /\ 2 ^ 52 * Z.abs (c - foldr Z.add 0 ks)
            <= Z.of_nat (additions a) * foldr Z.add 0 (Z.abs <$> ks)) ->
    (forall r c, valueAt N ch i b = Some r -> ulpsOf r = Some c ->
       Z.of_nat (additions b) <= 2 ^ 52 ->
       exists ks,
         Forall2 (fun t z => exists v, pixel ch t i = Some v /\ ulpsOf v = Some z)
           (terms b) ks
         /\ 2 ^ 52 * Z.abs (c - foldr Z.add 0 ks)
            <= Z.of_nat (additions b) * foldr Z.add 0 (Z.abs <$> ks)) ->
    forall x y c, valueAt N ch i a = Some x -> valueAt N ch i b = Some y ->
      ulpsOf (x + y)%float = Some c ->
      Z.of_nat (S (additions a + additions b)) <= 2 ^ 52 ->
      exists ks,
        Forall2 (fun t z => exists v, pixel ch t i = Some v /\ ulpsOf v = Some z)
          (terms a ++ terms b) ks
        /\ 2 ^ 52 * Z.abs (c - foldr Z.add 0 ks)
           <= Z.of_nat (S (additions a + additions b)) * foldr Z.add 0 (Z.abs <$> ks)).
  { intros a b IHa IHb x y c Hx Hy Hc Hk.
    destruct (double_add_bound x y c Hc) as (ca & cb & Hca & Hcb & Hround).
    destruct (IHa x ca Hx Hca) as (ksa & Hta & Hea); [lia|].
    destruct (IHb y cb Hy Hcb) as (ksb & Htb & Heb); [lia|].
    exists (ksa ++ ksb)%list. split; [by apply Forall2_app|].
    rewrite fmap_app, !sum_app.
    replace (Z.of_nat (S (additions a + additions b)))
      with (Z.of_nat (additions a) + Z.of_nat (additions b) + 1) by lia.
    apply (sum_error_step _ _ _ _ _ _ ca cb); try done; try lia;
      apply sum_abs_bound. }
  induction e as [|t|a IHa b IHb|a IHa b IHb]; intros r c Hr Hc Hk;
    cbn [valueAt terms additions] in *.
  - destruct (decide (i < N)%nat); [|done].
    injection Hr as <-. cbn in Hc. injection Hc as <-.
    exists []. split; [constructor|]. cbn. lia.
  - exists [c]. split.
    + constructor; [|constructor]. by exists r.
    + cbn. replace (c - (c + 0)) with 0 by lia. cbn. lia.
  - destruct (valueAt N ch i a) as [x|] eqn:Hx; [|done].
    destruct (valueAt N ch i b) as [y|] eqn:Hy; [|done].
    rewrite <- Hx in IHa. rewrite <- Hy in IHb.
    injection Hr as <-. by apply (Hstep a b IHa IHb x y c).
  - destruct (valueAt N ch i a) as [x|] eqn:Hx; [|done].
    destruct (valueAt N ch i b) as [y|] eqn:Hy; [|done].
    rewrite <- Hx in IHa. rewrite <- Hy in IHb.
    injection Hr as <-. cbn [rf_add rf_mul rf_one double_RFloat] in Hc.
    rewrite !double_mul_one in Hc. by apply (Hstep a b IHa IHb x y c).
Qed.

Lemma sumUpToOrder_bound (est : TiltEstimator float)
    (cs : list (Image (Complex float) * Image float))
    (sums : Image (Complex float) * Image float) (k : nat) (ch : Channel) (i : nat)
    (r : float) (c : Z) :
  sumUpToOrder est k cs sums ->
  Z.of_nat k <= 2 ^ 52 ->
  pixel ch sums i = Some r -> ulpsOf r = Some c ->
  exists ks,
    Forall2 (fun t z => exists v, pixel ch t i = Some v /\ ulpsOf v = Some z) cs ks
    /\ 2 ^ 52 * Z.abs (c - foldr Z.add 0 ks) <= Z.of_nat k * foldr Z.add 0 (Z.abs <$> ks).
Proof.
  intros (e & Hterms & <- & (_ & _ & _ & _ & Hpix)) Hk Hr Hc.
  rewrite Hpix in Hr.
  destruct (valueAt_bound _ ch i e r c Hr Hc Hk) as (ks & Hks & Hbound).
  destruct (Forall2_Permutation_l _ _ _ _ Hterms Hks) as (ks' & Hperm & Hks').
  exists ks'. split; [exact Hks'|].
  by rewrite <- (sum_Permutation _ _ Hperm),
    <- (sum_Permutation _ _ (fmap_Permutation Z.abs _ _ Hperm)).
Qed.


End Rounding.

(** * The characters of the file names *)

Lemma chars_append (a b : string) :
  list_ascii_of_string (a +:+ b) = (list_ascii_of_string a ++ list_ascii_of_string b)%list.
Proof.
  induction a as [|ch a IH]; [reflexivity|].
  change (ch :: list_ascii_of_string (a +:+ b)
          = ch :: (list_ascii_of_string a ++ list_ascii_of_string b)%list).
  by f_equal.
Qed.

Lemma chars_inj (a b : string) : list_ascii_of_string a = list_ascii_of_string b -> a = b.
Proof.
  intros Heq. rewrite <- (string_of_list_ascii_of_string a), Heq.
  apply string_of_list_ascii_of_string.
Qed.

Lemma chars_uint (d : Decimal.uint) :
  Forall (fun ch => ch ∈ decimalChars) (list_ascii_of_string (NilEmpty.string_of_uint d)).
Proof.
  induction d; cbn [NilEmpty.string_of_uint list_ascii_of_string];
    [constructor|constructor; [|done]..]; unfold decimalChars; cbn; set_solver.
Qed.

Lemma chars_string_of_int (n : Z) :
  Forall (fun ch => ch ∈ decimalChars) (list_ascii_of_string (string_of_int n)).
Proof.
  unfold string_of_int.
  assert (Hu : forall d, Forall (fun ch => ch ∈ decimalChars)
                           (list_ascii_of_string (NilZero.string_of_uint d))).
  { intros d. pose proof (chars_uint d) as Hd. destruct d; try exact Hd.
    cbn. constructor; [|constructor]. unfold decimalChars; cbn; set_solver. }
  destruct n as [|p|p]; cbn [Z.to_int NilZero.string_of_int]; [apply Hu..|].
  cbn [list_ascii_of_string]. constructor; [|apply Hu].
  unfold decimalChars; cbn; set_solver.
Qed.

Lemma string_of_int_no_char (n : Z) (ch : ascii) :
  ch ∉ decimalChars -> ch ∉ list_ascii_of_string (string_of_int n).
Proof.
  intros Hch Hin. apply Hch.
  by apply (proj1 (Forall_forall _ _) (chars_string_of_int n)).
Qed.

Lemma string_of_int_inj (n n' : Z) : string_of_int n = string_of_int n' -> n = n'.
Proof.
  unfold string_of_int. intros Heq.
  assert (Hisi : forall z, NilZero.int_of_string (NilZero.string_of_int (Z.to_int z))
                           = Some (Z.to_int z)).
  { intros z. apply NilZero.isi; destruct z; cbn; try discriminate;
      intros [= Hnil]; by apply Unsigned.to_uint_nonnil in Hnil. }
  apply DecimalZ.to_int_inj.
  pose proof (Hisi n) as Hn. rewrite Heq, Hisi in Hn. congruence.
Qed.

(** A name written in characters: the root, the infix up to its last
    underscore, the printed number and the suffix. *)
Lemma chars_checkpoint_name (root infix ogs suffix : string) :
  list_ascii_of_string (((root +:+ (infix +:+ "_")) +:+ ogs) +:+ suffix)
  = ((list_ascii_of_string root ++ list_ascii_of_string infix)
       ++ "_"%char :: (list_ascii_of_string ogs ++ list_ascii_of_string suffix))%list.
Proof. rewrite !chars_append. cbn. by rewrite <- !app_assoc. Qed.

Lemma underscore_not_decimal : "_"%char ∉ decimalChars.
Proof. apply (bool_decide_eq_false_1 ("_"%char ∈ decimalChars)). vm_compute. reflexivity. Qed.

(** Two names with the same infix and the same underscore-free suffix. *)
Lemma checkpoint_name_inj (root root' infix suffix : string) (og og' : Z) :
  "_"%char ∉ list_ascii_of_string suffix ->
  ((root +:+ (infix +:+ "_")) +:+ string_of_int og) +:+ suffix
  = ((root' +:+ (infix +:+ "_")) +:+ string_of_int og') +:+ suffix ->
  root = root' /\ og = og'.
Proof.
  intros Hsuffix Heq. apply (f_equal list_ascii_of_string) in Heq.
  rewrite !chars_checkpoint_name in Heq.
  apply not_elem_of_app_cons_inv_r in Heq as (Hroot & _ & Hog).
  - apply app_inv_tail in Hroot. apply chars_inj in Hroot.
    apply app_inv_tail in Hog. apply chars_inj, string_of_int_inj in Hog. done.
  - apply not_elem_of_app. split; [|done].
    apply string_of_int_no_char, underscore_not_decimal.
  - apply not_elem_of_app. split; [|done].
    apply string_of_int_no_char, underscore_not_decimal.
Qed.

Lemma append_inv_tail (a b suffix : string) : a +:+ suffix = b +:+ suffix -> a = b.
Proof.
  intros Heq. apply (f_equal list_ascii_of_string) in Heq. rewrite !chars_append in Heq.
  apply app_inv_tail in Heq. by apply chars_inj.
Qed.

Ltac not_in_chars :=
  match goal with
  | |- ?ch ∉ ?l => apply (bool_decide_eq_false_1 (ch ∈ l)); vm_compute; reflexivity
  end.

Lemma xyAccRealName_chars (root ogs : string) :
  list_ascii_of_string (xyAccRealName root ogs)
  = ((list_ascii_of_string root ++ list_ascii_of_string "_xyAcc_optics-class_"
        ++ list_ascii_of_string ogs)
       ++ "_"%char :: list_ascii_of_string "real.mrc")%list.
Proof. unfold xyAccRealName. rewrite !chars_append. by rewrite <- !app_assoc. Qed.

Lemma xyAccImagName_chars (root ogs : string) :
  list_ascii_of_string (xyAccImagName root ogs)
  = ((list_ascii_of_string root ++ list_ascii_of_string "_xyAcc_optics-class_"
        ++ list_ascii_of_string ogs)
       ++ "_"%char :: list_ascii_of_string "imag.mrc")%list.
Proof. unfold xyAccImagName. rewrite !chars_append. by rewrite <- !app_assoc. Qed.

Lemma wAccName_chars (root ogs : string) :
  list_ascii_of_string (wAccName root ogs)
  = ((list_ascii_of_string root ++ list_ascii_of_string "_wAcc_optics-class")
       ++ "_"%char :: (list_ascii_of_string ogs ++ list_ascii_of_string ".mrc"))%list.
Proof. unfold wAccName. rewrite !chars_append. cbn. by rewrite <- !app_assoc. Qed.

Lemma string_of_int_not_chars (ch : ascii) (n : Z) (l1 l2 : list ascii) :
  ch ∉ decimalChars -> list_ascii_of_string (string_of_int n) ≠ (l1 ++ ch :: l2)%list.
Proof.
  intros Hch Heq. apply (string_of_int_no_char n ch Hch).
  rewrite Heq. apply elem_of_app. right. left.
Qed.

Lemma xyAccName_inj (root root' part : string) (og og' : Z) :
  ((root +:+ "_xyAcc_optics-class_") +:+ string_of_int og) +:+ part
  = ((root' +:+ "_xyAcc_optics-class_") +:+ string_of_int og') +:+ part ->
  root = root' /\ og = og'.
Proof.
  intros Heq%append_inv_tail.
  apply (checkpoint_name_inj root root' "_xyAcc_optics-class" "" og og'); [not_in_chars|].
  change ("_xyAcc_optics-class" +:+ "_") with "_xyAcc_optics-class_".
  by rewrite Heq.
Qed.

Lemma wAccName_inj (root root' : string) (og og' : Z) :
  wAccName root (string_of_int og) = wAccName root' (string_of_int og') ->
  root = root' /\ og = og'.
Proof.
  intros Heq.
  apply (checkpoint_name_inj root root' "_wAcc_optics-class" ".mrc" og og'); [not_in_chars|].
  exact Heq.
Qed.

Lemma real_ne_imag (root root' ogs ogs' : string) :
  xyAccRealName root ogs ≠ xyAccImagName root' ogs'.
Proof.
  intros Heq. apply (f_equal list_ascii_of_string) in Heq.
  rewrite xyAccRealName_chars, xyAccImagName_chars in Heq.
  apply not_elem_of_app_cons_inv_r in Heq as (_ & _ & Heq); [|not_in_chars..].
  discriminate Heq.
Qed.

Lemma real_ne_weight (root root' ogs : string) (og' : Z) :
  xyAccRealName root ogs ≠ wAccName root' (string_of_int og').
Proof.
  intros Heq. apply (f_equal list_ascii_of_string) in Heq.
  rewrite xyAccRealName_chars, wAccName_chars in Heq.
  apply not_elem_of_app_cons_inv_r in Heq as (_ & _ & Heq); [| |not_in_chars].
  - apply (string_of_int_not_chars "r"%char og' [] (list_ascii_of_string "eal"));
      [not_in_chars|].
    apply (app_inv_tail (list_ascii_of_string ".mrc")). by rewrite <- Heq.
  - apply not_elem_of_app. split; [|not_in_chars].
    apply string_of_int_no_char, underscore_not_decimal.
Qed.

Lemma imag_ne_weight (root root' ogs : string) (og' : Z) :
  xyAccImagName root ogs ≠ wAccName root' (string_of_int og').
Proof.
  intros Heq. apply (f_equal list_ascii_of_string) in Heq.
  rewrite xyAccImagName_chars, wAccName_chars in Heq.
  apply not_elem_of_app_cons_inv_r in Heq as (_ & _ & Heq); [| |not_in_chars].
  - apply (string_of_int_not_chars "i"%char og' [] (list_ascii_of_string "mag"));
      [not_in_chars|].
    apply (app_inv_tail (list_ascii_of_string ".mrc")). by rewrite <- Heq.
  - apply not_elem_of_app. split; [|not_in_chars].
    apply string_of_int_no_char, underscore_not_decimal.
Qed.

(** X2. The names of the checkpoint files never collide: the name of a
    file gives back the output root and the optics group it was built
    from, and the real part, the imaginary part and the weight of any two
    pairs have three different names. *)
Theorem checkpoint_names_injective (root root' : string) (og og' : Z) :
  (xyAccRealName root (string_of_int og) = xyAccRealName root' (string_of_int og') ->
     root = root' /\ og = og')
  /\ (xyAccImagName root (string_of_int og) = xyAccImagName root' (string_of_int og') ->
     root = root' /\ og = og')
  /\ (wAccName root (string_of_int og) = wAccName root' (string_of_int og') ->
     root = root' /\ og = og')
  /\ xyAccRealName root (string_of_int og) ≠ xyAccImagName root' (string_of_int og')
  /\ xyAccRealName root (string_of_int og) ≠ wAccName root' (string_of_int og')
  /\ xyAccImagName root (string_of_int og) ≠ wAccName root' (string_of_int og').
Proof.
  refine (conj _ (conj _ (conj _ (conj _ (conj _ _))))).
  - apply xyAccName_inj.
  - apply xyAccName_inj.
  - apply wAccName_inj.
  - apply real_ne_imag.
  - apply real_ne_weight.
  - apply imag_ne_weight.
Qed.

(** * Files as the last write left them *)

Lemma applyWrites_union {R} (fs : FileSystem R) (ops : list (string * Image R)) :
  applyWrites fs ops = list_to_map (reverse ops) ∪ fs.
Proof.
  revert fs. induction ops as [|[fn img] ops IH]; intros fs.
  - cbn. by rewrite (left_id_L ∅ (∪)).
  - rewrite applyWrites_cons, IH, reverse_cons, list_to_map_app.
    cbn [list_to_map foldr fst snd]. rewrite <- (assoc_L (∪)).
    by rewrite insert_empty, <- insert_union_singleton_l.
Qed.

Lemma applyWrites_twice {R} (fs : FileSystem R) (ops : list (string * Image R)) :
  applyWrites (applyWrites fs ops) ops = applyWrites fs ops.
Proof.
  rewrite !applyWrites_union, (assoc_L (∪)). f_equal. apply (idemp_L (∪)).
Qed.

Lemma foldM_ext_elem {A B} (f g : A -> B -> result A) (l : list B) :
  (forall a b, b ∈ l -> f a b = g a b) -> forall a, foldM f a l = foldM g a l.
Proof.
  induction l as [|b l IH]; intros Hfg a; [done|].
  cbn [foldM]. rewrite (Hfg a b) by left. destruct (g a b); cbn [bind]; [|done..].
  apply IH. intros ???. apply Hfg. by right.
Qed.

Lemma vec_get_noReport_aux {A} (v : list A) (i : Z) (msg : string) :
  vec_get v i = ReportError msg -> False.
Proof. apply noReport_vec_get. Qed.

Section Extras.

Context {R : Type} `{RFloat R} `{Collaborators R}.

(** X1. An estimator that has been constructed and has read its
    options, whatever they are, has not been initialised: each of the
    three operations refuses the call with its own error before it
    looks at what it is given. *)
Theorem uninitialised_estimator_reports (reference0 : ReferenceMap R)
    (om : ObservationModel) (parser : IOParser) :
  let est := read (TiltEstimator_new reference0 om) parser in
  (forall sched g mdt obs pred fs,
      processMicrograph est sched g mdt obs pred fs
      = ReportError
          "ERROR: TiltEstimator::processMicrograph: TiltEstimator not initialized.")
  /\ (forall fs mdts optOut,
        parametricFit est fs mdts optOut
        = ReportError
            "ERROR: TiltEstimator::parametricFit: TiltEstimator not initialized.")
  /\ (forall fs mdt,
        isFinished est fs mdt
        = ReportError "ERROR: TiltEstimator::isFinished: TiltEstimator not initialized.").
Proof. cbn zeta. split; [done|]. split; done. Qed.

(** X3. Nothing that [processMicrograph] writes, for any batch and under
    any configuration, removes a file: a batch that [isFinished] has
    found finished stays finished, and a group that has a pair for
    [parametricFit] keeps it. *)
Theorem checkpoints_persist (est est' : TiltEstimator R) (sched : list (nat * nat))
    (g : Z) (mdt' : MetaDataTable) (obs pred : list (Image (Complex R)))
    (fs fs' : FileSystem R) :
  processMicrograph est' sched g mdt' obs pred fs = Ok fs' ->
  (forall fn, exists_ fs fn = true -> exists_ fs' fn = true)
  /\ (forall mdt, isFinished est fs mdt = Ok true -> isFinished est fs' mdt = Ok true)
  /\ (forall mdts og, groupUsed est fs mdts og = true -> groupUsed est fs' mdts og = true).
Proof.
  unfold processMicrograph. destruct (ready est'); cbn [negb]; [|discriminate].
  intros (ops & _ & [= <-])%bind_Ok.
  assert (Hkeep : forall fn, exists_ fs fn = true -> exists_ (applyWrites fs ops) fn = true).
  { intros fn Hfn. unfold exists_ in *. apply bool_decide_eq_true.
    apply applyWrites_keeps. by apply bool_decide_eq_true in Hfn. }
  assert (Hpair : forall root ogs, checkpointExists fs root ogs = true ->
                    checkpointExists (applyWrites fs ops) root ogs = true).
  { intros root ogs. unfold checkpointExists.
    intros [[Hr Hi]%andb_true_iff Hw]%andb_true_iff.
    by rewrite !Hkeep. }
  split; [done|]. split.
  - intros mdt. unfold isFinished. destruct (ready est); cbn [negb]; [|done].
    intros [= Hdone]. f_equal. apply allGroupsDone_spec. intros og Hog.
    apply Hpair. by apply (proj1 (allGroupsDone_spec _ _ _) Hdone).
  - intros mdts og. rewrite !groupUsed_true. intros (mdt & Hin & Hhas).
    exists mdt. split; [done|]. by apply Hpair.
Qed.

(** X4. Processing a batch again, along the same schedule, leaves the
    file system exactly as the first run left it: the files of the batch
    are overwritten with the same contents and nothing is added to
    them, whatever the batch index. *)
Theorem processMicrograph_rerun (est : TiltEstimator R) (sched : list (nat * nat))
    (g g' : Z) (mdt : MetaDataTable) (obs pred : list (Image (Complex R)))
    (fs fs' : FileSystem R) :
  processMicrograph est sched g mdt obs pred fs = Ok fs' ->
  processMicrograph est sched g' mdt obs pred fs' = Ok fs'.
Proof.
  unfold processMicrograph. destruct (ready est); cbn [negb]; [|discriminate].
  intros (ops & Hops & [= <-])%bind_Ok. rewrite Hops. cbn [bind].
  by rewrite applyWrites_twice.
Qed.

Lemma mergeStep_agree est (fs1 fs2 : FileSystem R) cns sums mdt :
  (let root := getOutputFilenameRoot mdt (outPath est) in
   fs1 !! xyAccRealName root cns = fs2 !! xyAccRealName root cns
   /\ fs1 !! xyAccImagName root cns = fs2 !! xyAccImagName root cns
   /\ fs1 !! wAccName root cns = fs2 !! wAccName root cns) ->
  mergeStep est fs1 cns sums mdt = mergeStep est fs2 cns sums mdt.
Proof.
  cbn zeta. intros (Hr & Hi & Hw).
  unfold mergeStep, ComplexIO_read, Image_read, exists_.
  unfold xyAccRealName, xyAccImagName, wAccName in Hr, Hi, Hw.
  rewrite !(append_assoc _ "_real" ".mrc"), !(append_assoc _ "_imag" ".mrc").
  change ("_real" +:+ ".mrc") with "_real.mrc". change ("_imag" +:+ ".mrc") with "_imag.mrc".
  by rewrite Hr, Hi, Hw.
Qed.

Lemma mergeCheckpoints_agree est (fs1 fs2 : FileSystem R) cns mdts :
  (forall mdt, mdt ∈ mdts ->
     let root := getOutputFilenameRoot mdt (outPath est) in
     fs1 !! xyAccRealName root cns = fs2 !! xyAccRealName root cns
     /\ fs1 !! xyAccImagName root cns = fs2 !! xyAccImagName root cns
     /\ fs1 !! wAccName root cns = fs2 !! wAccName root cns) ->
  mergeCheckpoints est fs1 cns mdts = mergeCheckpoints est fs2 cns mdts.
Proof.
  intros Hagree. unfold mergeCheckpoints. apply foldl_ext_Forall.
  apply Forall_forall. intros mdt Hin sums. apply mergeStep_agree. by apply Hagree.
Qed.

Lemma parametricFit_agree est (fs1 fs2 : FileSystem R) mdts optOut :
  (forall mdt og, mdt ∈ mdts -> (og < numberOfOpticsGroups (obsModel est))%nat ->
     let root := getOutputFilenameRoot mdt (outPath est) in
     let cns := string_of_int (Z.of_nat og + 1) in
     fs1 !! xyAccRealName root cns = fs2 !! xyAccRealName root cns
     /\ fs1 !! xyAccImagName root cns = fs2 !! xyAccImagName root cns
     /\ fs1 !! wAccName root cns = fs2 !! wAccName root cns) ->
  parametricFit est fs1 mdts optOut = parametricFit est fs2 mdts optOut.
Proof.
  intros Hagree. unfold parametricFit. destruct (ready est); cbn [negb]; [|done].
  apply foldM_ext_elem. intros t og Hog%elem_of_seq.
  unfold fitGroup.
  rewrite (mergeCheckpoints_agree est fs1 fs2 (string_of_int (Z.of_nat og + 1)) mdts); [done|].
  intros mdt Hin. apply Hagree; [done|lia].
Qed.

(** X5. [parametricFit] looks at nothing but the three files of each
    batch for the groups 1 to N of the optics table. Two file systems
    that agree on them give the same fit; so the pair
    [processMicrograph] writes for a group number outside 1..N, which
    it does without complaint, never reaches the fit. *)
Theorem parametricFit_reads_only_defined_groups (est : TiltEstimator R)
    (mdts : list MetaDataTable) (optOut : MetaDataTable) :
  (forall fs1 fs2 : FileSystem R,
      (forall mdt og, mdt ∈ mdts -> (og < numberOfOpticsGroups (obsModel est))%nat ->
         let root := getOutputFilenameRoot mdt (outPath est) in
         let cns := string_of_int (Z.of_nat og + 1) in
         fs1 !! xyAccRealName root cns = fs2 !! xyAccRealName root cns
         /\ fs1 !! xyAccImagName root cns = fs2 !! xyAccImagName root cns
         /\ fs1 !! wAccName root cns = fs2 !! wAccName root cns) ->
      parametricFit est fs1 mdts optOut = parametricFit est fs2 mdts optOut)
  /\ (forall (fs : FileSystem R) (root : string) (og : Z)
             (sums : Image (Complex R) * Image R),
        ¬ (1 <= og <= Z.of_nat (numberOfOpticsGroups (obsModel est))) ->
        parametricFit est (applyWrites fs (checkpointFiles root og sums)) mdts optOut
        = parametricFit est fs mdts optOut).
Proof.
  split; [intros fs1 fs2; apply parametricFit_agree|].
  intros fs root og sums Hog. apply parametricFit_agree.
  intros mdt og' _ Hog'. cbn zeta.
  assert (Hne : og ≠ Z.of_nat og' + 1) by lia.
  rewrite !applyWrites_other; [done|..]; unfold checkpointFiles; cbn [fmap list_fmap fst];
    rewrite !not_elem_of_cons; (split; [|split; [|split; [|apply not_elem_of_nil]]]).
  all: intros Heq;
    first [ by apply real_ne_imag in Heq
          | by apply real_ne_weight in Heq
          | by apply imag_ne_weight in Heq
          | by symmetry in Heq; apply real_ne_imag in Heq
          | by symmetry in Heq; apply real_ne_weight in Heq
          | by symmetry in Heq; apply imag_ne_weight in Heq
          | apply wAccName_inj in Heq as [_ Heq]; lia
          | apply xyAccName_inj in Heq as [_ Heq]; lia ].
Qed.

(** X9. The empty inputs. A batch without particles makes
    [processMicrograph] write nothing and is finished from the start;
    and with no batch to merge, [parametricFit] finds no group used and
    hands the table back as it got it, provided the observation model
    holds [Cs] and [lambda] for every group, which are read before the
    files are looked at. *)
Theorem empty_inputs (est : TiltEstimator R) (g : Z)
    (obs pred : list (Image (Complex R))) (fs : FileSystem R) (optOut : MetaDataTable) :
  ready est = true ->
  processMicrograph est [] g [] obs pred fs = Ok fs
  /\ isFinished est fs [] = Ok true
  /\ ((numberOfOpticsGroups (obsModel est) <= length (Cs (obsModel est)))%nat ->
      (numberOfOpticsGroups (obsModel est) <= length (lambda (obsModel est)))%nat ->
      parametricFit est fs [] optOut = Ok optOut)
  /\ ((length (Cs (obsModel est)) < numberOfOpticsGroups (obsModel est))%nat ->
      parametricFit est fs [] optOut = Undefined).
Proof.
  intros Hready. split; [|split; [|split]].
  - unfold processMicrograph, checkpointWrites, accumulate. rewrite Hready. reflexivity.
  - unfold isFinished. rewrite Hready. reflexivity.
  - intros HCs Hlambda. unfold parametricFit. rewrite Hready. cbn [negb].
    assert (Hloop : forall ogs : list nat,
               Forall (fun og => (og < numberOfOpticsGroups (obsModel est))%nat) ogs ->
               foldM (fitGroup est fs []) optOut ogs = Ok optOut).
    { induction ogs as [|og ogs IH]; intros Hogs; [done|].
      apply Forall_cons in Hogs as [Hog Hogs]. cbn [foldM]. unfold fitGroup at 1.
      destruct (lookup_lt_is_Some_2 (Cs (obsModel est)) og) as [Cs0 HCs0]; [lia|].
      destruct (lookup_lt_is_Some_2 (lambda (obsModel est)) og) as [l0 Hl0]; [lia|].
      rewrite (vec_get_Ok _ _ _ HCs0), (vec_get_Ok _ _ _ Hl0). cbn. by apply IH. }
    apply Hloop. apply Forall_forall. intros og Hog%elem_of_seq. lia.
  - intros HCs. unfold parametricFit. rewrite Hready. cbn [negb].
    assert (Hstep : forall og, fitGroup est fs [] optOut og = Ok optOut
                               \/ fitGroup est fs [] optOut og = Undefined).
    { intros og. unfold fitGroup.
      destruct (vec_get (Cs (obsModel est)) (Z.of_nat og)) as [Cs0| |] eqn:HCs0;
        cbn [bind]; [|by destruct (vec_get_noReport_aux _ _ _ HCs0)|by right].
      destruct (vec_get (lambda (obsModel est)) (Z.of_nat og)) as [l0| |] eqn:Hl0;
        cbn [bind]; [by left|by destruct (vec_get_noReport_aux _ _ _ Hl0)|by right]. }
    assert (Hloop : forall ogs : list nat,
               length (Cs (obsModel est)) ∈ ogs ->
               foldM (fitGroup est fs []) optOut ogs = Undefined).
    { induction ogs as [|og ogs IH]; intros Hin; [by apply elem_of_nil in Hin|].
      cbn [foldM]. destruct (decide (og = length (Cs (obsModel est)))) as [->|Hne].
      - unfold fitGroup at 1, vec_get. rewrite Nat2Z.id.
        rewrite (lookup_ge_None_2 (Cs (obsModel est))) by lia.
        by destruct (_ <? 0).
      - apply elem_of_cons in Hin as [?|Hin]; [congruence|].
        destruct (Hstep og) as [-> | ->]; cbn [bind]; [by apply IH|done]. }
    apply Hloop. apply elem_of_seq. lia.
Qed.

End Extras.

(** * What a written file holds *)

Lemma applyWrites_lookup {R} (fs : FileSystem R) (ops : list (string * Image R))
    (fn : string) (img : Image R) :
  NoDup ops.*1 -> (fn, img) ∈ ops -> applyWrites fs ops !! fn = Some img.
Proof.
  intros Hnodup Hin. rewrite applyWrites_union. apply lookup_union_Some_l.
  apply elem_of_list_to_map_1.
  - by rewrite fmap_reverse, reverse_Permutation.
  - by apply elem_of_reverse.
Qed.

Section ReadBack.

Context {R : Type} `{RFloat R} `{Collaborators R}.

Lemma checkpointFiles_names root og (sums : Image (Complex R) * Image R) :
  (checkpointFiles root og sums).*1
  = [ xyAccRealName root (string_of_int og);
      xyAccImagName root (string_of_int og);
      wAccName root (string_of_int og) ].
Proof. reflexivity. Qed.

Lemma checkpoint_name_group root og og' (sums : Image (Complex R) * Image R) fn :
  fn ∈ (checkpointFiles root og sums).*1 ->
  fn ∈ [ xyAccRealName root (string_of_int og');
         xyAccImagName root (string_of_int og');
         wAccName root (string_of_int og') ] ->
  og = og'.
Proof.
  rewrite checkpointFiles_names, !elem_of_cons, !elem_of_nil.
  intros [->|[->|[->|[]]]] [Heq|[Heq|[Heq|[]]]];
    first [ by apply real_ne_imag in Heq
          | by apply real_ne_weight in Heq
          | by apply imag_ne_weight in Heq
          | by symmetry in Heq; apply real_ne_imag in Heq
          | by symmetry in Heq; apply real_ne_weight in Heq
          | by symmetry in Heq; apply imag_ne_weight in Heq
          | by apply wAccName_inj in Heq as [_ Heq]
          | by apply xyAccName_inj in Heq as [_ Heq] ].
Qed.

Lemma checkpointFiles_NoDup root og (sums : Image (Complex R) * Image R) :
  NoDup (checkpointFiles root og sums).*1.
Proof.
  rewrite checkpointFiles_names. repeat constructor;
    rewrite ?not_elem_of_cons, ?elem_of_nil; repeat split; try tauto.
  - apply real_ne_imag.
  - apply real_ne_weight.
  - apply imag_ne_weight.
Qed.

(** The names of all the files of a call are different. *)
Lemma checkpointWrites_NoDup root (ogs : list Z)
    (sums : list (Image (Complex R) * Image R)) :
  NoDup ogs -> NoDup (mjoin (zip_with (checkpointFiles root) ogs sums)).*1.
Proof.
  revert sums. induction ogs as [|og ogs IH]; intros [|sm sums] Hnodup;
    [cbn; constructor..|].
  apply NoDup_cons in Hnodup as [Hog Hnodup]. cbn [zip_with].
  change (mjoin (?w :: ?ws)) with (w ++ mjoin ws)%list.
  rewrite fmap_app. apply NoDup_app. split; [apply checkpointFiles_NoDup|].
  split; [|by apply IH].
  intros fn Hfn Hrest. apply Hog.
  apply list_elem_of_fmap in Hrest as ([fn' img] & -> & Hrest).
  apply list_elem_of_join in Hrest as (files & Hfile & Hfiles).
  apply list_elem_of_lookup in Hfiles as [ci Hci].
  apply lookup_zip_with_Some in Hci as (og' & sm' & -> & Hog' & _).
  assert (og = og') as ->; [|by eapply list_elem_of_lookup_2].
  apply (checkpoint_name_group root og og' sm fn' Hfn).
  change (fn' ∈ (checkpointFiles root og' sm').*1).
  apply list_elem_of_fmap. by exists (fn', img).
Qed.

(** The files of the group at place [ci], by their places in the list of
    writes. *)
Lemma checkpointWrites_at root (ogs : list Z)
    (sums : list (Image (Complex R) * Image R)) ci og sm :
  ogs !! ci = Some og -> sums !! ci = Some sm ->
  let ops := mjoin (zip_with (checkpointFiles root) ogs sums) in
  ops !! (ci * 3 + 0)%nat = Some (xyAccRealName root (string_of_int og), realPart sm.1)
  /\ ops !! (ci * 3 + 1)%nat = Some (xyAccImagName root (string_of_int og), imagPart sm.1)
  /\ ops !! (ci * 3 + 2)%nat = Some (wAccName root (string_of_int og), sm.2).
Proof.
  intros Hog Hsm ops.
  assert (Hlen : Forall (fun l : list (string * Image R) => length l = 3%nat)
                   (zip_with (checkpointFiles root) ogs sums)).
  { apply Forall_forall. intros l Hl. apply list_elem_of_lookup in Hl as [i Hi].
    by apply lookup_zip_with_Some in Hi as (? & ? & -> & _). }
  assert (Hat : zip_with (checkpointFiles root) ogs sums !! ci
                = Some (checkpointFiles root og sm)).
  { rewrite lookup_zip_with, Hog. cbn. by rewrite Hsm. }
  repeat split; apply (join_lookup_Some_same_length' 3 _ ci); try done; try lia;
    by exists (checkpointFiles root og sm).
Qed.

(** X7. The weight file is the last of a pair to be written, and the
    readers ask for all three files. The files are written in place,
    so a reader may find one half-written. When the weight file of a
    group was not there before the call, every state a reader can find
    in which the three-file test succeeds for that group already holds
    the final real and imaginary part; between two writes the weight
    file is final as well. *)
Theorem weight_file_written_last (est : TiltEstimator R) (sched : list (nat * nat))
    (g : Z) (mdt : MetaDataTable) (obs pred : list (Image (Complex R)))
    (fs fs' : FileSystem R) :
  processMicrograph est sched g mdt obs pred fs = Ok fs' ->
  let root := getOutputFilenameRoot mdt (outPath est) in
  exists ops,
    checkpointWrites est sched mdt obs pred = Ok ops
    /\ fs' = applyWrites fs ops
    /\ forall st og,
         statesInPlace fs ops st ->
         og ∈ getOptGroupsPresent (obsModel est) mdt ->
         exists_ fs (wAccName root (string_of_int og)) = false ->
         checkpointExists st root (string_of_int og) = true ->
         st !! xyAccRealName root (string_of_int og)
           = fs' !! xyAccRealName root (string_of_int og)
         /\ st !! xyAccImagName root (string_of_int og)
           = fs' !! xyAccImagName root (string_of_int og)
         /\ (st ∈ observableStates fs ops ->
             st !! wAccName root (string_of_int og)
             = fs' !! wAccName root (string_of_int og)).
Proof.
  intros Hrun root. unfold processMicrograph in Hrun.
  destruct (ready est); cbn [negb] in Hrun; [|discriminate].
  apply bind_Ok in Hrun as (ops & Hops & [= <-]).
  exists ops. split; [done|]. split; [done|].
  destruct (checkpointWrites_Ok_inv _ _ _ _ _ _ Hops) as (sums & Hlen & ->).
  fold root. set (optGroups := getOptGroupsPresent (obsModel est) mdt).
  set (ops := mjoin (zip_with (checkpointFiles root) optGroups sums)).
  intros st og Hst Hin Hnew Htest.
  apply list_elem_of_lookup in Hin as [ci Hog].
  destruct (lookup_lt_is_Some_2 sums ci) as [sm Hsm].
  { rewrite Hlen. by eapply lookup_lt_Some. }
  destruct (checkpointWrites_at root optGroups sums ci og sm Hog Hsm) as (Hr & Hi & Hw).
  fold ops in Hr, Hi, Hw.
  pose proof (checkpointWrites_NoDup root optGroups sums (NoDup_remove_dups _)) as Hnodup.
  fold ops in Hnodup.
  assert (Hat : forall j n fn img, ops !! j = Some (fn, img) ->
            fn ∈ (take n ops).*1 -> (j < n)%nat).
  { intros j n fn img Hj Hfn.
    apply list_elem_of_fmap in Hfn as ([fn0 img0] & Hfn0 & Hin0). cbn in Hfn0. subst fn0.
    apply list_elem_of_lookup in Hin0 as [k Hk].
    apply lookup_take_Some in Hk as [Hk Hlt].
    assert (k = j); [|lia].
    apply (NoDup_lookup _ _ _ fn Hnodup); by rewrite list_lookup_fmap, ?Hk, ?Hj. }
  assert (Hkeep : forall j n fn img, (j < n)%nat -> ops !! j = Some (fn, img) ->
            applyWrites fs (take n ops) !! fn = applyWrites fs ops !! fn).
  { intros j n fn img Hj Hop.
    rewrite (applyWrites_lookup fs ops fn img Hnodup) by by eapply list_elem_of_lookup_2.
    apply applyWrites_lookup.
    - rewrite fmap_take. eapply sublist_NoDup; [done|]. apply sublist_take.
    - apply (list_elem_of_lookup_2 _ j). apply lookup_take_Some. split; [done|lia]. }
  unfold checkpointExists in Htest. apply andb_true_iff in Htest as [_ Htest].
  unfold exists_ in Htest, Hnew.
  apply bool_decide_eq_true in Htest. apply bool_decide_eq_false in Hnew.
  assert (Hfinal : forall n,
            is_Some (applyWrites fs (take n ops) !! wAccName root (string_of_int og)) ->
            applyWrites fs (take n ops) !! xyAccRealName root (string_of_int og)
              = applyWrites fs ops !! xyAccRealName root (string_of_int og)
            /\ applyWrites fs (take n ops) !! xyAccImagName root (string_of_int og)
              = applyWrites fs ops !! xyAccImagName root (string_of_int og)
            /\ applyWrites fs (take n ops) !! wAccName root (string_of_int og)
              = applyWrites fs ops !! wAccName root (string_of_int og)).
  { intros n Hthere.
    assert (Hlt : (ci * 3 + 2 < n)%nat).
    { destruct (decide (wAccName root (string_of_int og) ∈ (take n ops).*1)) as [Hfn|Hout].
      - by apply (Hat _ _ _ _ Hw).
      - exfalso. apply Hnew. by rewrite <- (applyWrites_other _ _ _ Hout). }
    split; [apply (Hkeep (ci * 3 + 0)%nat n _ _ ltac:(lia) Hr)|].
    split; [apply (Hkeep (ci * 3 + 1)%nat n _ _ ltac:(lia) Hi)|].
    apply (Hkeep (ci * 3 + 2)%nat n _ _ ltac:(lia) Hw). }
  assert (Hdone : st ∈ observableStates fs ops ->
            st !! xyAccRealName root (string_of_int og)
              = applyWrites fs ops !! xyAccRealName root (string_of_int og)
            /\ st !! xyAccImagName root (string_of_int og)
              = applyWrites fs ops !! xyAccImagName root (string_of_int og)
            /\ st !! wAccName root (string_of_int og)
              = applyWrites fs ops !! wAccName root (string_of_int og)).
  { intros (n & -> & _)%list_elem_of_fmap. by apply Hfinal. }
  destruct Hst as [Hst|(n & fn & img & part & Hn & Hst)].
  - destruct (Hdone Hst) as (Hreal & Himag & Hweight). by repeat split.
  - split; [|split]; [| |intros Hobs; by destruct (Hdone Hobs) as (_ & _ & ?)].
    all: assert (Hge : (ci * 3 + 2 <= n)%nat).
    1,3: destruct (decide (fn = wAccName root (string_of_int og))) as [Heq|Hne];
      [ assert (n = (ci * 3 + 2)%nat); [|lia];
        apply (NoDup_lookup _ _ _ (wAccName root (string_of_int og)) Hnodup);
          by rewrite list_lookup_fmap, ?Hn, ?Hw, ?Heq
      | rewrite Hst, lookup_insert_ne in Htest by done;
        destruct (decide (wAccName root (string_of_int og) ∈ (take n ops).*1))
          as [Hfn|Hout];
        [ pose proof (Hat _ _ _ _ Hw Hfn); lia
        | exfalso; apply Hnew; by rewrite <- (applyWrites_other _ _ _ Hout) ] ].
    + rewrite Hst, lookup_insert_ne.
      * apply (Hkeep (ci * 3 + 0)%nat n _ _ ltac:(lia) Hr).
      * intros Heq. assert ((ci * 3 + 0)%nat = n); [|lia].
        apply (NoDup_lookup _ _ _ fn Hnodup); by rewrite list_lookup_fmap, ?Hn, ?Hr, ?Heq.
    + rewrite Hst, lookup_insert_ne.
      * apply (Hkeep (ci * 3 + 1)%nat n _ _ ltac:(lia) Hi).
      * intros Heq. assert ((ci * 3 + 1)%nat = n); [|lia].
        apply (NoDup_lookup _ _ _ fn Hnodup); by rewrite list_lookup_fmap, ?Hn, ?Hi, ?Heq.
Qed.

End ReadBack.

(** * The table from group numbers to places *)

Lemma fillGroupToIndex_out_of_range (optGroups : list Z) :
  forall (i : nat) (groupToIndex : list Z),
    ¬ Forall (fun og => 0 <= og < Z.of_nat (length groupToIndex)) optGroups ->
    fillGroupToIndex i optGroups groupToIndex = Undefined.
Proof.
  induction optGroups as [|og rest IH]; intros i gti Hbad.
  - exfalso. apply Hbad. constructor.
  - cbn [fillGroupToIndex].
    destruct (decide (0 <= og < Z.of_nat (length gti))) as [Hog|Hog].
    + rewrite vec_set_Ok_Z by lia. cbn [bind]. apply IH.
      rewrite length_insert. intros Hrest. apply Hbad. by constructor.
    + unfold vec_set. destruct (og <? 0) eqn:Hneg; [done|].
      apply Z.ltb_ge in Hneg.
      destruct (Z.to_nat og <? length gti)%nat eqn:Hlt; [|done].
      apply Nat.ltb_lt in Hlt. lia.
Qed.

(** X10. The table [processMicrograph] builds from the groups present.
    For different group numbers from 0 to the number N of optics groups
    it holds, at every group present, the place of that group in the list
    and -1 everywhere else; a group number below 0 or above N makes the
    loop write outside the table. *)
Theorem groupToIndex_round_trip (n : nat) (optGroups : list Z) :
  NoDup optGroups ->
  (Forall (fun og => 0 <= og <= Z.of_nat n) optGroups ->
     exists groupToIndex,
       fillGroupToIndex 0 optGroups (replicate (n + 1) (-1)) = Ok groupToIndex
       /\ length groupToIndex = (n + 1)%nat
       /\ (forall i og, optGroups !! i = Some og ->
             vec_get groupToIndex og = Ok (Z.of_nat i))
       /\ (forall og, 0 <= og <= Z.of_nat n -> og ∉ optGroups ->
             vec_get groupToIndex og = Ok (-1)))
  /\ (¬ Forall (fun og => 0 <= og <= Z.of_nat n) optGroups ->
      fillGroupToIndex 0 optGroups (replicate (n + 1) (-1)) = Undefined).
Proof.
  intros Hnodup. split.
  - intros Hrange.
    destruct (fillGroupToIndex_spec optGroups 0 (replicate (n + 1) (-1)) Hnodup)
      as (gti & Hrun & Hlen & Hat & Hother).
    { eapply Forall_impl; [done|]. intros og Hog. rewrite length_replicate. cbn beta in *. lia. }
    exists gti. split; [done|]. rewrite length_replicate in Hlen. split; [done|]. split.
    + intros i og Hi. specialize (Hat i og Hi). cbn in Hat.
      apply vec_get_Ok_Z; [|done].
      apply (proj1 (Forall_forall _ _) Hrange og). by eapply list_elem_of_lookup_2.
    + intros og Hog Hout. apply vec_get_Ok_Z; [lia|].
      rewrite Hother.
      * apply lookup_replicate_2. lia.
      * intros og' Hin Heq. apply Hout.
        assert (0 <= og') by (apply (proj1 (Forall_forall _ _) Hrange og' Hin)).
        assert (og' = og) as -> by lia. done.
  - intros Hbad. apply fillGroupToIndex_out_of_range.
    intros Hrange. apply Hbad. eapply Forall_impl; [done|].
    intros og Hog. rewrite length_replicate in Hog. cbn beta in *. lia.
Qed.

(** * The small run *)

Ltac by_computation := vm_compute; exact eq_refl.

Lemma exampleWrites_run :
  checkpointWrites exampleEstimator exampleSchedule exampleBatch exampleObs examplePred
  = Ok exampleWrites.
Proof. by_computation. Qed.

Lemma exampleFiles_run :
  processMicrograph exampleEstimator exampleSchedule 0 exampleBatch exampleObs examplePred ∅
  = Ok exampleFiles.
Proof. by_computation. Qed.

Lemma exampleFitted_run :
  parametricFit exampleEstimator exampleFiles [exampleBatch] (opticsMdt exampleOptics)
  = Ok exampleFitted.
Proof. by_computation. Qed.

Lemma exampleOptics_complete {R} `{RFloat R} `{Collaborators R} (parser : IOParser) :
  opticsComplete (R:=R) (exampleEstimatorWith parser) (opticsMdt exampleOptics).
Proof. repeat split. cbn. lia. Qed.

Lemma exampleBatch_has_pair :
  exists mdt, mdt ∈ [exampleBatch]
    /\ checkpointExists exampleFiles
         (getOutputFilenameRoot (R:=float) mdt (outPath exampleEstimator))
         (string_of_int (Z.of_nat 0 + 1)) = true.
Proof. exists exampleBatch. split; [left|]. by_computation. Qed.

Lemma exampleSchedule_valid {R} `{RFloat R} (est : TiltEstimator R) :
  nr_omp_threads est = 2%nat -> validSchedule est exampleBatch exampleSchedule.
Proof.
  intros Hnr. split.
  - change ([2; 0; 1]%nat ≡ₚ [0; 1; 2]%nat).
    etrans; [apply perm_swap|]. apply perm_skip, perm_swap.
  - rewrite Hnr. repeat constructor.
Qed.

Lemma exampleBatch_groups (p : nat) :
  (p < numberOfObjects exampleBatch)%nat -> is_Some (getOpticsGroup exampleBatch p).
Proof.
  intros Hp. destruct p as [|[|[|p]]]; [eexists; reflexivity..|].
  cbn in Hp. lia.
Qed.

(** C1, on the small run: the row of group 1 gets the tilt of the planar
    fit, and no coefficients. *)
Lemma parametricFit_branches_witness :
  exists optOut',
    parametricFit exampleEstimator exampleFiles [exampleBatch] (opticsMdt exampleOptics)
    = Ok optOut'
    /\ getValue EMDL_IMAGE_BEAMTILT_X 0 optOut' = Some (MDDouble 4%float)
    /\ getValue EMDL_IMAGE_BEAMTILT_Y 0 optOut' = Some (MDDouble 7.75%float)
    /\ getValue EMDL_IMAGE_ODD_ZERNIKE_COEFFS 0 optOut' = None.
Proof.
  destruct (parametricFit_branches exampleEstimator exampleFiles [exampleBatch]
              (opticsMdt exampleOptics) 0 2.5%float 0.5%float
              eq_refl (exampleOptics_complete noOptions) eq_refl eq_refl
              exampleBatch_has_pair)
    as (optOut' & Hrun & Hplanar & _).
  exists optOut'. split; [exact Hrun|].
  destruct Hplanar as (sx & sy & tx & ty & sx' & sy' & tx' & ty' & Hlin & Hopt & HX & HY & HZ);
    [reflexivity|].
  vm_compute in Hlin. injection Hlin as <- <- <- <-.
  vm_compute in Hopt. injection Hopt as <- <- <- <-.
  rewrite HX, HY, HZ. repeat split.
Defined.

(** The other branch on the same files: with [--odd_aberr_max_n 3] the
    rows of both groups get the tilt read from the coefficients, and the
    coefficients. *)
Lemma parametricFit_zernike_example :
  parametricFit zernikeEstimator exampleFiles [exampleBatch] (opticsMdt exampleOptics)
  = Ok zernikeFitted
  /\ getValue EMDL_IMAGE_BEAMTILT_X 0 zernikeFitted = Some (MDDouble 2%float)
  /\ getValue EMDL_IMAGE_BEAMTILT_Y 0 zernikeFitted = Some (MDDouble 4%float)
  /\ getValue EMDL_IMAGE_ODD_ZERNIKE_COEFFS 0 zernikeFitted
     = Some (MDDoubleVector [2%float; 4%float; 10%float])
  /\ getValue EMDL_IMAGE_ODD_ZERNIKE_COEFFS 1 zernikeFitted
     = Some (MDDoubleVector [2%float; 4%float; 12%float]).
Proof. repeat split; by_computation. Qed.

(** C2, on a ramp and a weight image whose first row is zero. *)
Lemma normalise_pixel_witness :
  A2D_ELEM (normalise exampleEstimator (rampImage double_of_int 1) exampleWeight) 1 2
  = mkComplex 3%float 0.5%float
  /\ A2D_ELEM (normalise exampleEstimator (rampImage double_of_int 1) exampleWeight) 0 2
     = mkComplex 0%float 0%float.
Proof.
  split.
  - rewrite (normalise_pixel exampleEstimator (rampImage double_of_int 1) exampleWeight 1 2)
      by (vm_compute; lia).
    by_computation.
  - rewrite (normalise_pixel exampleEstimator (rampImage double_of_int 1) exampleWeight 0 2)
      by (vm_compute; lia).
    by_computation.
Defined.

(** C4, on the small run. *)
Lemma isFinished_spec_witness :
  isFinished exampleEstimator exampleFiles exampleBatch = Ok true
  /\ isFinished exampleEstimator ∅ exampleBatch = Ok false.
Proof.
  destruct (isFinished_spec exampleEstimator ∅ exampleBatch eq_refl)
    as ([b Hb] & Hiff & Hafter).
  split.
  - exact (Hafter exampleSchedule 0 exampleObs examplePred exampleFiles exampleFiles_run).
  - rewrite Hb. f_equal. destruct b; [|reflexivity].
    destruct (proj1 Hiff Hb 0%nat 2 eq_refl) as (Hreal & _). discriminate Hreal.
Defined.

(** C5, on the small run with the files of the batch removed again for
    group 2. *)
Lemma parametricFit_missing_checkpoints_witness :
  let fs := delete "out/mic1_wAcc_optics-class_2.mrc" exampleFiles in
  fitGroup exampleEstimator fs [exampleBatch] (opticsMdt exampleOptics) 1
  = Ok (opticsMdt exampleOptics)
  /\ parametricFit exampleEstimator fs [exampleBatch] (opticsMdt exampleOptics)
     = foldM (fitGroup exampleEstimator fs [exampleBatch]) (opticsMdt exampleOptics) [0%nat].
Proof.
  intros fs.
  destruct (parametricFit_missing_checkpoints exampleEstimator fs [exampleBatch]
              (opticsMdt exampleOptics) eq_refl (exampleOptics_complete noOptions))
    as (_ & Hskip & Hloop & _).
  split.
  - apply Hskip; [vm_compute; lia|apply exampleOptics_complete|].
    intros mdt Hin. apply list_elem_of_singleton in Hin. rewrite Hin. by_computation.
  - rewrite Hloop. reflexivity.
Defined.

(** C8, on the small run with the ring from 3.5 to 5. *)
Lemma exclusionRing_mask_witness :
  A2D_ELEM (fitMask ringEstimator 0 exampleWeight) 1 1 = 0%float
  /\ A2D_ELEM (fitMask ringEstimator 0 exampleWeight) 1 2 = 2%float
  /\ fitMask exampleEstimator 0 exampleWeight
     = multiply exampleWeight (getHollowWeight (reference exampleEstimator) 5%float)
  /\ xring1 (read ringEstimator noOptions) = (-1)%float.
Proof.
  destruct (exclusionRing_mask ringEstimator 0 exampleWeight)
    as (Hring & _ & Hdefault); [by_computation..|].
  destruct (exclusionRing_mask exampleEstimator 0 exampleWeight)
    as (_ & Hoff & _); [by_computation..|].
  split; [|split; [|split]].
  - rewrite Hring by (vm_compute; first [exact eq_refl | lia]). by_computation.
  - rewrite Hring by (vm_compute; first [exact eq_refl | lia]). by_computation.
  - rewrite Hoff by (by_computation). reflexivity.
  - apply Hdefault. reflexivity.
Defined.

(** C9, on the small run. *)
Lemma parametricFit_frame_witness :
  length exampleFitted = 2%nat
  /\ getValue (EMDL_OTHER "rlnVoltage") 1 exampleFitted = Some (MDDouble 300%float)
  /\ getValue EMDL_IMAGE_ODD_ZERNIKE_COEFFS 1 exampleFitted = None.
Proof.
  destruct (parametricFit_frame exampleEstimator exampleFiles [exampleBatch]
              (opticsMdt exampleOptics) exampleFitted exampleFitted_run)
    as (Hlen & Hframe).
  split; [exact Hlen|]. split.
  - rewrite Hframe; [by_computation|]. clear.
    intros (_ & _ & [Hl|[Hl|[Hl _]]]); discriminate Hl.
  - rewrite Hframe; [by_computation|]. clear.
    intros (_ & _ & [Hl|[Hl|[_ Hdeg]]]); [discriminate Hl..|].
    apply Hdeg. exact eq_refl.
Defined.

Lemma exampleBatch_indexable :
  batchIndexable exampleEstimator exampleBatch exampleObs examplePred.
Proof.
  split; [apply exampleBatch_groups|]. split; [cbn; lia|]. split; [cbn; lia|].
  assert (Hg : getOptGroupsPresent (obsModel exampleEstimator) exampleBatch = [1; 2])
    by (by_computation).
  rewrite Hg. repeat constructor; cbn; lia.
Qed.

(** The integers up to 40 are added in [double] without rounding. *)
Lemma exactUpTo_double_of_int : exactUpTo double_of_int 40.
Proof.
  set (range := (fun k => Z.of_nat k - 40) <$> seq 0 81).
  assert (Hrange : forall a, Z.abs a <= 40 -> In a range).
  { intros a Ha. apply list_elem_of_In, list_elem_of_fmap.
    exists (Z.to_nat (a + 40)). split; [lia|]. apply elem_of_seq. lia. }
  assert (Hsums : forallb (fun a =>
                     forallb (fun b =>
                                (40 <? Z.abs (a + b))
                                || PrimFloat.Leibniz.eqb
                                     (PrimFloat.add (double_of_int a) (double_of_int b))
                                     (double_of_int (a + b))) range) range = true)
    by (by_computation).
  assert (Hones : forallb (fun a =>
                     PrimFloat.Leibniz.eqb (PrimFloat.mul 1 (double_of_int a))
                       (double_of_int a)) range = true)
    by (by_computation).
  split; [reflexivity|]. split.
  - intros a b Ha Hb Hab.
    rewrite forallb_forall in Hsums. pose proof (Hsums a (Hrange a Ha)) as Hrow.
    rewrite forallb_forall in Hrow. pose proof (Hrow b (Hrange b Hb)) as Hcell.
    apply orb_true_iff in Hcell as [Hover|Heq]; [apply Z.ltb_lt in Hover; lia|].
    by apply FloatAxioms.Leibniz.eqb_spec in Heq.
  - intros a Ha.
    rewrite forallb_forall in Hones. pose proof (Hones a (Hrange a Ha)) as Heq.
    by apply FloatAxioms.Leibniz.eqb_spec in Heq.
Qed.


(** [ulpsOf] on a few numbers: 1 is 2^1074 units, -0.5 is -2^1073, the
    smallest positive [double] is one unit, and infinity and NaN have
    none. *)
Lemma ulpsOf_examples :
  ulpsOf 1%float = Some (2 ^ 1074)
  /\ ulpsOf (-0.5)%float = Some (- 2 ^ 1073)
  /\ ulpsOf 0x1p-1074%float = Some 1
  /\ ulpsOf infinity = None
  /\ ulpsOf nan = None.
Proof. repeat split; by_computation. Qed.

(** In [double] the order does show in the last place: the weights 1,
    1e16 and -1e16 of three batches are merged to 0 in this order and to
    1 when the first batch comes last. *)
Lemma merge_order_rounds :
  pixel ChWeight
    (mergeCheckpoints exampleEstimator roundingFiles "1"
       [namedBatch "a"; namedBatch "b"; namedBatch "c"]).1 0
  = Some 0%float
  /\ pixel ChWeight
       (mergeCheckpoints exampleEstimator roundingFiles "1"
          [namedBatch "b"; namedBatch "c"; namedBatch "a"]).1 0
     = Some 1%float.
Proof. split; by_computation. Qed.

(** C6, on the small run: the groups of the batch are defined, and the
    call makes no access out of bounds. *)
Lemma processMicrograph_defined_groups_witness :
  processMicrograph exampleEstimator exampleSchedule 0 exampleBatch
    exampleObs examplePred ∅ <> Undefined.
Proof.
  destruct (processMicrograph_defined_groups exampleEstimator exampleSchedule 0
              exampleBatch exampleObs examplePred ∅
              ltac:(by_computation) ltac:(by_computation)
              exampleBatch_groups ltac:(cbn; lia) ltac:(cbn; lia)
              (exampleSchedule_valid exampleEstimator eq_refl)) as [_ Hrun].
  exact Hrun.
Defined.

(** C6 as stated fails. Group 0 is not defined in the optics table, yet
    [processMicrograph] accumulates the particle and writes a pair for
    "class 0" without any error; group 7 is not defined either, and the
    call indexes [groupToIndex] out of bounds instead of reporting an
    error. *)
Lemma processMicrograph_no_group_check :
  findUndefinedOptGroups exampleOptics batchOfGroup0 = [0]
  /\ processMicrograph exampleEstimator [(0, 0)]%nat 0 batchOfGroup0
       exampleObs examplePred ∅ = Ok group0Files
  /\ exists_ group0Files "out/mic1_wAcc_optics-class_0.mrc" = true
  /\ findUndefinedOptGroups exampleOptics batchOfGroup7 = [7]
  /\ processMicrograph exampleEstimator [(0, 0)]%nat 0 batchOfGroup7
       exampleObs examplePred ∅ = Undefined.
Proof. repeat split; by_computation. Qed.

(** C7, on the small run. *)
Lemma processMicrograph_writes_in_place_witness :
  exists ops,
    checkpointWrites exampleEstimator exampleSchedule exampleBatch exampleObs examplePred
    = Ok ops
    /\ exampleFiles = applyWrites ∅ ops
    /\ checkpointExists exampleFiles "out/mic1" "2" = true.
Proof.
  destruct (processMicrograph_writes_in_place exampleEstimator exampleSchedule 0
              exampleBatch exampleObs examplePred ∅ exampleFiles exampleFiles_run)
    as (ops & sums & Hops & Hfs & _ & _ & _ & Hdone).
  exists ops. split; [exact Hops|]. split; [exact Hfs|].
  apply (Hdone 2). vm_compute. right. left.
Defined.

(** C7 as stated fails. After the second write of the small run the real
    and the imaginary part of the pair of group 1 exist under their final
    names and the weight does not: a reader finds a partial pair. *)
Lemma processMicrograph_partial_pair_visible :
  checkpointWrites exampleEstimator exampleSchedule exampleBatch exampleObs examplePred
  = Ok exampleWrites
  /\ applyWrites ∅ (take 2 exampleWrites) ∈ observableStates ∅ exampleWrites
  /\ exists_ (applyWrites ∅ (take 2 exampleWrites)) (xyAccRealName "out/mic1" "1") = true
  /\ exists_ (applyWrites ∅ (take 2 exampleWrites)) (xyAccImagName "out/mic1" "1") = true
  /\ exists_ (applyWrites ∅ (take 2 exampleWrites)) (wAccName "out/mic1" "1") = false.
Proof.
  split; [by_computation|]. split.
  - apply list_elem_of_fmap. exists 2%nat. split; [reflexivity|].
    apply elem_of_seq. vm_compute. lia.
  - repeat split; by_computation.
Qed.

(** C10, on the small run: at pixel (0, 0) the distance is +infinity, so
    the ring from 3.5 to 5 keeps the pixel and a ring that ends at
    +infinity sets it to 0. *)
Lemma exclusionRing_zero_frequency_examples :
  ringDistance ringEstimator 0 0 = infinity
  /\ A2D_ELEM (exclusionRing ringEstimator positiveWeight) 0 0 = 1%float
  /\ A2D_ELEM (exclusionRing openRingEstimator positiveWeight) 0 0 = 0%float.
Proof. repeat split; by_computation. Qed.

(** C10, on the ring that ends at +infinity: pixel (0, 0) is decided by
    the two comparisons of the quotient and set to 0. *)
Lemma exclusionRing_zero_frequency_witness :
  A2D_ELEM (exclusionRing openRingEstimator positiveWeight) 0 0 = 0%float.
Proof.
  destruct (exclusionRing_zero_frequency openRingEstimator positiveWeight)
    as (_ & _ & Hpix).
  rewrite Hpix.
  - by_computation.
  - reflexivity.
  - reflexivity.
  - vm_compute. lia.
  - vm_compute. lia.
  - by_computation.
Defined.

(** * The further statements on the small run *)

Lemma exampleFilesAfter_run :
  processMicrograph exampleEstimator [(0, 0)]%nat 1 batchOfGroup0
    exampleObs examplePred exampleFiles
  = Ok exampleFilesAfter.
Proof. by_computation. Qed.

(** X3, on the small run: the batch stays finished when another batch is
    processed. *)
Lemma checkpoints_persist_witness :
  isFinished exampleEstimator exampleFilesAfter exampleBatch = Ok true.
Proof.
  destruct (checkpoints_persist exampleEstimator exampleEstimator [(0, 0)]%nat 1
              batchOfGroup0 exampleObs examplePred exampleFiles exampleFilesAfter
              exampleFilesAfter_run) as (_ & Hfinished & _).
  apply Hfinished. by_computation.
Defined.

(** X4, on the small run. *)
Lemma processMicrograph_rerun_witness :
  processMicrograph exampleEstimator exampleSchedule 7 exampleBatch exampleObs examplePred
    exampleFiles
  = Ok exampleFiles.
Proof.
  exact (processMicrograph_rerun exampleEstimator exampleSchedule 0 7 exampleBatch
           exampleObs examplePred ∅ exampleFiles exampleFiles_run).
Defined.

(** X7, on the small run: while the weight file of group 1 is being
    written, the third file of the run, the real part of the group
    already is what it will be. *)
Lemma weight_file_written_last_witness :
  <[wAccName "out/mic1" "1" := mkImage 0 0 []]> (applyWrites ∅ (take 2 exampleWrites))
    !! xyAccRealName "out/mic1" "1"
  = exampleFiles !! xyAccRealName "out/mic1" "1".
Proof.
  destruct (weight_file_written_last exampleEstimator exampleSchedule 0 exampleBatch
              exampleObs examplePred ∅ exampleFiles exampleFiles_run)
    as (ops & Hops & _ & Hsafe).
  assert (ops = exampleWrites) as ->.
  { pose proof exampleWrites_run as Hrun. rewrite Hops in Hrun. by injection Hrun. }
  apply (Hsafe (<[wAccName "out/mic1" "1" := mkImage 0 0 []]>
                  (applyWrites ∅ (take 2 exampleWrites))) 1).
  - right. exists 2%nat, (wAccName "out/mic1" "1"),
      (default (mkImage 0 0 []) (snd <$> exampleWrites !! 2%nat)), (mkImage 0 0 []).
    split; [by_computation|reflexivity].
  - vm_compute. left.
  - by_computation.
  - by_computation.
Defined.

(** X9, on the estimator of the small run. *)
Lemma empty_inputs_witness :
  processMicrograph exampleEstimator [] 0 [] exampleObs examplePred exampleFiles
  = Ok exampleFiles
  /\ isFinished exampleEstimator exampleFiles [] = Ok true.
Proof.
  destruct (empty_inputs exampleEstimator 0 exampleObs examplePred exampleFiles
              (opticsMdt exampleOptics) eq_refl) as (Hrun & Hfinished & _).
  split; [exact Hrun|exact Hfinished].
Defined.

(** X10, for two optics groups: the groups 2 and 1 present, and the
    groups 2 and 7. *)
Lemma groupToIndex_round_trip_witness :
  (exists groupToIndex,
     fillGroupToIndex 0 [2; 1] (replicate (2 + 1) (-1)) = Ok groupToIndex
     /\ vec_get groupToIndex 2 = Ok 0
     /\ vec_get groupToIndex 1 = Ok 1
     /\ vec_get groupToIndex 0 = Ok (-1))
  /\ fillGroupToIndex 0 [2; 7] (replicate (2 + 1) (-1)) = Undefined.
Proof.
  assert (Hnodup : forall a b : Z, a ≠ b -> NoDup [a; b]).
  { intros a b Hab. repeat constructor; [|apply not_elem_of_nil].
    by intros ->%list_elem_of_singleton. }
  destruct (groupToIndex_round_trip 2 [2; 1] (Hnodup 2 1 ltac:(discriminate))) as [Hin _].
  destruct (groupToIndex_round_trip 2 [2; 7] (Hnodup 2 7 ltac:(discriminate))) as [_ Hout].
  split.
  - destruct Hin as (gti & Hrun & _ & Hat & Hother); [repeat constructor; lia|].
    exists gti. split; [exact Hrun|]. split; [exact (Hat 0%nat 2 eq_refl)|].
    split; [exact (Hat 1%nat 1 eq_refl)|].
    apply Hother; [lia|]. rewrite !not_elem_of_cons. repeat split; try discriminate.
    apply not_elem_of_nil.
  - apply Hout. intros Hall. apply Forall_cons in Hall as [_ Hall].
    apply Forall_cons in Hall as [H7 _]. cbn in H7. lia.
Defined.

Import ConvertToTiff.

(** * The pages of a TIFF file *)

Lemma foldM_snoc {B X} (g : B -> result X) (l : list B) (xs init : list X) :
  Forall2 (fun b x => g b = Ok x) l xs ->
  foldM (fun acc b => let* x := g b in Ok (acc ++ [x])%list) init l = Ok (init ++ xs)%list.
Proof.
  intros Hall. revert init. induction Hall as [|b x l xs Hb _ IH]; intros init.
  - cbn. by rewrite app_nil_r.
  - cbn [foldM]. rewrite Hb. cbn [bind]. rewrite IH. by rewrite <- app_assoc.
Qed.

Lemma foldM_undefined {A B} (f : A -> B -> result A) (l : list B) (b : B) :
  b ∈ l -> (forall a, f a b = Undefined) ->
  (forall a b' msg, f a b' ≠ ReportError msg) ->
  forall a, foldM f a l = Undefined.
Proof.
  intros Hin Hb Hno. induction l as [|b' l IH]; intros a; [by apply elem_of_nil in Hin|].
  cbn [foldM]. apply elem_of_cons in Hin as [<-|Hin]; [by rewrite Hb|].
  destruct (f a b') as [a'|msg|] eqn:Hf; cbn [bind]; [by apply IH|by apply Hno in Hf|done].
Qed.

Lemma rowAt_Ok {T} (buf : Image T) (k : nat) :
  (k < ydim buf)%nat -> length (data buf) = (ydim buf * xdim buf)%nat ->
  rowAt buf (Z.of_nat k) = Ok (take (xdim buf) (drop (k * xdim buf) (data buf))).
Proof.
  intros Hk Hlen. unfold rowAt. cbn zeta.
  rewrite (proj2 (Z.ltb_ge _ _)) by lia.
  rewrite (proj2 (Z.ltb_ge _ _)) by nia.
  cbn [orb]. do 3 f_equal. lia.
Qed.

Lemma rowAt_outside {T} (buf : Image T) (k : Z) :
  (0 < xdim buf)%nat -> length (data buf) = (ydim buf * xdim buf)%nat ->
  k < 0 \/ Z.of_nat (ydim buf) <= k ->
  rowAt buf k = Undefined.
Proof.
  intros Hx Hlen Hk. unfold rowAt. cbn zeta.
  destruct (k * Z.of_nat (xdim buf) <? 0) eqn:Hneg; [done|].
  apply Z.ltb_ge in Hneg. cbn [orb].
  rewrite (proj2 (Z.ltb_lt _ _)); [done|]. nia.
Qed.

(** The rows of an image one after the other are its data. *)
Lemma rows_join {T} (X : nat) (l : list T) (Y : nat) :
  length l = (Y * X)%nat ->
  mjoin ((fun k => take X (drop (k * X) l)) <$> seq 0 Y) = l.
Proof.
  revert l. induction Y as [|Y IH]; intros l Hlen.
  - cbn in *. by destruct l.
  - rewrite seq_S, fmap_app, join_app. cbn [fmap list_fmap mjoin list_join Nat.add].
    rewrite app_nil_r.
    transitivity (take (Y * X) l ++ drop (Y * X) l)%list; [|apply take_drop]. f_equal.
    + rewrite <- (IH (take (Y * X) l)) by (rewrite length_take; lia).
      f_equal. apply list_fmap_ext. intros i k Hk%lookup_seq. destruct Hk as [-> Hk].
      cbn [Nat.add]. rewrite skipn_firstn_comm, take_take.
      f_equal. nia.
    + apply take_ge. rewrite length_drop. lia.
Qed.

Lemma reverse_seq_mirror (Y : nat) :
  reverse ((fun iy => Y - 1 - iy)%nat <$> seq 0 Y) = seq 0 Y.
Proof.
  apply list_eq. intros i.
  destruct (decide (i < Y)%nat) as [Hi|Hi].
  - rewrite reverse_lookup by (rewrite length_fmap, length_seq; lia).
    rewrite length_fmap, length_seq, list_lookup_fmap.
    rewrite !lookup_seq_lt by lia. cbn. f_equal. lia.
  - rewrite !lookup_ge_None_2; [done|rewrite length_seq; lia|].
    rewrite length_reverse, length_fmap, length_seq. lia.
Qed.

Lemma tiffPage_no_report_rows (app : convert_to_tiff) (buf : Image Pixel)
    (lines : list (list Pixel)) (iy : nat) (msg : string) :
  (let* line := rowAt buf (ny app - 1 - Z.of_nat iy) in Ok (lines ++ [line])%list)
  ≠ ReportError msg.
Proof. unfold rowAt. cbn zeta. by destruct (_ || _). Qed.

(** X11. [write_tiff_one_page] turns the image upside down, and it counts
    the rows from the height [ny] of the movie the object holds, not from
    the image it is handed. For an image of exactly [ny] rows, scanline
    [iy] of the page is row [ny - 1 - iy], every row is written once, and
    the scanlines read from the last to the first are the image again;
    for an image of any other height the function reads outside the
    image. *)
Theorem tiffPage_scanlines (app : convert_to_tiff) (T : PixelType) (buf : Image Pixel)
    (filter : Compression) (level : Z) :
  (0 < xdim buf)%nat -> (0 < ydim buf)%nat ->
  length (data buf) = (ydim buf * xdim buf)%nat ->
  (filter = COMPRESSION_DEFLATE -> 1 <= level <= 9) ->
  (ny app = Z.of_nat (ydim buf) ->
     exists page,
       tiffPage app T buf filter level = Ok page
       /\ p_imageWidth page = xdim buf /\ p_imageLength page = ydim buf
       /\ length (p_scanlines page) = ydim buf
       /\ (forall iy, (iy < ydim buf)%nat ->
             p_scanlines page !! iy
             = Some (take (xdim buf) (drop ((ydim buf - 1 - iy) * xdim buf) (data buf))))
       /\ mjoin (reverse (p_scanlines page)) = data buf)
  /\ (ny app ≠ Z.of_nat (ydim buf) -> tiffPage app T buf filter level = Undefined).
Proof.
  intros Hx Hy Hlen Hlevel.
  assert (Hquality : exists q,
             (if decide (filter = COMPRESSION_DEFLATE)
              then if (level <=? 0) || (9 <? level)
                   then ReportError "Deflate level must be 1, 2, ..., 9"
                   else Ok (Some level)
              else Ok None) = Ok q).
  { destruct (decide _) as [Hd|]; [|eauto]. specialize (Hlevel Hd).
    rewrite (proj2 (Z.leb_gt _ _)), (proj2 (Z.ltb_ge _ _)) by lia. eauto. }
  destruct Hquality as [q Hq]. split.
  - intros Hny. unfold tiffPage. cbn zeta. rewrite Hq. cbn [bind].
    set (row := fun iy => take (xdim buf) (drop ((ydim buf - 1 - iy) * xdim buf) (data buf))).
    rewrite (foldM_snoc (fun iy => rowAt buf (ny app - 1 - Z.of_nat iy))
               (seq 0 (ydim buf)) (row <$> seq 0 (ydim buf)) []).
    2:{ apply Forall2_fmap_r, Forall_Forall2_diag, Forall_forall.
        intros iy Hiy%elem_of_seq.
        replace (ny app - 1 - Z.of_nat iy) with (Z.of_nat (ydim buf - 1 - iy)) by lia.
        apply rowAt_Ok; [lia|done]. }
    cbn [bind List.app]. eexists. split; [reflexivity|]. cbn.
    split; [done|]. split; [done|].
    split; [by rewrite length_fmap, length_seq|]. split.
    + intros iy Hiy. rewrite list_lookup_fmap, lookup_seq_lt by done. done.
    + etrans; [|apply (rows_join (xdim buf) (data buf) (ydim buf) Hlen)]. f_equal.
      transitivity ((fun k => take (xdim buf) (drop (k * xdim buf) (data buf)))
                      <$> reverse ((fun iy => ydim buf - 1 - iy)%nat <$> seq 0 (ydim buf)));
        [|by rewrite reverse_seq_mirror].
      rewrite fmap_reverse, <- list_fmap_compose. done.
  - intros Hny. unfold tiffPage. cbn zeta. rewrite Hq. cbn [bind].
    assert (Hbad : exists iy, (iy < ydim buf)%nat
                     /\ rowAt buf (ny app - 1 - Z.of_nat iy) = Undefined).
    { destruct (decide (0 < ny app < Z.of_nat (ydim buf))) as [Hin|Hout].
      - exists (Z.to_nat (ny app)). split; [lia|]. apply rowAt_outside; [done..|]. lia.
      - exists 0%nat. split; [done|]. apply rowAt_outside; [done..|]. lia. }
    destruct Hbad as (iy & Hiy & Hrow).
    rewrite (foldM_undefined _ (seq 0 (ydim buf)) iy); [done|..].
    + apply elem_of_seq. lia.
    + intros lines. by rewrite Hrow.
    + intros lines iy' msg. apply tiffPage_no_report_rows.
Qed.

(** * The order of the floating-point numbers *)

Lemma SFcompare_finite_pos (m1 m2 : positive) (e1 e2 : Z) :
  SFcompare (S754_finite false m1 e1) (S754_finite false m2 e2)
  = Some (match e1 ?= e2 with
          | Eq => (m1 ?= m2)%positive
          | Lt => Lt
          | Gt => Gt
          end).
Proof. reflexivity. Qed.

Lemma SFcompare_finite_neg (m1 m2 : positive) (e1 e2 : Z) :
  SFcompare (S754_finite true m1 e1) (S754_finite true m2 e2)
  = Some (match e1 ?= e2 with
          | Eq => CompOpp (m1 ?= m2)%positive
          | Lt => Gt
          | Gt => Lt
          end).
Proof. reflexivity. Qed.

Ltac order_cases :=
  repeat match goal with
         | |- context [(?a ?= ?b)%Z] => destruct (Z.compare_spec a b)
         | |- context [(?a ?= ?b)%positive] => destruct (Pos.compare_spec a b)
         | H : context [(?a ?= ?b)%Z] |- _ => destruct (Z.compare_spec a b)
         | H : context [(?a ?= ?b)%positive] |- _ => destruct (Pos.compare_spec a b)
         end;
  cbn in *; try discriminate; try lia; try reflexivity.

Lemma SFltb_irrefl (x : spec_float) : SFltb x x = false.
Proof.
  unfold SFltb. destruct x as [s|s| |s m e]; try destruct s; try reflexivity.
  - rewrite SFcompare_finite_neg. order_cases.
  - rewrite SFcompare_finite_pos. order_cases.
Qed.

Lemma SFltb_trans (a b c : spec_float) :
  SFltb a b = true -> SFltb b c = true -> SFltb a c = true.
Proof.
  unfold SFltb.
  destruct a as [sa|sa| |sa ma ea], b as [sb|sb| |sb mb eb], c as [sc|sc| |sc mc ec];
    try destruct sa; try destruct sb; try destruct sc;
    try (cbn; discriminate); try (cbn; reflexivity);
    rewrite ?SFcompare_finite_neg, ?SFcompare_finite_pos;
    try (cbn; discriminate); try (cbn; reflexivity);
    intros Hab Hbc; order_cases.
Qed.

(** A number above zero is neither zero nor below it. *)
Lemma SFltb_zero_pos (v : spec_float) :
  SFltb f32_zero v = true -> SFeqb v f32_zero = false /\ SFltb v f32_zero = false.
Proof.
  unfold SFltb, SFeqb, f32_zero.
  destruct v as [s|s| |s m e]; try destruct s; cbn; try discriminate; auto.
Qed.

Lemma SFltb_pos_zero (v g : spec_float) :
  SFeqb v f32_zero = false -> SFltb v f32_zero = false -> SFltb v g = true ->
  SFltb f32_zero v = true.
Proof.
  unfold SFltb, SFeqb, f32_zero.
  destruct v as [s|s| |s m e]; try destruct s; cbn; try discriminate; auto.
Qed.

(** * The gain estimate *)

Lemma gainAfter_cases (v g : spec_float) :
  (gainAfter v g = g) \/
  (gainAfter v g = v /\ SFltb f32_zero v = true /\ SFltb v g = true).
Proof.
  unfold gainAfter.
  destruct (SFeqb v f32_zero) eqn:Heq; cbn [negb andb]; [by left|].
  destruct (SFltb v f32_zero) eqn:Hneg; cbn [negb andb]; [by left|].
  destruct (SFltb v g) eqn:Hlt; [|by left].
  right. split; [done|]. split; [|done]. by eapply SFltb_pos_zero.
Qed.

Lemma gainAfter_bound (v g : spec_float) :
  SFltb f32_zero v = true -> SFltb v (gainAfter v g) = false.
Proof.
  intros Hpos. destruct (SFltb_zero_pos v Hpos) as [Heq Hneg].
  unfold gainAfter. rewrite Heq, Hneg. cbn [negb andb].
  destruct (SFltb v g) eqn:Hlt; [apply SFltb_irrefl|done].
Qed.

Section GainOfAPixel.

Variable n : nat.

Lemma gain_never_raised (frames : list (Image spec_float)) :
  forall g, let g' := foldl (gainAfterFrame n) g frames in
            g' = g \/ SFltb g' g = true.
Proof.
  induction frames as [|frame frames IH]; intros g; cbn zeta; [by left|].
  cbn [foldl]. specialize (IH (gainAfterFrame n g frame)). cbn zeta in IH.
  assert (Hstep : gainAfterFrame n g frame = g \/ SFltb (gainAfterFrame n g frame) g = true).
  { unfold gainAfterFrame. destruct (data frame !! n) as [v|]; [|by left].
    destruct (gainAfter_cases v g) as [->|(-> & _ & Hlt)]; auto. }
  destruct IH as [->|Hlt], Hstep as [Heq|Hlt']; rewrite ?Heq in *; auto.
  right. by eapply SFltb_trans.
Qed.

Lemma gain_stays_positive (frames : list (Image spec_float)) :
  forall g, SFltb f32_zero g = true ->
            SFltb f32_zero (foldl (gainAfterFrame n) g frames) = true.
Proof.
  induction frames as [|frame frames IH]; intros g Hg; [done|].
  cbn [foldl]. apply IH. unfold gainAfterFrame.
  destruct (data frame !! n) as [v|]; [|done].
  by destruct (gainAfter_cases v g) as [->|(-> & Hpos & _)].
Qed.

Lemma gain_below_values (frames : list (Image spec_float)) :
  forall g frame v,
    frame ∈ frames -> data frame !! n = Some v -> SFltb f32_zero v = true ->
    SFltb v (foldl (gainAfterFrame n) g frames) = false.
Proof.
  induction frames as [|frame0 frames IH]; intros g frame v Hin Hv Hpos;
    [by apply elem_of_nil in Hin|].
  cbn [foldl]. apply elem_of_cons in Hin as [->|Hin]; [|by eapply IH].
  assert (Hstep : SFltb v (gainAfterFrame n g frame0) = false).
  { unfold gainAfterFrame. rewrite Hv. by apply gainAfter_bound. }
  destruct (gain_never_raised frames (gainAfterFrame n g frame0)) as [->|Hlt]; [done|].
  destruct (SFltb v (foldl _ _ frames)) eqn:Hv'; [|done].
  rewrite (SFltb_trans _ _ _ Hv' Hlt) in Hstep. discriminate.
Qed.

Lemma gain_is_a_value (frames : list (Image spec_float)) :
  forall g, let g' := foldl (gainAfterFrame n) g frames in
            g' = g \/ exists frame, frame ∈ frames /\ data frame !! n = Some g'.
Proof.
  induction frames as [|frame frames IH]; intros g; cbn zeta; [by left|].
  cbn [foldl]. destruct (IH (gainAfterFrame n g frame)) as [->|(fr & Hin & Hfr)].
  - unfold gainAfterFrame. destruct (data frame !! n) as [v|] eqn:Hv; [|by left].
    destruct (gainAfter_cases v g) as [->|(-> & _)]; [by left|].
    right. exists frame. split; [left|done].
  - right. exists fr. split; [by right|done].
Qed.

End GainOfAPixel.

(** * [estimate], pixel by pixel *)

Lemma vec_set_Ok_inv {A} (v v' : list A) (i : Z) (a : A) :
  vec_set v i a = Ok v' -> 0 <= i /\ v' = <[Z.to_nat i := a]> v.
Proof.
  unfold vec_set. destruct (i <? 0) eqn:Hneg; [discriminate|].
  apply Z.ltb_ge in Hneg. destruct (_ <? _)%nat; [|discriminate].
  intros [= <-]. done.
Qed.

Lemma estimatePixel_gain (frame : Image spec_float) (gain gain' : list spec_float)
    (defects defects' : list Z) (c c' : Counters) (n : nat) :
  estimatePixel frame (gain, defects, c) n = Ok (gain', defects', c') ->
  length gain' = length gain
  /\ forall k g, gain !! k = Some g ->
       gain' !! k = Some (if decide (k = n) then gainAfterFrame n g frame else g).
Proof.
  unfold estimatePixel.
  intros (val & Hval & Hrun)%bind_Ok. apply bind_Ok in Hrun as (gain_here & Hgain & Hrun).
  apply vec_get_Ok_inv in Hval as [_ Hval]. apply vec_get_Ok_inv in Hgain as [_ Hgain].
  rewrite Nat2Z.id in Hval, Hgain.
  assert (Hsame : gainAfter val gain_here = gain_here ->
            length gain = length gain
            /\ forall k g, gain !! k = Some g ->
                 gain !! k = Some (if decide (k = n) then gainAfterFrame n g frame else g)).
  { intros Hafter. split; [done|]. intros k g Hk.
    destruct (decide (k = n)) as [->|]; [|done].
    unfold gainAfterFrame. rewrite Hval. congruence. }
  destruct (SFeqb val f32_zero) eqn:Heq.
  { injection Hrun as <- <- <-. apply Hsame. unfold gainAfter. by rewrite Heq. }
  destruct (SFltb val f32_zero) eqn:Hneg.
  { apply bind_Ok in Hrun as (d' & _ & [= <- <- <-]).
    apply Hsame. unfold gainAfter. by rewrite Heq, Hneg. }
  destruct (SFltb val gain_here) eqn:Hlt.
  { apply bind_Ok in Hrun as (g' & Hset & Hrun).
    apply bind_Ok in Hrun as (d' & _ & [= <- <- <-]).
    apply vec_set_Ok_inv in Hset as [_ ->]. rewrite Nat2Z.id.
    split; [by rewrite length_insert|]. intros k g Hk.
    destruct (decide (k = n)) as [->|Hne].
    - rewrite list_lookup_insert_eq by by eapply lookup_lt_Some.
      unfold gainAfterFrame, gainAfter. rewrite Hval.
      assert (g = gain_here) as -> by congruence.
      by rewrite Heq, Hneg, Hlt.
    - by rewrite list_lookup_insert_ne. }
  apply bind_Ok in Hrun as (ival & _ & Hrun).
  assert (Hafter : gainAfter val gain_here = gain_here).
  { unfold gainAfter. by rewrite Heq, Hneg, Hlt. }
  destruct (mismatch _ _).
  { apply bind_Ok in Hrun as (d' & _ & [= <- <- <-]). by apply Hsame. }
  apply bind_Ok in Hrun as (d & _ & Hrun).
  destruct (0 <=? d).
  - apply bind_Ok in Hrun as (d' & _ & [= <- <- <-]). by apply Hsame.
  - injection Hrun as <- <- <-. by apply Hsame.
Qed.

Lemma estimatePixels_gain (frame : Image spec_float) (m : nat) :
  forall (k : nat) (st st' : list spec_float * list Z * Counters),
    foldM (estimatePixel frame) st (seq k m) = Ok st' ->
    length st'.1.1 = length st.1.1
    /\ forall j g, st.1.1 !! j = Some g ->
         st'.1.1 !! j
         = Some (if decide (k <= j < k + m)%nat then gainAfterFrame j g frame else g).
Proof.
  induction m as [|m IH]; intros k st st' Hrun.
  - injection Hrun as <-. split; [done|]. intros j g Hj.
    destruct (decide _); [lia|done].
  - cbn [seq foldM] in Hrun. apply bind_Ok in Hrun as (st1 & Hstep & Hrun).
    destruct st as [[gain defects] c], st1 as [[gain1 defects1] c1].
    apply estimatePixel_gain in Hstep as [Hlen1 Hstep].
    apply IH in Hrun as [Hlen Hrest]. cbn [fst] in *.
    split; [congruence|]. intros j g Hj.
    rewrite (Hrest j _ (Hstep j g Hj)). f_equal.
    destruct (decide (j = k)) as [->|Hne].
    + destruct (decide (S k <= k < S k + m)%nat); [lia|].
      destruct (decide (k <= k < k + S m)%nat); [done|lia].
    + destruct (decide (S k <= j < S k + m)%nat), (decide (k <= j < k + S m)%nat);
        try done; lia.
Qed.

Lemma estimateFrame_gain (env : Env) (fn_movie : string)
    (st st' : convert_to_tiff * list FrameReport) (iframe : Z) :
  estimateFrame env fn_movie st iframe = Ok st' ->
  exists frame,
    readFrameFloat env fn_movie iframe = Ok frame
    /\ nn st'.1 = nn st.1
    /\ length st'.2 = S (length st.2)
    /\ length (data (gain st'.1)) = length (data (gain st.1))
    /\ forall j g, data (gain st.1) !! j = Some g ->
         data (gain st'.1) !! j = Some (gainAfterFrame j g frame).
Proof.
  unfold estimateFrame. intros (frame & Hframe & Hrun)%bind_Ok.
  apply bind_Ok in Hrun as ([[gain' defects'] c] & Hpixels & [= <-]).
  exists frame. split; [done|]. cbn. split; [done|].
  split; [rewrite length_app; cbn; lia|].
  apply estimatePixels_gain in Hpixels as [Hlen Hgain]. cbn [fst] in *.
  split; [done|]. intros j g Hj. rewrite (Hgain j g Hj). f_equal.
  destruct (decide _) as [|Hout]; [done|].
  unfold gainAfterFrame. rewrite lookup_ge_None_2; [done|lia].
Qed.

Lemma estimateFrames_gain (env : Env) (fn_movie : string) (frames : list Z) :
  forall st st' : convert_to_tiff * list FrameReport,
    foldM (estimateFrame env fn_movie) st frames = Ok st' ->
    exists images,
      Forall2 (fun iframe frame => readFrameFloat env fn_movie iframe = Ok frame)
        frames images
      /\ length st'.2 = (length st.2 + length frames)%nat
      /\ forall j g, data (gain st.1) !! j = Some g ->
           data (gain st'.1) !! j = Some (foldl (gainAfterFrame j) g images).
Proof.
  induction frames as [|iframe frames IH]; intros st st' Hrun.
  - injection Hrun as <-. exists []. split; [constructor|].
    split; [cbn; lia|]. done.
  - cbn [foldM] in Hrun. apply bind_Ok in Hrun as (st1 & Hstep & Hrun).
    apply estimateFrame_gain in Hstep as (frame & Hframe & _ & Hlen1 & _ & Hstep).
    apply IH in Hrun as (images & Hall & Hlen & Hrest).
    exists (frame :: images). split; [by constructor|].
    split; [cbn; lia|]. intros j g Hj. cbn [foldl].
    apply Hrest. by apply Hstep.
Qed.

(** X12. The gain estimate of a pixel is the smallest value above zero
    the pixel has taken. After [estimate] has gone through the frames of
    a movie, the gain of a pixel has not been raised, it is still above
    zero if it was, no value above zero that the pixel had in a frame
    lies below it, and it is the gain before or one of the values of the
    pixel; one line is reported for each frame. *)
Theorem estimate_gain_is_smallest_value (env : Env) (app app' : convert_to_tiff)
    (fn_movie : string) (reports : list FrameReport) (n : nat) (g : spec_float) :
  estimate env app fn_movie = Ok (app', reports) ->
  data (gain app) !! n = Some g ->
  exists g',
    data (gain app') !! n = Some g'
    /\ length reports = Z.to_nat (nn app)
    /\ (g' = g \/ SFltb g' g = true)
    /\ (SFltb f32_zero g = true -> SFltb f32_zero g' = true)
    /\ (forall iframe frame v,
          0 <= iframe < nn app ->
          readFrameFloat env fn_movie iframe = Ok frame ->
          data frame !! n = Some v -> SFltb f32_zero v = true ->
          SFltb v g' = false)
    /\ (g' = g \/
        exists iframe frame,
          0 <= iframe < nn app
          /\ readFrameFloat env fn_movie iframe = Ok frame
          /\ data frame !! n = Some g').
Proof.
  unfold estimate. intros Hrun Hg.
  apply estimateFrames_gain in Hrun as (images & Hall & Hlen & Hgain).
  cbn [fst snd] in *. exists (foldl (gainAfterFrame n) g images).
  split; [by apply Hgain|].
  split; [unfold frameNumbers in Hlen; by rewrite length_fmap, length_seq in Hlen|].
  split; [apply gain_never_raised|]. split; [apply gain_stays_positive|].
  assert (Hframes : forall frame, frame ∈ images ->
            exists iframe, 0 <= iframe < nn app
              /\ readFrameFloat env fn_movie iframe = Ok frame).
  { intros frame [i Hi]%list_elem_of_lookup.
    destruct (Forall2_lookup_r _ _ _ _ _ Hall Hi) as (iframe & Hiframe & Hread).
    exists iframe. split; [|done]. unfold frameNumbers in Hiframe.
    apply list_lookup_fmap_Some in Hiframe as (k & -> & Hk).
    apply lookup_seq in Hk as [-> Hk]. lia. }
  split.
  - intros iframe frame v Hiframe Hread Hv Hpos.
    apply (gain_below_values n images g frame v); [|done..].
    assert (Hin : iframe ∈ frameNumbers app).
    { unfold frameNumbers. apply list_elem_of_fmap. exists (Z.to_nat iframe).
      split; [lia|]. apply elem_of_seq. lia. }
    apply list_elem_of_lookup in Hin as [i Hi].
    destruct (Forall2_lookup_l _ _ _ _ _ Hall Hi) as (frame' & Hframe' & Hread').
    assert (frame' = frame) as -> by congruence. by eapply list_elem_of_lookup_2.
  - destruct (gain_is_a_value n images g) as [Heq|(frame & Hin & Hv)]; [by left|].
    right. destruct (Hframes frame Hin) as (iframe & Hiframe & Hread).
    by exists iframe, frame.
Qed.

(** * File operations *)

Lemma tmpName_ne (fn : string) : tmpName fn ≠ fn.
Proof.
  unfold tmpName. intros Heq. apply (f_equal list_ascii_of_string) in Heq.
  rewrite chars_append in Heq. apply (f_equal length) in Heq.
  rewrite length_app in Heq. cbn in Heq. lia.
Qed.

Lemma applyOps_app (fs : Files) (ops1 ops2 : list FileOp) :
  applyOps fs (ops1 ++ ops2) = applyOps (applyOps fs ops1) ops2.
Proof. unfold applyOps. apply foldl_app. Qed.

Lemma io_bind_run {A B} (m : IO A) (k : A -> IO B) (fs : Files) :
  io_bind m k fs
  = match (m fs).2 with
    | Ok a => (((m fs).1 ++ (k a (applyOps fs (m fs).1)).1)%list,
               (k a (applyOps fs (m fs).1)).2)
    | ReportError msg => ((m fs).1, ReportError msg)
    | Undefined => ((m fs).1, Undefined)
    end.
Proof. reflexivity. Qed.

(** Operations on one file leave the others alone. *)
Lemma applyOps_touchesOnly (fn fn' : string) (ops : list FileOp) (fs : Files) :
  Forall (touchesOnly fn) ops -> fn' ≠ fn -> applyOps fs ops !! fn' = fs !! fn'.
Proof.
  intros Hops Hne. revert fs. induction Hops as [|op ops Hop _ IH]; intros fs; [done|].
  cbn [applyOps foldl]. fold (applyOps (applyOp fs op) ops). rewrite IH.
  destruct op; cbn in Hop; try done; subst; cbn [applyOp].
  - by rewrite lookup_insert_ne.
  - destruct (fs !! fn) as [[]|]; try done. by rewrite lookup_insert_ne.
Qed.

(** The pages written to a file that has just been opened. *)
Lemma applyOps_pages (fn : string) (pages pages0 : list Page) (fs : Files) :
  fs !! fn = Some (TiffFile pages0) ->
  applyOps fs (OpTIFFWriteDirectory fn <$> pages) !! fn = Some (TiffFile (pages0 ++ pages)).
Proof.
  revert fs pages0. induction pages as [|page pages IH]; intros fs pages0 Hfs.
  - cbn. by rewrite app_nil_r.
  - cbn [fmap list_fmap applyOps foldl applyOp]. rewrite Hfs.
    fold (applyOps (<[fn := TiffFile (pages0 ++ [page])]> fs) (OpTIFFWriteDirectory fn <$> pages)).
    change (list_fmap _ _ (OpTIFFWriteDirectory fn) pages)
      with (OpTIFFWriteDirectory fn <$> pages).
    rewrite (IH _ (pages0 ++ [page])%list) by by rewrite lookup_insert_eq.
    by rewrite <- app_assoc.
Qed.

(** A loop whose rounds each write one page to the file [tif], or fail
    without writing. *)
Lemma io_foldM_pages {A B} (f : A -> B -> IO A) (tif : string) (l : list B) :
  (forall a b fs, (exists page a', f a b fs = ([OpTIFFWriteDirectory tif page], Ok a'))
                  \/ ((f a b fs).1 = [] /\ forall a', (f a b fs).2 ≠ Ok a')) ->
  forall a fs,
    exists pages,
      (io_foldM f a l fs).1 = OpTIFFWriteDirectory tif <$> pages
      /\ (length pages <= length l)%nat
      /\ forall a', (io_foldM f a l fs).2 = Ok a' -> length pages = length l.
Proof.
  intros Hround. induction l as [|b l IH]; intros a fs.
  - exists []. cbn. auto.
  - cbn [io_foldM]. rewrite io_bind_run.
    destruct (Hround a b fs) as [(page & a1 & Hf)|[Hops Hfail]].
    + rewrite Hf. cbn [fst snd].
      destruct (IH a1 (applyOps fs [OpTIFFWriteDirectory tif page])) as (pages & Hp & Hle & Hlen).
      exists (page :: pages). rewrite Hp. split; [done|]. split; [cbn; lia|].
      intros a' Hok. cbn. f_equal. by eapply Hlen.
    + exists []. destruct ((f a b fs).2) as [a1| |] eqn:Hr; [by destruct (Hfail a1)|..];
        rewrite Hops; cbn; (split; [done|]); (split; [lia|]); discriminate.
Qed.

Lemma write_tiff_one_page_round (app : convert_to_tiff) (T : PixelType) (tif : string)
    (buf : Image Pixel) (filter : Compression) (level : Z) (fs : Files) :
  (exists page, tiffPage app T buf filter level = Ok page
     /\ write_tiff_one_page app T tif buf filter level fs
        = ([OpTIFFWriteDirectory tif page], Ok tt))
  \/ ((write_tiff_one_page app T tif buf filter level fs).1 = []
      /\ (write_tiff_one_page app T tif buf filter level fs).2 ≠ Ok tt).
Proof.
  unfold write_tiff_one_page. rewrite io_bind_run. unfold io_lift, io_op. cbn [fst snd].
  destruct (tiffPage app T buf filter level) as [page| |]; [left; eauto|right..]; done.
Qed.

Lemma io_bind_lift {A B} (r : result A) (k : A -> IO B) (fs : Files) :
  io_bind (io_lift r) k fs
  = match r with
    | Ok a => k a fs
    | ReportError msg => ([], ReportError msg)
    | Undefined => ([], Undefined)
    end.
Proof.
  rewrite io_bind_run. unfold io_lift. cbn [fst snd].
  destruct r as [a| |]; [|done..]. cbn. by destruct (k a fs).
Qed.

Lemma io_bind_op {B} (op : FileOp) (k : unit -> IO B) (fs : Files) :
  io_bind (io_op op) k fs = (op :: (k tt (applyOp fs op)).1, (k tt (applyOp fs op)).2).
Proof. reflexivity. Qed.

Ltac round_fails := right; split; [done|intros ?; discriminate].

Lemma unnormaliseFrame_round (env : Env) (app : convert_to_tiff) (fn_movie fn_tmp : string)
    (st : list spec_float * list (Z * Z)) (iframe : Z) (fs : Files) :
  (exists page st', unnormaliseFrame env app fn_movie fn_tmp st iframe fs
                    = ([OpTIFFWriteDirectory fn_tmp page], Ok st'))
  \/ ((unnormaliseFrame env app fn_movie fn_tmp st iframe fs).1 = []
      /\ forall st', (unnormaliseFrame env app fn_movie fn_tmp st iframe fs).2 ≠ Ok st').
Proof.
  unfold unnormaliseFrame. rewrite io_bind_lift.
  destruct (readFrameFloat env fn_movie iframe) as [frame| |]; [|round_fails..].
  rewrite io_bind_lift.
  destruct (foldM _ _ _) as [r| |]; [|round_fails..].
  rewrite io_bind_lift.
  destruct (decide_filter app (nx app)) as [filter| |]; [|round_fails..].
  rewrite io_bind_run.
  destruct (write_tiff_one_page_round app T_float fn_tmp (floatPage app r.1) filter
              (deflate_level app) fs) as [(page & _ & ->)|[Hops Hfail]].
  - left. cbn. eauto.
  - right. destruct (write_tiff_one_page _ _ _ _ _ _ fs) as [ops [[]| |]]; cbn in *;
      subst; done.
Qed.

Lemma only_compressFrame_round (env : Env) (app : convert_to_tiff) (T : PixelType)
    (fn_movie fn_tiff : string) (u : unit) (iframe : Z) (fs : Files) :
  (exists page u', only_compressFrame env app T fn_movie fn_tiff u iframe fs
                   = ([OpTIFFWriteDirectory fn_tiff page], Ok u'))
  \/ ((only_compressFrame env app T fn_movie fn_tiff u iframe fs).1 = []
      /\ forall u', (only_compressFrame env app T fn_movie fn_tiff u iframe fs).2 ≠ Ok u').
Proof.
  unfold only_compressFrame. rewrite io_bind_lift.
  destruct (readFrameInt env T fn_movie iframe) as [frame| |]; [|round_fails..].
  rewrite io_bind_lift.
  destruct (decide_filter app (nx app)) as [filter| |]; [|round_fails..].
  destruct (write_tiff_one_page_round app T fn_tiff (intPage frame) filter
              (deflate_level app) fs) as [(page & _ & ->)|[Hops Hfail]].
  - left. eauto.
  - right. split; [done|]. by intros [].
Qed.

(** How a run of [unnormalise] looks: the file could not be opened; or it
    was opened and took some pages, and then either the run failed, or
    the file was closed and renamed. *)
Lemma unnormalise_run (env : Env) (app : convert_to_tiff) (fn_movie fn_tiff : string)
    (fs : Files) :
  let tmp := tmpName fn_tiff in
  let run := unnormalise env app fn_movie fn_tiff fs in
  (tiffWritable env tmp = false
   /\ run = ([], ReportError "Failed to open the output TIFF file."))
  \/ (tiffWritable env tmp = true
      /\ exists pages,
           (run.1 = OpTIFFOpen tmp :: (OpTIFFWriteDirectory tmp <$> pages)
            /\ forall reports, run.2 ≠ Ok reports)
           \/ (length pages = Z.to_nat (nn app)
               /\ exists reports,
                    run = (OpTIFFOpen tmp :: (OpTIFFWriteDirectory tmp <$> pages)
                             ++ [OpTIFFClose tmp; OpRename tmp fn_tiff],
                           Ok reports))).
Proof.
  cbn zeta. unfold unnormalise. fold (tmpName fn_tiff). unfold TIFFOpen.
  destruct (tiffWritable env (tmpName fn_tiff)) eqn:Hopen; [right|left].
  2:{ split; [done|]. by rewrite io_bind_lift. }
  split; [done|]. rewrite io_bind_op.
  set (fs1 := applyOp fs (OpTIFFOpen (tmpName fn_tiff))).
  set (buf := replicate _ _).
  destruct (io_foldM_pages (unnormaliseFrame env app fn_movie (tmpName fn_tiff))
              (tmpName fn_tiff) (frameNumbers app)
              (unnormaliseFrame_round env app fn_movie (tmpName fn_tiff))
              (buf, []) fs1) as (pages & Hops & _ & Hlen).
  exists pages. rewrite io_bind_run.
  destruct (io_foldM _ _ _ fs1) as [ops [r| |]] eqn:Hloop; cbn [fst snd] in *; subst ops.
  - right. split.
    { rewrite (Hlen r eq_refl). unfold frameNumbers. by rewrite length_fmap, length_seq. }
    exists r.2. reflexivity.
  - left. split; [done|]. discriminate.
  - left. split; [done|]. discriminate.
Qed.

(** The file [fn_tiff] after [unnormalise]. *)
Lemma unnormalise_final (env : Env) (app : convert_to_tiff)
    (fn_movie fn_tiff : string) (fs : Files) :
  let run := unnormalise env app fn_movie fn_tiff fs in
  ((forall reports, run.2 ≠ Ok reports) ->
   applyOps fs run.1 !! fn_tiff = fs !! fn_tiff)
  /\ (forall reports, run.2 = Ok reports ->
        exists pages,
          applyOps fs run.1 !! fn_tiff = Some (TiffFile pages)
          /\ length pages = Z.to_nat (nn app)
          /\ applyOps fs run.1 !! tmpName fn_tiff = None).
Proof.
  cbn zeta.
  assert (Hne : fn_tiff ≠ tmpName fn_tiff) by (intros Heq; by apply (tmpName_ne fn_tiff)).
  destruct (unnormalise_run env app fn_movie fn_tiff fs)
    as [[_ Hrun]|(_ & pages & [[Hops Hfail]|(Hlen & reports & Hrun)])]; cbn zeta in *.
  - rewrite Hrun. cbn [fst snd]. split; [done|]. discriminate.
  - rewrite Hops. split.
    { intros _. apply (applyOps_touchesOnly (tmpName fn_tiff)); [|done].
      constructor; [done|]. apply Forall_fmap, Forall_forall. done. }
    intros reports Hok. by destruct (Hfail reports).
  - rewrite Hrun. cbn [fst snd].
    split; [intros Hfail; by destruct (Hfail reports)|].
    intros _ _. exists pages.
    change (OpTIFFOpen (tmpName fn_tiff)
              :: (OpTIFFWriteDirectory (tmpName fn_tiff) <$> pages)
              ++ [OpTIFFClose (tmpName fn_tiff); OpRename (tmpName fn_tiff) fn_tiff])
      with ([OpTIFFOpen (tmpName fn_tiff)]
              ++ ((OpTIFFWriteDirectory (tmpName fn_tiff) <$> pages)
                    ++ ([OpTIFFClose (tmpName fn_tiff)]
                          ++ [OpRename (tmpName fn_tiff) fn_tiff])))%list.
    rewrite !applyOps_app.
    set (fs2 := applyOps (applyOps fs [OpTIFFOpen (tmpName fn_tiff)])
                  (OpTIFFWriteDirectory (tmpName fn_tiff) <$> pages)).
    assert (Hfs2 : fs2 !! tmpName fn_tiff = Some (TiffFile pages)).
    { unfold fs2. rewrite (applyOps_pages _ pages []); [done|].
      cbn. by rewrite lookup_insert_eq. }
    cbn [applyOps foldl applyOp]. rewrite Hfs2.
    rewrite lookup_insert_eq, lookup_insert_ne, lookup_delete_eq by done. done.
Qed.

(** X13. [unnormalise] stages its output: it writes the pages to
    [fn_tiff.tmp] and renames that file to [fn_tiff] as its last step. In
    every state a reader can find before that step the file [fn_tiff] is
    as it was; when the call fails, for whatever reason, it is left as it
    was; and when the call returns, [fn_tiff] holds one page for each of
    the [nn] frames and [fn_tiff.tmp] is gone. *)
Theorem unnormalise_stages_output (env : Env) (app : convert_to_tiff)
    (fn_movie fn_tiff : string) (fs : Files) :
  let run := unnormalise env app fn_movie fn_tiff fs in
  (forall n, (n < length run.1)%nat ->
     applyOps fs (take n run.1) !! fn_tiff = fs !! fn_tiff)
  /\ ((forall reports, run.2 ≠ Ok reports) ->
      applyOps fs run.1 !! fn_tiff = fs !! fn_tiff)
  /\ (forall reports, run.2 = Ok reports ->
        exists pages,
          applyOps fs run.1 !! fn_tiff = Some (TiffFile pages)
          /\ length pages = Z.to_nat (nn app)
          /\ applyOps fs run.1 !! tmpName fn_tiff = None).
Proof.
  cbn zeta. split; [|exact (unnormalise_final env app fn_movie fn_tiff fs)].
  assert (Hne : fn_tiff ≠ tmpName fn_tiff) by (intros Heq; by apply (tmpName_ne fn_tiff)).
  assert (Hprefix : forall (pages : list Page) (rest : list FileOp) n,
             (n <= S (length pages))%nat ->
             applyOps fs (take n (OpTIFFOpen (tmpName fn_tiff)
                                    :: (OpTIFFWriteDirectory (tmpName fn_tiff) <$> pages)
                                    ++ rest)) !! fn_tiff
             = fs !! fn_tiff).
  { intros pages rest n Hn.
    apply (applyOps_touchesOnly (tmpName fn_tiff)); [|done].
    rewrite app_comm_cons, take_app_le by (cbn; rewrite length_fmap; lia).
    apply Forall_take. constructor; [done|]. apply Forall_fmap, Forall_forall. done. }
  destruct (unnormalise_run env app fn_movie fn_tiff fs)
    as [[_ Hrun]|(_ & pages & [[Hops _]|(_ & reports & Hrun)])]; cbn zeta in *.
  - rewrite Hrun. intros n Hn. cbn in Hn. lia.
  - rewrite Hops. intros n Hn. cbn [length] in Hn. rewrite length_fmap in Hn.
    rewrite <- (app_nil_r (_ <$> pages)). apply Hprefix. lia.
  - rewrite Hrun. cbn [fst snd].
    intros n Hn. cbn [length] in Hn. rewrite length_app, length_fmap in Hn. cbn in Hn.
    destruct (decide (n <= S (length pages))%nat) as [Hle|Hgt]; [by apply Hprefix|].
    assert (n = S (S (length pages))) as -> by lia.
    apply (applyOps_touchesOnly (tmpName fn_tiff)); [|done].
    cbn [take]. rewrite take_app_ge by (rewrite length_fmap; lia).
    rewrite length_fmap.
    replace (S (length pages) - length pages)%nat with 1%nat by lia.
    cbn [take]. constructor; [done|]. apply Forall_app. split; [|by repeat constructor].
    apply Forall_fmap, Forall_forall. done.
Qed.

Lemma only_compress_run (env : Env) (app : convert_to_tiff) (T : PixelType)
    (fn_movie fn_tiff : string) (fs : Files) :
  let run := only_compress env app T fn_movie fn_tiff fs in
  (tiffWritable env fn_tiff = false
   /\ run = ([], ReportError "Failed to open the output TIFF file."))
  \/ (tiffWritable env fn_tiff = true
      /\ exists pages,
           (run.1 = OpTIFFOpen fn_tiff :: (OpTIFFWriteDirectory fn_tiff <$> pages)
            /\ (length pages <= Z.to_nat (nn app))%nat
            /\ run.2 ≠ Ok tt)
           \/ (length pages = Z.to_nat (nn app)
               /\ run = (OpTIFFOpen fn_tiff :: (OpTIFFWriteDirectory fn_tiff <$> pages)
                           ++ [OpTIFFClose fn_tiff; OpRename (tmpName fn_tiff) fn_tiff],
                         Ok tt))).
Proof.
  cbn zeta. unfold only_compress. fold (tmpName fn_tiff). unfold TIFFOpen.
  destruct (tiffWritable env fn_tiff) eqn:Hopen; [right|left].
  2:{ split; [done|]. by rewrite io_bind_lift. }
  split; [done|]. rewrite io_bind_op.
  set (fs1 := applyOp fs (OpTIFFOpen fn_tiff)).
  destruct (io_foldM_pages (only_compressFrame env app T fn_movie fn_tiff)
              fn_tiff (frameNumbers app)
              (only_compressFrame_round env app T fn_movie fn_tiff)
              tt fs1) as (pages & Hops & Hle & Hlen).
  unfold frameNumbers in Hle, Hlen. rewrite length_fmap, length_seq in Hle, Hlen.
  exists pages. rewrite io_bind_run.
  destruct (io_foldM _ _ _ fs1) as [ops [r| |]] eqn:Hloop; cbn [fst snd] in *; subst ops.
  - right. split; [by apply (Hlen r)|]. reflexivity.
  - left. split; [done|]. split; [done|]. discriminate.
  - left. split; [done|]. split; [done|]. discriminate.
Qed.

(** X14. [only_compress] does not stage its output, although it ends with
    the same [rename] as [unnormalise]. It opens [fn_tiff] itself, so the
    file under the final name is emptied by the first step and holds the
    pages written so far from then on, also when the call fails. The
    [rename] at the end finds no [fn_tiff.tmp] of its own making: when
    no such file exists it does nothing and [fn_tiff] keeps one page for
    each frame, and when one was there before the call, it replaces the
    pages just written. *)
Theorem only_compress_writes_in_place (env : Env) (app : convert_to_tiff) (T : PixelType)
    (fn_movie fn_tiff : string) (fs : Files) :
  let run := only_compress env app T fn_movie fn_tiff fs in
  tiffWritable env fn_tiff = true ->
  applyOps fs (take 1 run.1) !! fn_tiff = Some (TiffFile [])
  /\ (run.2 ≠ Ok tt ->
      exists pages, applyOps fs run.1 !! fn_tiff = Some (TiffFile pages)
                    /\ (length pages <= Z.to_nat (nn app))%nat)
  /\ (run.2 = Ok tt ->
      (fs !! tmpName fn_tiff = None ->
         exists pages, applyOps fs run.1 !! fn_tiff = Some (TiffFile pages)
                       /\ length pages = Z.to_nat (nn app))
      /\ (forall stale, fs !! tmpName fn_tiff = Some stale ->
            applyOps fs run.1 !! fn_tiff = Some stale
            /\ applyOps fs run.1 !! tmpName fn_tiff = None)).
Proof.
  cbn zeta. intros Hopen.
  assert (Hne : tmpName fn_tiff ≠ fn_tiff) by apply tmpName_ne.
  assert (Hwritten : forall pages : list Page,
             applyOps fs (OpTIFFOpen fn_tiff :: (OpTIFFWriteDirectory fn_tiff <$> pages))
               !! fn_tiff = Some (TiffFile pages)
             /\ applyOps fs (OpTIFFOpen fn_tiff :: (OpTIFFWriteDirectory fn_tiff <$> pages))
                  !! tmpName fn_tiff = fs !! tmpName fn_tiff).
  { intros pages. split.
    - change (applyOps fs (?op :: ?ops)) with (applyOps (applyOp fs op) ops).
      rewrite (applyOps_pages _ pages []); [done|]. cbn. by rewrite lookup_insert_eq.
    - apply (applyOps_touchesOnly fn_tiff); [|done].
      constructor; [done|]. apply Forall_fmap, Forall_forall. done. }
  destruct (only_compress_run env app T fn_movie fn_tiff fs)
    as [[Hclosed _]|(_ & pages & [(Hops & Hle & Hfail)|(Hlen & Hrun)])]; cbn zeta in *.
  - congruence.
  - rewrite Hops. split; [cbn [take applyOps foldl applyOp]; apply lookup_insert_eq|].
    split; [|done]. intros _. exists pages. split; [apply Hwritten|done].
  - rewrite Hrun. cbn [fst snd].
    split; [cbn [take applyOps foldl applyOp]; apply lookup_insert_eq|].
    split; [done|]. intros _.
    change (OpTIFFOpen fn_tiff :: (OpTIFFWriteDirectory fn_tiff <$> pages)
              ++ [OpTIFFClose fn_tiff; OpRename (tmpName fn_tiff) fn_tiff])
      with ((OpTIFFOpen fn_tiff :: (OpTIFFWriteDirectory fn_tiff <$> pages))
              ++ [OpTIFFClose fn_tiff; OpRename (tmpName fn_tiff) fn_tiff])%list.
    rewrite applyOps_app. destruct (Hwritten pages) as [Htiff Htmp].
    set (fs2 := applyOps fs _) in *. cbn [applyOps foldl applyOp]. rewrite Htmp. split.
    + intros Hnone. rewrite Hnone. exists pages. done.
    + intros stale Hstale. rewrite Hstale.
      by rewrite lookup_insert_eq, lookup_insert_ne, lookup_delete_eq.
Qed.

(** * Without a gain reference *)

(** A loop that stores [v] at every place from [k] on. *)
Lemma foldM_fill {A} (step : list A -> nat -> result (list A)) (v : A) (N m : nat) :
  (forall l n, (n < N)%nat -> length l = N -> step l n = Ok (<[n := v]> l)) ->
  forall (k : nat) (l : list A),
    (k + m)%nat = N -> length l = N ->
    foldM step l (seq k m) = Ok (take k l ++ replicate m v)%list.
Proof.
  intros Hstep. induction m as [|m IH]; intros k l Hk Hlen.
  - cbn. rewrite app_nil_r, take_ge by lia. done.
  - cbn [seq foldM]. rewrite Hstep by lia. cbn [bind].
    rewrite IH by (rewrite ?length_insert; lia).
    f_equal. rewrite (take_S_r _ k v) by (apply list_lookup_insert_eq; lia).
    rewrite take_insert_ge by lia. rewrite <- app_assoc. done.
Qed.

Lemma maskedGain_all (app : convert_to_tiff) (v : spec_float) (N : nat) :
  data (gain app) = replicate N v -> data (defects app) = replicate N (-1) ->
  -1 < thresh_reliable app ->
  maskedGain app
  = Ok (mkImage (xdim (gain app)) (ydim (gain app)) (replicate N (f32_of_double double_1_0))).
Proof.
  intros Hgain Hdefects Hthresh. unfold maskedGain.
  rewrite Hgain, Hdefects, length_replicate.
  rewrite (foldM_fill _ (f32_of_double double_1_0) N N); [done| |done|by rewrite length_replicate].
  intros l n Hn Hlen.
  rewrite (vec_get_Ok _ n (-1)) by by apply lookup_replicate_2.
  cbn [bind]. rewrite (proj2 (Z.ltb_lt _ _)) by done. apply vec_set_Ok. lia.
Qed.

Lemma maskedGain_none (app : convert_to_tiff) (v : spec_float) (N : nat) :
  data (gain app) = replicate N v -> data (defects app) = replicate N (-1) ->
  thresh_reliable app <= -1 ->
  maskedGain app = Ok (mkImage (xdim (gain app)) (ydim (gain app)) (replicate N v)).
Proof.
  intros Hgain Hdefects Hthresh. unfold maskedGain.
  rewrite Hgain, Hdefects, length_replicate.
  assert (Hloop : forall (l : list nat) (g : list spec_float),
             Forall (fun n => (n < N)%nat) l ->
             foldM (fun gain n =>
                      let* d := vec_get (replicate N (-1)) (Z.of_nat n) in
                      if d <? thresh_reliable app
                      then vec_set gain (Z.of_nat n) (f32_of_double double_1_0)
                      else Ok gain) g l = Ok g).
  { induction l as [|n l IH]; intros g Hl; [done|].
    apply Forall_cons in Hl as [Hn Hl]. cbn [foldM].
    rewrite (vec_get_Ok _ n (-1)) by by apply lookup_replicate_2.
    cbn [bind]. rewrite (proj2 (Z.ltb_ge _ _)) by done. cbn [bind]. by apply IH. }
  rewrite Hloop; [done|]. apply Forall_forall. intros n Hn%elem_of_seq. lia.
Qed.

(** The pixel loop of [unnormalise] where every pixel is below the
    threshold. *)
Lemma unnormalisePixels_copy (app : convert_to_tiff) (frame : Image spec_float) (m : nat) :
  (forall n, (n < length (data frame))%nat ->
     exists d g, data (defects app) !! n = Some d /\ d < thresh_reliable app
                 /\ data (gain app) !! n = Some g) ->
  forall (k : nat) (buf : list spec_float) (error : Z),
    (k + m)%nat = length (data frame) -> length buf = length (data frame) ->
    foldM (unnormalisePixel app frame) (buf, error) (seq k m)
    = Ok ((take k buf ++ drop k (data frame))%list, error).
Proof.
  intros Hbad. induction m as [|m IH]; intros k buf error Hk Hlen.
  - cbn. rewrite drop_ge, app_nil_r, take_ge by lia. done.
  - cbn [seq foldM]. unfold unnormalisePixel at 1.
    destruct (lookup_lt_is_Some_2 (data frame) k) as [val Hval]; [lia|].
    destruct (Hbad k) as (d & g & Hd & Hlt & Hg); [lia|].
    rewrite (vec_get_Ok _ _ _ Hval), (vec_get_Ok _ _ _ Hg), (vec_get_Ok _ _ _ Hd).
    cbn [bind]. rewrite (proj2 (Z.ltb_lt _ _)) by done.
    rewrite vec_set_Ok by lia. cbn [bind].
    rewrite IH by (rewrite ?length_insert; lia). do 2 f_equal.
    rewrite (take_S_r _ k val) by (apply list_lookup_insert_eq; lia).
    rewrite take_insert_ge by lia. rewrite <- app_assoc. cbn [List.app].
    by rewrite (drop_S _ _ _ Hval).
Qed.

(** X15. Conversion without a gain reference. For a movie in mode 2 with
    neither [--gain] nor [--estimate_gain], [initialise] gives every
    pixel the gain 999.9 and the reliability -1; with a threshold above
    -1 it then sets every gain to 1, writes that image as
    gain-reference.mrc, and the pixel loop of [unnormalise] copies every
    frame of [ny] x [nx] pixels as it is, counting no error; with a
    threshold of -1 or less the gains stay at 999.9. For a movie in
    another mode [initialise] writes nothing and leaves gain and
    reliability as they were. *)
Theorem initialise_without_gain_reference (env : Env) (app : convert_to_tiff)
    (fn_first : string) (fs : Files) (nn' ny' nx' mode : Z) :
  readHead env fn_first = Ok (nn', ny', nx') ->
  checkMRCtype env fn_first = Ok mode ->
  fn_gain app = "" ->
  let N := (Z.to_nat ny' * Z.to_nat nx')%nat in
  let head := with_head app nn' ny' nx' mode in
  let blank := fun v : spec_float =>
    with_gain head (mkImage (Z.to_nat nx') (Z.to_nat ny') (replicate N v))
      (mkImage (Z.to_nat nx') (Z.to_nat ny') (replicate N (-1))) in
  let reference := fun v : spec_float =>
    OpWriteFloatImage (fn_out app +:+ "gain-reference.mrc")
      (mkImage (Z.to_nat nx') (Z.to_nat ny') (replicate N v)) in
  (mode ≠ 2 -> initialise env app fn_first fs = ([], Ok head))
  /\ (mode = 2 -> do_estimate app = true ->
      initialise env app fn_first fs = ([], Ok (blank (f32_of_double double_999_9))))
  /\ (mode = 2 -> do_estimate app = false -> thresh_reliable app <= -1 ->
      initialise env app fn_first fs
      = ([reference (f32_of_double double_999_9)], Ok (blank (f32_of_double double_999_9))))
  /\ (mode = 2 -> do_estimate app = false -> -1 < thresh_reliable app ->
      initialise env app fn_first fs
      = ([reference (f32_of_double double_1_0)], Ok (blank (f32_of_double double_1_0)))
      /\ forall (frame : Image spec_float) (buf : list spec_float),
           length (data frame) = N -> length buf = N ->
           foldM (unnormalisePixel (blank (f32_of_double double_1_0)) frame) (buf, 0)
             (seq 0 (length (data frame)))
           = Ok (data frame, 0)).
Proof.
  intros Hhead Hmode Hgain N head blank reference.
  unfold initialise. rewrite io_bind_lift, Hhead. cbn beta iota.
  rewrite io_bind_lift, Hmode. fold head.
  change (fn_gain head) with (fn_gain app). rewrite Hgain. cbn [String.eqb negb].
  split; [|split; [|split]].
  - intros Hne. rewrite (proj2 (Z.eqb_neq _ _) Hne).
    rewrite io_bind_run. cbn [io_ret fst snd applyOps foldl List.app].
    by rewrite andb_false_r.
  - intros -> Hest. cbn [Z.eqb Pos.eqb].
    rewrite io_bind_run. cbn [io_ret fst snd applyOps foldl List.app].
    change (do_estimate (with_gain _ _ _)) with (do_estimate app). by rewrite Hest.
  - intros -> Hest Hthresh. cbn [Z.eqb Pos.eqb].
    rewrite io_bind_run. cbn [io_ret fst snd applyOps foldl List.app].
    change (do_estimate (with_gain _ _ _)) with (do_estimate app). rewrite Hest.
    cbn [negb andb]. rewrite io_bind_lift.
    rewrite (maskedGain_none _ (f32_of_double double_999_9) N); try done.
  - intros -> Hest Hthresh. cbn [Z.eqb Pos.eqb]. split.
    + rewrite io_bind_run. cbn [io_ret fst snd applyOps foldl List.app].
      change (do_estimate (with_gain _ _ _)) with (do_estimate app). rewrite Hest.
      cbn [negb andb]. rewrite io_bind_lift.
      rewrite (maskedGain_all _ (f32_of_double double_999_9) N); try done.
    + intros frame buf Hframe Hbuf.
      assert (Hbad : forall n, (n < length (data frame))%nat ->
                exists d g,
                  data (defects (blank (f32_of_double double_1_0))) !! n = Some d
                  /\ d < thresh_reliable (blank (f32_of_double double_1_0))
                  /\ data (gain (blank (f32_of_double double_1_0))) !! n = Some g).
      { intros n Hn. exists (-1), (f32_of_double double_1_0). cbn.
        split; [apply lookup_replicate_2; lia|]. split; [done|].
        apply lookup_replicate_2; lia. }
      rewrite (unnormalisePixels_copy _ frame (length (data frame)) Hbad 0%nat buf 0);
        [by rewrite drop_0|lia|lia].
Qed.

(** * One movie *)

Lemma io_bind_ret {A B} (a : A) (k : A -> IO B) (fs : Files) :
  io_bind (io_ret a) k fs = k a fs.
Proof. apply (io_bind_lift (Ok a)). Qed.

Lemma io_bind_exists {B} (fn : string) (k : bool -> IO B) (fs : Files) :
  io_bind (io_exists fn) k fs = k (bool_decide (is_Some (fs !! fn))) fs.
Proof. rewrite io_bind_run. cbn. by destruct (k _ fs). Qed.

(** After [only_compress] has returned, the file [fn_tiff] exists. *)
Lemma only_compress_exists (env : Env) (app : convert_to_tiff) (T : PixelType)
    (fn_movie fn_tiff : string) (fs : Files) :
  (only_compress env app T fn_movie fn_tiff fs).2 = Ok tt ->
  is_Some (applyOps fs (only_compress env app T fn_movie fn_tiff fs).1 !! fn_tiff).
Proof.
  intros Hok.
  destruct (only_compress_run env app T fn_movie fn_tiff fs)
    as [[_ Hrun]|(_ & pages & [(_ & _ & Hfail)|(_ & Hrun)])]; cbn zeta in *.
  - rewrite Hrun in Hok. discriminate.
  - done.
  - rewrite Hrun. cbn [fst].
    change (OpTIFFOpen fn_tiff :: (OpTIFFWriteDirectory fn_tiff <$> pages)
              ++ [OpTIFFClose fn_tiff; OpRename (tmpName fn_tiff) fn_tiff])
      with ((OpTIFFOpen fn_tiff :: (OpTIFFWriteDirectory fn_tiff <$> pages))
              ++ [OpTIFFClose fn_tiff; OpRename (tmpName fn_tiff) fn_tiff])%list.
    rewrite applyOps_app.
    set (fs2 := applyOps fs _).
    assert (Hfs2 : fs2 !! fn_tiff = Some (TiffFile pages)).
    { unfold fs2. change (applyOps fs (?op :: ?ops)) with (applyOps (applyOp fs op) ops).
      rewrite (applyOps_pages _ pages []); [done|]. cbn. by rewrite lookup_insert_eq. }
    cbn [applyOps foldl applyOp]. destruct (fs2 !! tmpName fn_tiff) as [stale|].
    + rewrite lookup_insert_eq. eauto.
    + rewrite Hfs2. eauto.
Qed.

(** [unnormalise] with an empty gain image. *)
Lemma unnormalise_empty_gain (env : Env) (app : convert_to_tiff) (fn_movie fn_tiff : string)
    (fs : Files) (frame : Image spec_float) :
  tiffWritable env (tmpName fn_tiff) = true -> 0 < nn app -> data (gain app) = [] ->
  readFrameFloat env fn_movie 0 = Ok frame -> data frame ≠ [] ->
  unnormalise env app fn_movie fn_tiff fs = ([OpTIFFOpen (tmpName fn_tiff)], Undefined).
Proof.
  intros Hopen Hnn Hgain Hframe Hpixels.
  unfold unnormalise. fold (tmpName fn_tiff). unfold TIFFOpen. rewrite Hopen, io_bind_op.
  unfold frameNumbers. destruct (Z.to_nat (nn app)) as [|k] eqn:Hk; [lia|].
  cbn [seq fmap list_fmap io_foldM]. rewrite !io_bind_run.
  assert (Hfirst : forall st fs',
             unnormaliseFrame env app fn_movie (tmpName fn_tiff) st (Z.of_nat 0) fs'
             = ([], Undefined)).
  { intros st fs'. unfold unnormaliseFrame. cbn [Z.of_nat].
    rewrite io_bind_lift. change (Z.of_nat 0) with 0. rewrite Hframe, io_bind_lift.
    destruct (data frame) as [|val pixels] eqn:Hdata; [done|].
    cbn [length seq foldM]. unfold unnormalisePixel at 1. rewrite Hdata, Hgain.
    destruct st as [buf reports]. reflexivity. }
  rewrite Hfirst. reflexivity.
Qed.

(** X16. A movie of 8-bit or 16-bit integers (mode 0, 1, 6 or 101) is
    compressed by [only_compress], and [processOneMovie] then goes on as
    for any other movie. With [--only_do_unfinished] it returns there,
    because the file just written exists. Without it, and without
    [--estimate_gain], it calls [unnormalise] on the same two names, and
    since [initialise] has set up no gain for such a movie, the first
    pixel of the first frame is looked up in an empty gain image. *)
Theorem processOneMovie_integer_movie (env : Env) (app : convert_to_tiff)
    (fn_movie fn_tiff : string) (fs : Files) (nn' : Z) :
  readHead env fn_movie = Ok (nn', ny app, nx app) ->
  checkMRCtype env fn_movie = Ok (mrc_mode app) ->
  do_estimate app = false ->
  mrc_mode app = 0 \/ mrc_mode app = 1 \/ mrc_mode app = 6 \/ mrc_mode app = 101 ->
  let T := if (mrc_mode app =? 1) || (mrc_mode app =? 6) then T_short else T_char in
  let compress := only_compress env app T fn_movie fn_tiff fs in
  compress.2 = Ok tt ->
  (only_do_unfinished app = true ->
     processOneMovie env app fn_movie fn_tiff fs = (compress.1, Ok app))
  /\ (only_do_unfinished app = false ->
      let after := unnormalise env app fn_movie fn_tiff (applyOps fs compress.1) in
      (processOneMovie env app fn_movie fn_tiff fs).1 = (compress.1 ++ after.1)%list
      /\ (forall reports, after.2 = Ok reports ->
            (processOneMovie env app fn_movie fn_tiff fs).2 = Ok app)
      /\ (forall frame,
            tiffWritable env (tmpName fn_tiff) = true -> 0 < nn app ->
            data (gain app) = [] ->
            readFrameFloat env fn_movie 0 = Ok frame -> data frame ≠ [] ->
            processOneMovie env app fn_movie fn_tiff fs
            = ((compress.1 ++ [OpTIFFOpen (tmpName fn_tiff)])%list, Undefined))).
Proof.
  intros Hhead Hmode Hest Hint T compress Hok.
  assert (Hrun : processOneMovie env app fn_movie fn_tiff fs
                 = io_bind (only_compress env app T fn_movie fn_tiff)
                     (fun _ =>
                        let! done := io_exists fn_tiff in
                        if only_do_unfinished app && done then io_ret app
                        else let! _ := unnormalise env app fn_movie fn_tiff in
                             io_ret app) fs).
  { unfold processOneMovie. rewrite io_bind_lift, Hhead. cbn beta iota.
    rewrite !Z.eqb_refl. cbn [negb]. rewrite io_bind_run.
    rewrite (io_bind_lift (checkMRCtype env fn_movie)), Hmode.
    cbn [io_ret fst snd applyOps foldl List.app]. rewrite Z.eqb_refl. cbn [negb].
    rewrite Hest. subst T.
    destruct Hint as [Hm|[Hm|[Hm|Hm]]]; rewrite Hm; cbn [Z.eqb Pos.eqb orb];
      by destruct (io_bind _ _ fs). }
  rewrite Hrun, io_bind_run. fold compress. rewrite Hok.
  pose proof (only_compress_exists env app T fn_movie fn_tiff fs Hok) as Hexists.
  fold compress in Hexists.
  rewrite io_bind_exists, (bool_decide_eq_true_2 _ Hexists). split.
  - intros ->. cbn [andb io_ret fst snd]. by rewrite app_nil_r.
  - intros ->. cbn [andb]. rewrite io_bind_run.
    set (after := unnormalise env app fn_movie fn_tiff (applyOps fs compress.1)).
    split; [|split].
    + destruct (after.2); cbn; by rewrite ?app_nil_r.
    + intros reports ->. reflexivity.
    + intros frame Hopen Hnn Hgain Hframe Hpixels.
      unfold after.
      rewrite (unnormalise_empty_gain env app fn_movie fn_tiff _ frame); done.
Qed.

(** * The compression of a page *)

Lemma tiffPage_report (app : convert_to_tiff) (T : PixelType) (buf : Image Pixel)
    (filter : Compression) (level : Z) (msg : string) :
  tiffPage app T buf filter level = ReportError msg <->
  filter = COMPRESSION_DEFLATE /\ (level <= 0 \/ 9 < level)
  /\ msg = "Deflate level must be 1, 2, ..., 9".
Proof.
  unfold tiffPage. cbn zeta.
  destruct (decide (filter = COMPRESSION_DEFLATE)) as [Hd|Hd].
  - destruct ((level <=? 0) || (9 <? level)) eqn:Hlevel; cbn [bind].
    + apply orb_true_iff in Hlevel. rewrite Z.leb_le, Z.ltb_lt in Hlevel.
      split; [intros [= <-]; done|]. by intros (_ & _ & ->).
    + apply orb_false_iff in Hlevel. rewrite Z.leb_gt, Z.ltb_ge in Hlevel.
      split; [|intros (_ & ? & _); lia].
      intros Hrun. exfalso. revert Hrun.
      apply noReport_bind; [|done].
      apply noReport_foldM. intros lines iy msg'. apply tiffPage_no_report_rows.
  - cbn [bind]. split; [|by intros (? & _)].
    intros Hrun. exfalso. revert Hrun.
    apply noReport_bind; [|done].
    apply noReport_foldM. intros lines iy msg'. apply tiffPage_no_report_rows.
Qed.

(** X17. The settings of the compression. [decide_filter] knows five
    names and reports any other as an error; it picks deflate for
    "deflate", "zip" and, with "auto", for a movie 4096 pixels wide, and
    only there. [write_tiff_one_page] reports an error exactly when the
    filter is deflate and the level is not one of 1 to 9: with any other
    filter the level is not looked at. With the defaults of [read]
    ("auto", level "6") neither reports an error. *)
Theorem compression_settings (app : convert_to_tiff) (nx' : Z) :
  (forall msg, decide_filter app nx' = ReportError msg <->
     (fn_compression app ∉ ["none"; "lzw"; "deflate"; "zip"; "auto"])
     /\ msg = "Compression type must be one of none, auto, deflate (= zip) or lzw.")
  /\ (decide_filter app nx' = Ok COMPRESSION_DEFLATE <->
      fn_compression app = "deflate" \/ fn_compression app = "zip"
      \/ (fn_compression app = "auto" /\ nx' = 4096))
  /\ (forall T buf filter level msg,
        tiffPage app T buf filter level = ReportError msg <->
        filter = COMPRESSION_DEFLATE /\ (level <= 0 \/ 9 < level)
        /\ msg = "Deflate level must be 1, 2, ..., 9")
  /\ (forall parser app' T buf msg,
        getOption parser "--compression" = None ->
        getOption parser "--deflate_level" = None ->
        textToInteger parser "6" = Ok 6 ->
        read app parser = Ok app' ->
        (exists filter, decide_filter app' nx' = Ok filter)
        /\ forall filter, tiffPage app' T buf filter (deflate_level app') ≠ ReportError msg).
Proof.
  split; [|split; [|split]].
  - intros msg. unfold decide_filter.
    rewrite !not_elem_of_cons.
    destruct (String.eqb_spec (fn_compression app) "none") as [->|Hnone];
      [split; [discriminate|intros [(? & _) _]; done]|].
    destruct (String.eqb_spec (fn_compression app) "lzw") as [->|Hlzw];
      [split; [discriminate|intros [(_ & ? & _) _]; done]|].
    destruct (String.eqb_spec (fn_compression app) "deflate") as [->|Hdeflate];
      [split; [discriminate|intros [(_ & _ & ? & _) _]; done]|].
    destruct (String.eqb_spec (fn_compression app) "zip") as [->|Hzip];
      [split; [discriminate|intros [(_ & _ & _ & ? & _) _]; done]|].
    cbn [orb].
    destruct (String.eqb_spec (fn_compression app) "auto") as [->|Hauto].
    { split; [by destruct (nx' =? 4096)|intros [(_ & _ & _ & _ & ? & _) _]; done]. }
    split; [intros [= <-]|intros [_ ->]; done].
    split; [|done]. repeat split; try done. apply not_elem_of_nil.
  - unfold decide_filter.
    destruct (String.eqb_spec (fn_compression app) "none") as [->|Hnone].
    { split; [discriminate|]. intros [?|[?|[? _]]]; discriminate. }
    destruct (String.eqb_spec (fn_compression app) "lzw") as [->|Hlzw].
    { split; [discriminate|]. intros [?|[?|[? _]]]; discriminate. }
    destruct (String.eqb_spec (fn_compression app) "deflate") as [->|Hdeflate];
      [split; auto|].
    destruct (String.eqb_spec (fn_compression app) "zip") as [->|Hzip];
      [split; auto|].
    cbn [orb].
    destruct (String.eqb_spec (fn_compression app) "auto") as [->|Hauto].
    { destruct (Z.eqb_spec nx' 4096) as [->|Hnx]; [split; auto|].
      split; [discriminate|]. intros [?|[?|[_ ?]]]; done. }
    split; [discriminate|]. intros [?|[?|[? _]]]; done.
  - intros T buf filter level msg. apply tiffPage_report.
  - intros parser app' T buf msg Hcompression Hlevel Hsix Hread.
    unfold read in Hread. rewrite Hcompression, Hlevel in Hread. cbn [default] in Hread.
    rewrite Hsix in Hread.
    destruct (textToInteger parser (default "1" _)) as [threads| |]; [|discriminate..].
    destruct (textToInteger parser (default "20" _)) as [thresh| |]; [|discriminate..].
    cbn [bind] in Hread.
    destruct (getOption parser "--i") as [fn_in'|]; [|discriminate].
    injection Hread as <-.
    split.
    + unfold decide_filter. cbn [fn_compression String.eqb Ascii.eqb Bool.eqb orb andb].
      destruct (nx' =? 4096); eauto.
    + intros filter Hreport. apply tiffPage_report in Hreport as (_ & Hbad & _).
      cbn [deflate_level] in Hbad. lia.
Qed.

(** * Converting again *)

Lemma io_bind_then_ret {A B} (m : IO A) (b : B) (fs : Files) :
  (io_bind m (fun _ => io_ret b) fs).1 = (m fs).1.
Proof.
  rewrite io_bind_run. destruct ((m fs).2); cbn [io_ret fst snd]; by rewrite ?app_nil_r.
Qed.

(** X18. A movie of floats (any mode but 0, 1, 6 and 101) with
    [--only_do_unfinished] and without [--estimate_gain]: when [fn_tiff]
    exists, [processOneMovie] touches no file. When it does not, the
    movie is converted; after a call that returned, a second call finds
    the output and touches no file, and after a call that failed there is
    still no [fn_tiff], so that a second call converts the movie anew. *)
Theorem processOneMovie_resumes (env : Env) (app : convert_to_tiff)
    (fn_movie fn_tiff : string) (fs : Files) (nn' : Z) :
  readHead env fn_movie = Ok (nn', ny app, nx app) ->
  checkMRCtype env fn_movie = Ok (mrc_mode app) ->
  do_estimate app = false ->
  only_do_unfinished app = true ->
  mrc_mode app ∉ [0; 1; 6; 101] ->
  let run := processOneMovie env app fn_movie fn_tiff fs in
  (is_Some (fs !! fn_tiff) -> run = ([], Ok app))
  /\ (fs !! fn_tiff = None ->
      run.1 = (unnormalise env app fn_movie fn_tiff fs).1
      /\ (run.2 = Ok app ->
          processOneMovie env app fn_movie fn_tiff (applyOps fs run.1) = ([], Ok app))
      /\ (run.2 ≠ Ok app ->
          applyOps fs run.1 !! fn_tiff = None
          /\ (processOneMovie env app fn_movie fn_tiff (applyOps fs run.1)).1
             = (unnormalise env app fn_movie fn_tiff (applyOps fs run.1)).1)).
Proof.
  intros Hhead Hmode Hest Hunfinished Hfloat.
  assert (Hrun : forall fs',
             processOneMovie env app fn_movie fn_tiff fs'
             = if bool_decide (is_Some (fs' !! fn_tiff)) then ([], Ok app)
               else io_bind (unnormalise env app fn_movie fn_tiff)
                      (fun _ => io_ret app) fs').
  { intros fs'. unfold processOneMovie. rewrite io_bind_lift, Hhead. cbn beta iota.
    rewrite !Z.eqb_refl. cbn [negb]. rewrite io_bind_run.
    rewrite (io_bind_lift (checkMRCtype env fn_movie)), Hmode.
    cbn [io_ret fst snd applyOps foldl List.app]. rewrite Z.eqb_refl. cbn [negb].
    rewrite Hest, Hunfinished.
    rewrite !not_elem_of_cons in Hfloat. destruct Hfloat as (H0 & H1 & H6 & H101 & _).
    apply Z.eqb_neq in H0, H1, H6, H101. rewrite H0, H1, H6, H101. cbn [orb].
    rewrite io_bind_ret, io_bind_exists. cbn [andb].
    destruct (bool_decide (is_Some (fs' !! fn_tiff))); [reflexivity|].
    by destruct (io_bind _ _ fs'). }
  cbn zeta. split.
  - intros Hthere. by rewrite Hrun, (bool_decide_eq_true_2 _ Hthere).
  - intros Hnone.
    assert (Hfirst : processOneMovie env app fn_movie fn_tiff fs
                     = io_bind (unnormalise env app fn_movie fn_tiff)
                         (fun _ => io_ret app) fs).
    { rewrite Hrun, bool_decide_eq_false_2; [done|]. rewrite Hnone. by intros [? ?]. }
    destruct (unnormalise_final env app fn_movie fn_tiff fs) as (Hfail & Hdone).
    cbn zeta in Hfail, Hdone.
    rewrite Hfirst, io_bind_run.
    destruct ((unnormalise env app fn_movie fn_tiff fs).2) as [reports|msg|] eqn:Hout;
      cbn [io_ret fst snd].
    + rewrite app_nil_r. split; [done|]. split; [|done]. intros _.
      destruct (Hdone reports eq_refl) as (pages & Hpages & _).
      rewrite Hrun, bool_decide_eq_true_2; [done|]. rewrite Hpages. eauto.
    + split; [done|]. split; [discriminate|]. intros _.
      assert (Hstill : applyOps fs (unnormalise env app fn_movie fn_tiff fs).1 !! fn_tiff
                       = None).
      { rewrite Hfail; [done|]. discriminate. }
      split; [done|].
      rewrite Hrun, bool_decide_eq_false_2 by (rewrite Hstill; by intros [? ?]).
      apply io_bind_then_ret.
    + split; [done|]. split; [discriminate|]. intros _.
      assert (Hstill : applyOps fs (unnormalise env app fn_movie fn_tiff fs).1 !! fn_tiff
                       = None).
      { rewrite Hfail; [done|]. discriminate. }
      split; [done|].
      rewrite Hrun, bool_decide_eq_false_2 by (rewrite Hstill; by intros [? ?]).
      apply io_bind_then_ret.
Qed.

(** * Estimating the gain *)

(** [processOneMovie] with [--estimate_gain] on a movie of floats. *)
Lemma processOneMovie_estimate_run (env : Env) (app : convert_to_tiff)
    (fn_movie fn_tiff : string) (fs : Files) (nn' : Z) :
  readHead env fn_movie = Ok (nn', ny app, nx app) ->
  checkMRCtype env fn_movie = Ok (mrc_mode app) ->
  do_estimate app = true ->
  mrc_mode app ∉ [0; 1; 6; 101] ->
  processOneMovie env app fn_movie fn_tiff fs
  = match estimate env app (fn_in app) with
    | Ok r =>
        ([OpWriteFloatImage (fn_out r.1 +:+ "gain_estimate.bin") (gain r.1);
          OpWriteShortImage (fn_out r.1 +:+ "gain_estimate_reliablity.bin") (defects r.1)],
         Ok r.1)
    | ReportError msg => ([], ReportError msg)
    | Undefined => ([], Undefined)
    end.
Proof.
  intros Hhead Hmode Hest Hfloat.
  unfold processOneMovie. rewrite io_bind_lift, Hhead. cbn beta iota.
  rewrite !Z.eqb_refl. cbn [negb]. rewrite io_bind_run.
  rewrite (io_bind_lift (checkMRCtype env fn_movie)), Hmode.
  cbn [io_ret fst snd applyOps foldl List.app]. rewrite Z.eqb_refl. cbn [negb].
  rewrite Hest.
  rewrite !not_elem_of_cons in Hfloat. destruct Hfloat as (H0 & H1 & H6 & H101 & _).
  apply Z.eqb_neq in H0, H1, H6, H101. rewrite H0, H1, H6, H101. cbn [orb].
  rewrite io_bind_ret, io_bind_lift.
  destruct (estimate env app (fn_in app)) as [r| |]; reflexivity.
Qed.

(** [estimate] changes the gain and the reliability only. *)
Lemma estimateFrames_fn_out (env : Env) (fn : string) (frames : list Z)
    (st st' : convert_to_tiff * list FrameReport) :
  foldM (estimateFrame env fn) st frames = Ok st' -> fn_out st'.1 = fn_out st.1.
Proof.
  revert st. induction frames as [|iframe frames IH]; intros st Hrun.
  - cbn in Hrun. by injection Hrun as <-.
  - cbn [foldM] in Hrun.
    destruct (estimateFrame env fn st iframe) as [st1| |] eqn:Hstep; [|discriminate..].
    cbn [bind] in Hrun. rewrite (IH _ Hrun).
    unfold estimateFrame in Hstep.
    destruct (readFrameFloat env fn iframe) as [frame| |]; [|discriminate..].
    cbn [bind] in Hstep.
    destruct (foldM _ _ _) as [[[gain' defects'] c]| |]; [|discriminate..].
    cbn [bind] in Hstep. by injection Hstep as <-.
Qed.

(** X19. With [--estimate_gain], [processOneMovie] estimates from the
    file [fn_in], not from the movie it is called for: of a movie of
    floats only the header is looked at, so that two movies with the
    same header give the same outcome, whatever their frames and the
    files there are. A call that returns has written the gain and the
    reliability that [estimate] has reached on [fn_in], and these two
    files only: no TIFF file is touched. *)
Theorem processOneMovie_estimates_from_fn_in (env : Env) (app : convert_to_tiff)
    (fn_movie fn_movie' fn_tiff fn_tiff' : string) (fs fs' : Files) (nn1 nn2 : Z) :
  readHead env fn_movie = Ok (nn1, ny app, nx app) ->
  checkMRCtype env fn_movie = Ok (mrc_mode app) ->
  readHead env fn_movie' = Ok (nn2, ny app, nx app) ->
  checkMRCtype env fn_movie' = Ok (mrc_mode app) ->
  do_estimate app = true ->
  mrc_mode app ∉ [0; 1; 6; 101] ->
  processOneMovie env app fn_movie fn_tiff fs = processOneMovie env app fn_movie' fn_tiff' fs'
  /\ (forall ops app',
        processOneMovie env app fn_movie fn_tiff fs = (ops, Ok app') ->
        (exists reports, estimate env app (fn_in app) = Ok (app', reports))
        /\ ops = [OpWriteFloatImage (fn_out app +:+ "gain_estimate.bin") (gain app');
                  OpWriteShortImage (fn_out app +:+ "gain_estimate_reliablity.bin")
                    (defects app')]).
Proof.
  intros Hhead Hmode Hhead' Hmode' Hest Hfloat.
  rewrite (processOneMovie_estimate_run env app fn_movie fn_tiff fs nn1),
    (processOneMovie_estimate_run env app fn_movie' fn_tiff' fs' nn2) by done.
  split; [done|]. intros ops app' Hrun.
  destruct (estimate env app (fn_in app)) as [[app1 reports]| |] eqn:Hestimate;
    [|discriminate..].
  cbn [fst] in Hrun. injection Hrun as <- <-. split; [by exists reports|].
  pose proof (estimateFrames_fn_out _ _ _ _ _ Hestimate) as Hout. cbn [fst] in Hout.
  by rewrite Hout.
Qed.

(** * The statements on [convert_to_tiff] on two small movies *)

(** X11, on the first frame of "shorts.mrc". *)
Lemma tiffPage_scanlines_witness :
  exists page,
    tiffPage exampleShorts T_short (intPage (exampleShortFrame 0)) COMPRESSION_LZW 6 = Ok page
    /\ p_scanlines page !! 0%nat = Some [PixelInt 3; PixelInt 4]
    /\ mjoin (reverse (p_scanlines page)) = PixelInt <$> [1; 2; 3; 4].
Proof.
  destruct (tiffPage_scanlines exampleShorts T_short (intPage (exampleShortFrame 0))
              COMPRESSION_LZW 6
              ltac:(vm_compute; lia) ltac:(vm_compute; lia) eq_refl
              ltac:(discriminate)) as [Hsame _].
  destruct (Hsame eq_refl) as (page & Hpage & _ & _ & _ & Hrows & Hjoin).
  exists page. split; [exact Hpage|]. split; [|exact Hjoin].
  exact (Hrows 0%nat ltac:(vm_compute; lia)).
Defined.

Lemma exampleEstimated_run :
  estimate exampleEnv exampleBlank "floats.mrc" = Ok (exampleEstimated, exampleReports).
Proof. by_computation. Qed.

(** X12, on "floats.mrc": the first pixel is 1 and 2 in the two frames,
    and its gain comes down from 999.9 to 1. *)
Lemma estimate_gain_is_smallest_value_witness :
  exists g',
    data (gain exampleEstimated) !! 0%nat = Some g'
    /\ length exampleReports = 2%nat
    /\ SFltb (f32_of_int 2) g' = false.
Proof.
  destruct (estimate_gain_is_smallest_value exampleEnv exampleBlank exampleEstimated
              "floats.mrc" exampleReports 0 (f32_of_double double_999_9)
              exampleEstimated_run eq_refl)
    as (g' & Hg' & Hlen & _ & _ & Hleast & _).
  exists g'. split; [exact Hg'|]. split; [exact Hlen|].
  apply (Hleast 1 (exampleFloatFrame 1) (f32_of_int 2)).
  - change (0 <= 1 < 2). lia.
  - reflexivity.
  - reflexivity.
  - by_computation.
Defined.

(** X14, on "shorts.mrc": the output is emptied by the first step. *)
Lemma only_compress_writes_in_place_witness :
  applyOps {["out/shorts.tif" := OtherFile]}
    (take 1 (only_compress exampleEnv exampleShorts T_short "shorts.mrc" "out/shorts.tif"
               {["out/shorts.tif" := OtherFile]}).1)
    !! "out/shorts.tif"
  = Some (TiffFile []).
Proof.
  exact (proj1 (only_compress_writes_in_place exampleEnv exampleShorts T_short
                  "shorts.mrc" "out/shorts.tif" {["out/shorts.tif" := OtherFile]}
                  eq_refl)).
Defined.

(** X15, on "floats.mrc" with the threshold 20. *)
Lemma initialise_without_gain_reference_witness :
  initialise exampleEnv exampleOptions "floats.mrc" ∅
  = ([OpWriteFloatImage "out/gain-reference.mrc"
        (mkImage 2 2 (replicate 4 (f32_of_double double_1_0)))],
     Ok exampleConverter).
Proof.
  destruct (initialise_without_gain_reference exampleEnv exampleOptions "floats.mrc" ∅
              2 2 2 2 eq_refl eq_refl eq_refl) as (_ & _ & _ & Hmasked).
  exact (proj1 (Hmasked eq_refl eq_refl eq_refl)).
Defined.

(** X16, on "shorts.mrc" without [--only_do_unfinished]: the movie is
    compressed, and the call then runs into the empty gain image. *)
Lemma processOneMovie_integer_movie_witness :
  processOneMovie exampleEnv exampleShorts "shorts.mrc" "out/shorts.tif" ∅
  = (((only_compress exampleEnv exampleShorts T_short "shorts.mrc" "out/shorts.tif" ∅).1
        ++ [OpTIFFOpen "out/shorts.tif.tmp"])%list,
     Undefined).
Proof.
  destruct (processOneMovie_integer_movie exampleEnv exampleShorts "shorts.mrc"
              "out/shorts.tif" ∅ 2 eq_refl eq_refl eq_refl
              (or_intror (or_introl eq_refl)) ltac:(by_computation))
    as [_ Hgoes_on].
  destruct (Hgoes_on eq_refl) as (_ & _ & Hfails).
  apply (Hfails (exampleFloatFrame 0)).
  - reflexivity.
  - vm_compute. reflexivity.
  - reflexivity.
  - reflexivity.
  - discriminate.
Defined.

(** X18, on "floats.mrc": the second call touches no file. *)
Lemma processOneMovie_resumes_witness :
  processOneMovie exampleEnv exampleConverter "floats.mrc" "out/floats.tif"
    (applyOps ∅ (processOneMovie exampleEnv exampleConverter "floats.mrc"
                   "out/floats.tif" ∅).1)
  = ([], Ok exampleConverter).
Proof.
  destruct (processOneMovie_resumes exampleEnv exampleConverter "floats.mrc"
              "out/floats.tif" ∅ 2 eq_refl eq_refl eq_refl eq_refl
              ltac:(apply (bool_decide_unpack _); vm_compute; exact I))
    as [_ Hconverts].
  destruct (Hconverts eq_refl) as (_ & Hagain & _).
  apply Hagain. by_computation.
Defined.

(** X19, on "floats.mrc" and a second movie. *)
Lemma processOneMovie_estimates_from_fn_in_witness :
  processOneMovie exampleEnv exampleBlank "floats.mrc" "out/floats.tif" ∅
  = processOneMovie exampleEnv exampleBlank "more.mrc" "out/more.tif"
      {["out/more.tif" := OtherFile]}.
Proof.
  exact (proj1 (processOneMovie_estimates_from_fn_in exampleEnv exampleBlank
                  "floats.mrc" "more.mrc" "out/floats.tif" "out/more.tif"
                  ∅ {["out/more.tif" := OtherFile]} 2 2
                  eq_refl eq_refl eq_refl eq_refl eq_refl
                  ltac:(apply (bool_decide_unpack _); vm_compute; exact I))).
Defined.
